(** * Gaussian LDA inference: a shallow embedding of [gaussianlda/model.py]

    The development follows the Python class [GaussianLDA]: the constructor
    with its cached Student-t quantities, the two density evaluators
    [log_multivariate_tdensity] and [log_multivariate_tdensity_tables], the
    log-determinant loop of [load_from_java], and the Gibbs sampler
    [sample].

    Numbers.  A numpy [float64] is modelled by a real number of [R]: the
    development describes the ideal (exact) arithmetic of the program, with
    neither rounding, overflow, infinities nor NaN.  [ln], [sqrt] and [/] of
    the standard library are total; they agree with the mathematical
    functions on their domain only, so every statement that depends on a
    value carries the hypothesis that puts the arguments in the domain.
    Python integers and numpy [int64] counts are integers of [Z] (a count is
    bounded by the length of a document, far from the 64-bit range).  An
    integer that the caller passes as an index (a token id, a table id, the
    number in the name of a file) is an unbounded Python integer: numpy
    converts it to its 64-bit index type before the bounds check
    ([np_getitem], [np_setitem]).

    Arrays.  A one-dimensional array is a list, an array of rows a list of
    lists; numpy's broadcasting along an axis is written out.  Python
    exceptions are values of [exn]; a computation that can raise returns a
    [result].

    State.  [sample] is a state transformer over the model object, the state
    of numpy's global random generator and a list of recorded program
    points; its local variables are threaded through the loops.  The
    functions of scipy and numpy ([solve_triangular], [slogdet], [bincount],
    [choice], ...) are written from their documentation; [gammaln] is
    defined by Euler's limit, the two raw draws of the generator are taken as
    given. *)

From Stdlib Require Import String.
From Stdlib Require Import Reals Lra List ZArith Lia Bool.
From Stdlib Require Import ClassicalEpsilon.
Import ListNotations.

Open Scope R_scope.

(** ** Exceptions and the error monad *)

Inductive exn : Type :=
| IndexError    (* index out of range *)
| OverflowError (* a Python integer that does not fit the index type of numpy *)
| ValueError    (* shape mismatch, invalid argument of a numpy function *)
| LinAlgError.  (* singular matrix in a triangular solve *)

Inductive result (A : Type) : Type :=
| Ok (a : A)
| Raise (e : exn).

Arguments Ok {A} a.
Arguments Raise {A} e.

Definition bind {A B : Type} (r : result A) (k : A -> result B) : result B :=
  match r with
  | Ok a => k a
  | Raise e => Raise e
  end.

Declare Scope result_scope.
Delimit Scope result_scope with result.
Notation "x <- e ;; k" := (bind e (fun x => k))
  (at level 61, e at next level, right associativity) : result_scope.
Open Scope result_scope.

(** A Python [for] loop that builds a list and stops at the first exception. *)
Fixpoint mapM {A B : Type} (f : A -> result B) (l : list A) : result (list B) :=
  match l with
  | [] => Ok []
  | a :: l' =>
      b <- f a ;;
      bs <- mapM f l' ;;
      Ok (b :: bs)
  end.

(** ** numpy and Python primitives *)

(** Integer indexing of a sequence of length [n]: negative indices count from
    the end, anything outside [-n, n) raises. *)
Definition py_index (n : nat) (i : Z) : option nat :=
  if ((0 <=? i) && (i <? Z.of_nat n))%Z then Some (Z.to_nat i)
  else if ((- Z.of_nat n <=? i) && (i <? 0))%Z then Some (Z.to_nat (Z.of_nat n + i))
  else None.

(** [l[i]] for a Python list, and for an array whose index is a numpy
    integer or a loop counter, which fits the index type by its origin: the
    only error is [IndexError]. *)
Definition getitem {A : Type} (l : list A) (i : Z) : result A :=
  match py_index (length l) i with
  | Some k =>
      match nth_error l k with
      | Some a => Ok a
      | None => Raise IndexError
      end
  | None => Raise IndexError
  end.

(** The index type [npy_intp] of numpy, 64 bits wide on the platforms
    considered. *)
Definition intp_fits (i : Z) : bool := ((- 2 ^ 63 <=? i) && (i <? 2 ^ 63))%Z.

(** What numpy raises for a Python integer that is not an index of the
    array: the integer is converted to [npy_intp] first, which fails with
    [OverflowError], and checked against the bounds after. *)
Definition index_error (i : Z) : exn :=
  if intp_fits i then IndexError else OverflowError.

(** [a[i]] for an array and a Python integer [i] given by the caller.  An
    array has fewer than [2 ^ 63] entries, so an index within the bounds
    fits; the conversion is looked at only outside the bounds. *)
Definition np_getitem {A : Type} (l : list A) (i : Z) : result A :=
  match py_index (length l) i with
  | Some k =>
      match nth_error l k with
      | Some a => Ok a
      | None => Raise IndexError
      end
  | None => Raise (index_error i)
  end.

(** [l[i] = f(l[i])], in place. *)
Fixpoint update_nth {A : Type} (k : nat) (f : A -> A) (l : list A) : list A :=
  match l, k with
  | [], _ => []
  | a :: l', O => f a :: l'
  | a :: l', S k' => a :: update_nth k' f l'
  end.

Definition setitem {A : Type} (l : list A) (i : Z) (f : A -> A) : result (list A) :=
  match py_index (length l) i with
  | Some k => Ok (update_nth k f l)
  | None => Raise IndexError
  end.

(** [a[i] = f(a[i])] for an array and a Python integer [i] given by the
    caller. *)
Definition np_setitem {A : Type} (l : list A) (i : Z) (f : A -> A) : result (list A) :=
  match py_index (length l) i with
  | Some k => Ok (update_nth k f l)
  | None => Raise (index_error i)
  end.

(** [range(n)]: empty for [n <= 0]. *)
Definition range (n : Z) : list Z := map Z.of_nat (seq 0 (Z.to_nat n)).

Fixpoint map2 {A B C : Type} (f : A -> B -> C) (a : list A) (b : list B) : list C :=
  match a, b with
  | x :: a', y :: b' => f x y :: map2 f a' b'
  | _, _ => []
  end.

(** Elementwise binary operation on two arrays along one axis, with numpy's
    broadcasting: equal lengths, or one of the two of length one. *)
Definition broadcast2 {A B C : Type} (f : A -> B -> C) (a : list A) (b : list B)
  : result (list C) :=
  if (length a =? length b)%nat then Ok (map2 f a b)
  else match a, b with
       | [x], _ => Ok (map (f x) b)
       | _, [y] => Ok (map (fun x => f x y) a)
       | _, _ => Raise ValueError
       end.

(** [a.sum()] *)
Definition np_sum (a : list R) : R := fold_left Rplus a 0.

(** [a.max()]: raises on an empty array. *)
Definition np_max (a : list R) : result R :=
  match a with
  | [] => Raise ValueError
  | x :: a' => Ok (fold_left Rmax a' x)
  end.

(** [a.cumsum()] *)
Fixpoint cumsum_from (acc : R) (a : list R) : list R :=
  match a with
  | [] => []
  | x :: a' => (acc + x) :: cumsum_from (acc + x) a'
  end.

Definition cumsum (a : list R) : list R := cumsum_from 0 a.

(** [cdf.searchsorted(u, side='right')]: the number of entries [<= u] of a
    sorted array. *)
Fixpoint searchsorted_right (cdf : list R) (u : R) : nat :=
  match cdf with
  | [] => O
  | c :: cdf' => if Rle_dec c u then S (searchsorted_right cdf' u) else O
  end.

Definition Req_bool (a b : R) : bool := if Req_dec_T a b then true else false.
Definition Rlt_bool (a b : R) : bool := if Rlt_dec a b then true else false.

(** ** [scipy.linalg.solve_triangular]

    [solve_triangular(a, b, trans=0, lower=False, unit_diagonal=False,
    overwrite_b=False, check_finite=True)] solves [a z = b] for a triangular
    [a].  With [lower=False], the default, only the upper triangle of [a] is
    read and the system is solved by back substitution; with [lower=True]
    only the lower triangle is read and the system is solved by forward
    substitution.  LAPACK's [trtrs] reports a zero on the diagonal, which
    scipy raises as [LinAlgError].  [check_finite] rejects infinities and
    NaN, which do not exist in [R]. *)

Definition dot (a b : list R) : R := np_sum (map2 Rmult a b).

(** Back substitution on the upper triangle: the last unknown first. *)
Fixpoint back_substitution (a : list (list R)) (b : list R) {struct b} : list R :=
  match b, a with
  | bi :: b', row :: a' =>
      let z := back_substitution (map (@tl R) a') b' in
      (bi - dot (tl row) z) / hd 0 row :: z
  | _, _ => []
  end.

(** Forward substitution on the lower triangle: [z] holds the unknowns
    already solved, row [i] reads its first [i] entries and its diagonal. *)
Fixpoint forward_substitution_from (z : list R) (a : list (list R)) (b : list R)
  {struct b} : list R :=
  match b, a with
  | bi :: b', row :: a' =>
      let i := length z in
      let zi := (bi - dot (firstn i row) z) / nth i row 0 in
      forward_substitution_from (z ++ [zi]) a' b'
  | _, _ => z
  end.

Definition forward_substitution (a : list (list R)) (b : list R) : list R :=
  forward_substitution_from [] a b.

Definition is_square (a : list (list R)) : bool :=
  forallb (fun row => (length row =? length a)%nat) a.

Definition diagonal (a : list (list R)) : list R :=
  map (fun ir => nth (fst ir) (snd ir) 0) (combine (seq 0 (length a)) a).

Definition solve_triangular (a : list (list R)) (b : list R) (lower : bool)
  : result (list R) :=
  if negb (is_square a) then Raise ValueError
  else if negb (length a =? length b)%nat then Raise ValueError
  else if existsb (fun d => Req_bool d 0) (diagonal a) then Raise LinAlgError
  else Ok (if lower then forward_substitution a b else back_substitution a b).

(** ** [numpy.linalg.slogdet]

    [slogdet(a)] returns the sign and the logarithm of the absolute value of
    the determinant of a square matrix.  The determinant is computed here by
    expansion along the first row.  For a singular matrix numpy returns
    [(0, -inf)]; the model is meant for a nonzero determinant. *)

Fixpoint remove_nth {A : Type} (j : nat) (l : list A) : list A :=
  match l, j with
  | [], _ => []
  | _ :: l', O => l'
  | x :: l', S j' => x :: remove_nth j' l'
  end.

Fixpoint det (n : nat) (a : list (list R)) : R :=
  match n with
  | O => 1
  | S n' =>
      np_sum (map (fun j => (-1) ^ j * nth j (hd [] a) 0
                            * det n' (map (remove_nth j) (tl a)))
                  (seq 0 (S n')))
  end.

Definition sign (r : R) : R :=
  if Rlt_dec 0 r then 1 else if Rlt_dec r 0 then -1 else 0.

Definition slogdet (a : list (list R)) : result (R * R) :=
  if negb (is_square a) then Raise LinAlgError
  else let d := det (length a) a in Ok (sign d, ln (Rabs d)).

(** ** The model object *)

(** The prior of [gaussianlda.prior]: the three attributes the model reads. *)
Module Wishart.
Record t : Type := mk {
  kappa : R;        (* pseudo-count of the prior mean *)
  nu : R;           (* degrees of freedom *)
  mu : list R       (* prior mean *)
}.
End Wishart.

Record GaussianLDA : Type := mkGaussianLDA {
  vocab : list String.string;
  alpha : R;
  vocab_embeddings : list (list R);
  embedding_size : nat;
  num_tables : Z;
  table_counts : list R;
  table_means : list (list R);
  log_determinants : list R;
  table_cholesky_ltriangular_mat : list (list (list R));
  prior : Wishart.t;
  k0mu0mu0T : list (list R);
  scaleTdistrn : list R;
  nu : list R
}.

(** [a.shape[1]] of an array of rows.  A list of rows does not record the
    width of an array without rows: there the definition gives [0], whatever
    the second dimension of the numpy array is. *)
Definition shape1 {A : Type} (a : list (list A)) : nat := length (hd [] a).

(** [np.outer(a, b)] *)
Definition outer (a b : list R) : list (list R) :=
  map (fun x => map (fun y => x * y) b) a.

(** ** [scipy.special.gammaln]

    The logarithm of the absolute value of the gamma function, by Euler's
    limit [Gamma(x) = lim n! n^x / (x (x+1) ... (x+n))]. *)
Definition gammaln_seq (x : R) (n : nat) : R :=
  ln (INR (fact n)) + x * ln (INR n)
  - np_sum (map (fun k => ln (Rabs (x + INR k))) (seq 0 (S n))).

Definition gammaln (x : R) : R :=
  epsilon (inhabits 0) (fun l => Un_cv (gammaln_seq x) l).

(** *** [GaussianLDA.__init__]

    [Wishart_init] is the constructor [Wishart(vocab_embeddings, kappa=kappa)]
    of [gaussianlda.prior]. *)
Definition __init__ (Wishart_init : list (list R) -> R -> Wishart.t)
  (vocab_embeddings0 : list (list R)) (vocab0 : list String.string)
  (num_tables0 : Z) (alpha0 kappa0 : R) (table_counts0 : list R)
  (table_means0 : list (list R)) (log_determinants0 : list R)
  (table_cholesky_ltriangular_mat0 : list (list (list R))) : result GaussianLDA :=
  let embedding_size0 := shape1 vocab_embeddings0 in
  let prior0 := Wishart_init vocab_embeddings0 kappa0 in
  let k0mu0mu0T0 :=
    map (map (Rmult (Wishart.kappa prior0)))
        (outer (Wishart.mu prior0) (Wishart.mu prior0)) in
  let k_n := map (fun c => Wishart.kappa prior0 + c) table_counts0 in
  let nu_n := map (fun c => Wishart.nu prior0 + c) table_counts0 in
  let scaleTdistrn0 :=
    map2 (fun k n => sqrt ((k + 1) / (k * (n - INR embedding_size0 + 1)))) k_n nu_n in
  let nu0 :=
    map (fun c => Wishart.nu prior0 + c - INR embedding_size0 + 1) table_counts0 in
  Ok {| vocab := vocab0;
        alpha := alpha0;
        vocab_embeddings := vocab_embeddings0;
        embedding_size := embedding_size0;
        num_tables := num_tables0;
        table_counts := table_counts0;
        table_means := table_means0;
        log_determinants := log_determinants0;
        table_cholesky_ltriangular_mat := table_cholesky_ltriangular_mat0;
        prior := prior0;
        k0mu0mu0T := k0mu0mu0T0;
        scaleTdistrn := scaleTdistrn0;
        nu := nu0 |}.

(** *** [GaussianLDA.load_from_java], lines 151-155: the log-determinants

    [log_determinants[table] = 2. * np.linalg.slogdet(chol[table])[1]] for
    every table; the number of tables is the leading dimension of the array
    of factors. *)
Definition load_from_java_log_determinants
  (table_cholesky_ltriangular_mat0 : list (list (list R))) : result (list R) :=
  mapM (fun chol => sl <- slogdet chol ;; Ok (2 * snd sl))
       table_cholesky_ltriangular_mat0.

(** *** [GaussianLDA.log_multivariate_tdensity] *)

(** The input [x]: a vector, or a stack of arrays ([x.ndim > 1]). *)
#[warnings="-register-all"]
Inductive ndarray : Type :=
| Vec (v : list R)
| Stack (rows : list ndarray).

(** The value returned: a float for a vector, an array for a stack. *)
Inductive ndvalue : Type :=
| Scalar (r : R)
| Array (a : list R).

(** [logprobs[i] = v] into a [float64] array: a float is stored, an array
    is refused (numpy 2; numpy 1 still converted an array of one element). *)
Definition as_float (v : ndvalue) : result R :=
  match v with
  | Scalar r => Ok r
  | Array _ => Raise ValueError
  end.

(** Lines 257-279, for a vector [x]. *)
Definition tdensity_vector (self : GaussianLDA) (x : list R) (table_id : Z) : result R :=
  count <- np_getitem (table_counts self) table_id ;;
  let k_n := Wishart.kappa (prior self) + count in
  let nu_n := Wishart.nu (prior self) + count in
  let scaleTdistrn :=
    sqrt ((k_n + 1) / (k_n * (nu_n - INR (embedding_size self) + 1))) in
  let nu := Wishart.nu (prior self) + count - INR (embedding_size self) + 1 in
  table_mean <- np_getitem (table_means self) table_id ;;
  x_minus_mu <- broadcast2 Rminus x table_mean ;;
  chol <- np_getitem (table_cholesky_ltriangular_mat self) table_id ;;
  let ltriangular_chol := map (map (Rmult scaleTdistrn)) chol in
  solved <- solve_triangular ltriangular_chol x_minus_mu false ;;
  let val := np_sum (map (fun s => s ^ 2) solved) in
  log_determinant <- np_getitem (log_determinants self) table_id ;;
  Ok (gammaln ((nu + INR (embedding_size self)) / 2)
      - (gammaln (nu / 2)
         + INR (embedding_size self) / 2 * (ln nu + ln PI)
         + log_determinant
         + (nu + INR (embedding_size self)) / 2 * ln (1 + val / nu))).

Fixpoint log_multivariate_tdensity (self : GaussianLDA) (x : ndarray) (table_id : Z)
  {struct x} : result ndvalue :=
  match x with
  | Stack rows =>
      logprobs <-
        (fix loop (rs : list ndarray) : result (list R) :=
           match rs with
           | [] => Ok []
           | r :: rs' =>
               v <- log_multivariate_tdensity self r table_id ;;
               p <- as_float v ;;
               ps <- loop rs' ;;
               Ok (p :: ps)
           end) rows ;;
      Ok (Array logprobs)
  | Vec v =>
      logprob <- tdensity_vector self v table_id ;;
      Ok (Scalar logprob)
  end.

(** *** [GaussianLDA.log_multivariate_tdensity_tables] *)
Definition log_multivariate_tdensity_tables (self : GaussianLDA) (x : list R)
  : result (list R) :=
  let D := INR (embedding_size self) in
  x_minus_mu <- mapM (fun table_mean => broadcast2 Rminus x table_mean)
                     (table_means self) ;;
  ltriangular_chol <-
    broadcast2 (fun s chol => map (map (Rmult s)) chol)
               (scaleTdistrn self) (table_cholesky_ltriangular_mat self) ;;
  val <- (if (num_tables self <? 0)%Z then Raise ValueError
          else mapM (fun table =>
                       a <- getitem ltriangular_chol table ;;
                       b <- getitem x_minus_mu table ;;
                       table_solved <- solve_triangular a b false ;;
                       Ok (np_sum (map (fun s => s ^ 2) table_solved)))
                    (range (num_tables self))) ;;
  let t1 := map (fun n => gammaln ((n + D) / 2)) (nu self) in
  let t2 := map (fun n => gammaln (n / 2) + D / 2 * (ln n + ln PI)) (nu self) in
  t3 <- broadcast2 Rplus t2 (log_determinants self) ;;
  q <- broadcast2 Rdiv val (nu self) ;;
  t4 <- broadcast2 Rmult (map (fun n => (n + D) / 2) (nu self))
                   (map (fun r => ln (1 + r)) q) ;;
  t5 <- broadcast2 Rplus t3 t4 ;;
  broadcast2 Rminus t1 t5.



(** ** The Gibbs sampler *)

(** [np.bincount(x, minlength=m)]: the number of occurrences of every value
    from [0] to [max(m, max(x) + 1) - 1]. *)
Definition bincount (x : list Z) (minlength : Z) : result (list Z) :=
  if (minlength <? 0)%Z then Raise ValueError
  else if existsb (fun v => (v <? 0)%Z) x then Raise ValueError
  else
    let n := Z.max minlength (fold_right Z.max (-1)%Z x + 1) in
    Ok (map (fun k => Z.of_nat (count_occ Z.eq_dec x k)) (range n)).

(** The global generator of [numpy.random]: its state, [randint(high, size=n)]
    ([n] integers of [[0, high)]) and [random_sample()] (a float of
    [[0, 1)]).  The two draws are taken as given; what the sampler relies on
    is stated where it is used ([generator_ok] below). *)
Record Generator : Type := mkGenerator {
  rng : Type;
  randint : rng -> Z -> nat -> result (list Z) * rng;
  random_sample : rng -> R * rng
}.

(** A program point of [sample], recorded for the statements about the state
    in the middle of a sweep: after line 223 (the customer is removed from
    its table) and after line 243 (the customer sits at its new table). *)
Inductive point : Type :=
| Retracted (w : nat) (table_assignments : list Z) (doc_table_counts : list Z)
| Committed (w : nat) (table_assignments : list Z) (doc_table_counts : list Z).

Definition point_position (p : point) : nat :=
  match p with Retracted w _ _ | Committed w _ _ => w end.

Definition point_assignments (p : point) : list Z :=
  match p with Retracted _ a _ | Committed _ a _ => a end.

Definition point_counts (p : point) : list Z :=
  match p with Retracted _ _ h | Committed _ _ h => h end.

Section Sampler.

Variable G : Generator.

(** What a call can read and write outside its local variables: the model
    object, the state of the global generator, and the recorded points. *)
Record world : Type := mkWorld {
  model : GaussianLDA;
  gen : rng G;
  trace : list point
}.

(** Statements: a result and the world after, kept when an exception is
    raised. *)
Definition M (A : Type) : Type := world -> result A * world.

Definition ret {A : Type} (a : A) : M A := fun s => (Ok a, s).

Definition bindM {A B : Type} (m : M A) (k : A -> M B) : M B :=
  fun s => match m s with
           | (Ok a, s') => k a s'
           | (Raise e, s') => (Raise e, s')
           end.

Definition lift {A : Type} (r : result A) : M A := fun s => (r, s).

Definition get_self : M GaussianLDA := fun s => (Ok (model s), s).

Definition observe (p : point) : M unit :=
  fun s => (Ok tt, {| model := model s; gen := gen s; trace := trace s ++ [p] |}).

Declare Scope M_scope.
Delimit Scope M_scope with M.
Notation "x <- e ;; k" := (bindM e (fun x => k))
  (at level 61, e at next level, right associativity) : M_scope.
Notation "e ;;; k" := (bindM e (fun _ => k))
  (at level 61, right associativity) : M_scope.

(** A [for] loop over [l] that threads the local variables [a]. *)
Fixpoint for_each {A X : Type} (l : list X) (body : A -> X -> M A) (a : A) : M A :=
  match l with
  | [] => ret a
  | x :: l' => bindM (body a x) (for_each l' body)
  end.

(** [np.random.randint(high, size=n)] *)
Definition np_random_randint (high : Z) (n : nat) : M (list Z) :=
  fun s => let (r, g) := randint G (gen s) high n in
           (r, {| model := model s; gen := g; trace := trace s |}).

(** The tolerance [sqrt(eps)] of [np.random.choice] on the sum of [p]. *)
Definition choice_atol : R := sqrt (/ 2 ^ 52).

(** [np.random.choice(a, p=p)] for an integer [a]: [p] is checked (size,
    sign, sum within [sqrt(eps)] of one), then one uniform draw is located in
    the normalised cumulative sums. *)
Definition np_random_choice (a : Z) (p : list R) : M Z :=
  fun s =>
    if (a <=? 0)%Z then (Raise ValueError, s)
    else if negb (Z.of_nat (length p) =? a)%Z then (Raise ValueError, s)
    else if existsb (fun pi => Rlt_bool pi 0) p then (Raise ValueError, s)
    else if Rlt_bool choice_atol (Rabs (np_sum p - 1)) then (Raise ValueError, s)
    else
      let cdf := cumsum p in
      let cdf := map (fun c => c / last cdf 0) cdf in
      let (u, g) := random_sample G (gen s) in
      (Ok (Z.of_nat (searchsorted_right cdf u)),
       {| model := model s; gen := g; trace := trace s |}).

Local Open Scope M_scope.

(** Lines 218-243: the body of the loop over the customers of the document.
    The local variables are [table_assignments] and [doc_table_counts]. *)
Definition sample_customer (locals : list Z * list Z) (w_cust_id : nat * Z)
  : M (list Z * list Z) :=
  let (table_assignments, doc_table_counts) := locals in
  let (w, cust_id) := w_cust_id in
  self <- get_self ;;
  x <- lift (np_getitem (vocab_embeddings self) cust_id) ;;
  old_table_id <- lift (getitem table_assignments (Z.of_nat w)) ;;
  table_assignments <- lift (setitem table_assignments (Z.of_nat w) (fun _ => (-1)%Z)) ;;
  doc_table_counts <- lift (setitem doc_table_counts old_table_id (fun c => (c - 1)%Z)) ;;
  observe (Retracted w table_assignments doc_table_counts) ;;;
  let counts := map (fun c => IZR c + alpha self) doc_table_counts in
  log_lls <- lift (log_multivariate_tdensity_tables self x) ;;
  log_posteriors <- lift (broadcast2 Rplus (map ln counts) log_lls) ;;
  log_p_max <- lift (np_max log_posteriors) ;;
  let posterior := map (fun lp => exp (lp - log_p_max)) log_posteriors in
  let posterior := map (fun p => p / np_sum posterior) posterior in
  new_table_id <- np_random_choice (num_tables self) posterior ;;
  doc_table_counts <- lift (setitem doc_table_counts new_table_id (fun c => (c + 1)%Z)) ;;
  table_assignments <- lift (setitem table_assignments (Z.of_nat w) (fun _ => new_table_id)) ;;
  observe (Committed w table_assignments doc_table_counts) ;;;
  ret (table_assignments, doc_table_counts).

(** [enumerate(doc)] *)
Definition enumerate {A : Type} (l : list A) : list (nat * A) :=
  combine (seq 0 (length l)) l.

(** Lines 217-243: one iteration, over the customers in the order of the
    document. *)
Definition sample_iteration (doc : list Z) (locals : list Z * list Z) (iteration : Z)
  : M (list Z * list Z) :=
  for_each (enumerate doc) sample_customer locals.

(** [GaussianLDA.sample] *)
Definition sample (doc : list Z) (num_iterations : Z) : M (list Z) :=
  self <- get_self ;;
  table_assignments <- np_random_randint (num_tables self) (length doc) ;;
  doc_table_counts <- lift (bincount table_assignments (num_tables self)) ;;
  locals <- for_each (range num_iterations) (sample_iteration doc)
                     (table_assignments, doc_table_counts) ;;
  ret (fst locals).

Local Close Scope M_scope.

End Sampler.

Arguments ret {G A} a.
Arguments bindM {G A B} m k.
Arguments lift {G A} r.
Arguments get_self {G}.
Arguments observe {G} p.
Arguments for_each {G A X} l body a.
Arguments model {G} w.
Arguments gen {G} w.
Arguments trace {G} w.
Arguments mkWorld {G} model gen trace.

(** ** Well-formed models

    The conditions of the data model: the arrays agree on the number of
    tables [K] and on the dimension [D], the caches are the ones the
    constructor computes, the hyperparameters give a proper predictive
    distribution, and no Cholesky factor has a zero on its diagonal. *)

Definition shapes_consistent (K : Z) (D : nat) (counts : list R)
  (means : list (list R)) (log_dets : list R) (chols : list (list (list R))) : bool :=
  (Z.of_nat (length counts) =? K)%Z
  && (Z.of_nat (length means) =? K)%Z
  && forallb (fun m => (length m =? D)%nat) means
  && (Z.of_nat (length log_dets) =? K)%Z
  && (Z.of_nat (length chols) =? K)%Z
  && forallb (fun L => (length L =? D)%nat
                       && forallb (fun row => (length row =? D)%nat) L) chols.

Definition well_shaped (self : GaussianLDA) : bool :=
  shapes_consistent (num_tables self) (embedding_size self) (table_counts self)
    (table_means self) (log_determinants self) (table_cholesky_ltriangular_mat self)
  && forallb (fun e => (length e =? embedding_size self)%nat) (vocab_embeddings self).

(** The cached scale and degrees of freedom of a table, lines 60-63.  The
    scale is a finite positive number exactly when [kappa + count] and
    [nu + count - D + 1] are positive, which [proper] below grants; outside
    of it numpy divides by zero or takes the root of a negative number and
    stores [inf] or [nan], which a real number does not represent, so the
    statements that depend on the value of the scale assume [proper]. *)
Definition scale_of (p : Wishart.t) (D : nat) (count : R) : R :=
  sqrt ((Wishart.kappa p + count + 1)
        / ((Wishart.kappa p + count) * (Wishart.nu p + count - INR D + 1))).

Definition nu_of (p : Wishart.t) (D : nat) (count : R) : R :=
  Wishart.nu p + count - INR D + 1.

Definition constructed (self : GaussianLDA) : Prop :=
  scaleTdistrn self
  = map (scale_of (prior self) (embedding_size self)) (table_counts self)
  /\ nu self = map (nu_of (prior self) (embedding_size self)) (table_counts self).

Definition proper (self : GaussianLDA) : Prop :=
  0 < Wishart.kappa (prior self)
  /\ INR (embedding_size self) - 1 < Wishart.nu (prior self)
  /\ Forall (fun c => 0 <= c) (table_counts self).

Definition nonsingular (self : GaussianLDA) : Prop :=
  Forall (fun L => Forall (fun d => d <> 0) (diagonal L))
         (table_cholesky_ltriangular_mat self).

Definition valid (self : GaussianLDA) : Prop :=
  well_shaped self = true /\ constructed self /\ proper self /\ nonsingular self.

(** The Student-t log density in terms of the degrees of freedom, the stored
    log-determinant term and the Mahalanobis term, as both evaluators write
    it. *)
Definition student_t (D : nat) (nu log_det val : R) : R :=
  gammaln ((nu + INR D) / 2)
  - (gammaln (nu / 2)
     + INR D / 2 * (ln nu + ln PI)
     + log_det
     + (nu + INR D) / 2 * ln (1 + val / nu)).

(** The value both evaluators compute for table [k] of a well-formed model:
    the triangular system is solved on the upper triangle. *)
Definition table_logprob (self : GaussianLDA) (x : list R) (k : nat) : R :=
  let count := nth k (table_counts self) 0 in
  let scale := scale_of (prior self) (embedding_size self) count in
  let solved :=
    back_substitution (map (map (Rmult scale))
                           (nth k (table_cholesky_ltriangular_mat self) []))
                      (map2 Rminus x (nth k (table_means self) [])) in
  student_t (embedding_size self) (nu_of (prior self) (embedding_size self) count)
            (nth k (log_determinants self) 0)
            (np_sum (map (fun s => s ^ 2) solved)).

(** ** The specification of the density, for comparison

    The operation [logDensity(x, t)] as section 4.2 of the specification
    words it, step by step: the centered vector, the scaled factor, the
    lower-triangular system solved by forward substitution, the squared norm,
    and the Student-t formula with [(D/2) ln(nu pi)]. *)
Definition logDensity_spec (self : GaussianLDA) (x : list R) (t : nat) : R :=
  let D := INR (embedding_size self) in
  let n_t := nth t (table_counts self) 0 in
  let k_n := Wishart.kappa (prior self) + n_t in
  let nu_n := Wishart.nu (prior self) + n_t in
  let scale_t := sqrt ((k_n + 1) / (k_n * (nu_n - D + 1))) in
  let nu := Wishart.nu (prior self) + n_t - D + 1 in
  let d := map2 Rminus x (nth t (table_means self) []) in
  let L' := map (map (Rmult scale_t)) (nth t (table_cholesky_ltriangular_mat self) []) in
  let z := forward_substitution L' d in
  let val := np_sum (map (fun zi => zi ^ 2) z) in
  gammaln ((nu + D) / 2)
  - (gammaln (nu / 2) + (D / 2) * ln (nu * PI)
     + nth t (log_determinants self) 0
     + ((nu + D) / 2) * ln (1 + val / nu)).

(** ** A model and a generator for the examples *)

(** A prior in the manner of [gaussianlda.prior]: as many degrees of freedom
    as dimensions, the mean embedding as prior mean. *)
Definition Wishart_of_embeddings (word_vecs : list (list R)) (kappa : R) : Wishart.t :=
  {| Wishart.kappa := kappa;
     Wishart.nu := INR (shape1 word_vecs);
     Wishart.mu :=
       map (fun j => np_sum (map (fun v => nth j v 0) word_vecs)
                     / INR (length word_vecs))
           (seq 0 (shape1 word_vecs)) |}.

(** Two words and two tables in dimension two.  Both tables have the factor
    [[1, 0], [1, 1]] of the covariance [[1, 1], [1, 2]], whose determinant is
    one. *)
Definition example_vocab : list String.string := ["cat"%string; "dog"%string].
Definition example_embeddings : list (list R) := [[2; 2]; [10; 10]].
Definition example_counts : list R := [0; 0].
Definition example_means : list (list R) := [[0; 0]; [10; 10]].
Definition example_log_determinants : list R := [0; 0].
Definition example_chol : list (list (list R)) :=
  [[[1; 0]; [1; 1]]; [[1; 0]; [1; 1]]].

Definition example_model : GaussianLDA :=
  let p := Wishart_of_embeddings example_embeddings (1 / 3) in
  {| vocab := example_vocab;
     alpha := 1 / 2;
     vocab_embeddings := example_embeddings;
     embedding_size := 2;
     num_tables := 2;
     table_counts := example_counts;
     table_means := example_means;
     log_determinants := example_log_determinants;
     table_cholesky_ltriangular_mat := example_chol;
     prior := p;
     k0mu0mu0T :=
       map (map (Rmult (Wishart.kappa p))) (outer (Wishart.mu p) (Wishart.mu p));
     scaleTdistrn := map (scale_of p 2) example_counts;
     nu := map (nu_of p 2) example_counts |}.

(** A generator whose integers are zero and whose every float is [u]. *)
Definition fixed_generator (u : R) : Generator :=
  {| rng := unit;
     randint := fun g high n =>
                  if (high <=? 0)%Z then (Raise ValueError, g)
                  else (Ok (repeat 0%Z n), g);
     random_sample := fun g => (u, g) |}.

(** A generator whose every draw is zero. *)
Definition zero_generator : Generator :=
  {| rng := unit;
     randint := fun g high n =>
                  if (high <=? 0)%Z then (Raise ValueError, g)
                  else (Ok (repeat 0%Z n), g);
     random_sample := fun g => (0, g) |}.

(** What the sampler relies on: [randint(high, size=n)] returns [n] integers
    of [[0, high)] for a positive [high], and [random_sample()] a float of
    [[0, 1)]. *)
Definition generator_ok (G : Generator) : Prop :=
  (forall g high n, (0 < high)%Z ->
     exists l g', randint G g high n = (Ok l, g'))
  /\ (forall g high n l g', randint G g high n = (Ok l, g') ->
        length l = n /\ Forall (fun a => (0 <= a < high)%Z) l)
  /\ (forall g, 0 <= fst (random_sample G g) < 1).

(** ** The state of the sampler *)

(** [sum(histogram)] *)
Definition sumZ (l : list Z) : Z := fold_right Z.add 0%Z l.

(** The histogram of the assignments over the tables [0 .. K-1]: entry [k]
    counts the tokens currently assigned to [k]. *)
Definition histogram (K : nat) (A : list Z) : list Z :=
  map (fun k => Z.of_nat (count_occ Z.eq_dec A k)) (range (Z.of_nat K)).

Definition assignments_in (K : nat) (A : list Z) : Prop :=
  Forall (fun a => (0 <= a < Z.of_nat K)%Z) A.

(** The token ids that index the embedding matrix without raising: Python
    accepts [-V <= c < V]. *)
Definition indexable (self : GaussianLDA) (c : Z) : Prop :=
  (- Z.of_nat (length (vocab_embeddings self)) <= c
   < Z.of_nat (length (vocab_embeddings self)))%Z.

(** ** The specification of the sampler, for comparison

    The state machine as section 4.3 of the specification words it: the
    transition, steps a to e, for the token at position [i] with embedding
    [x]; a sweep that scans the positions in the order of the document; and
    [n] sweeps in a row.  The state is the assignment vector, the histogram
    and the state of the random source.  Step b refers to the operation
    [logDensity], a parameter here: the specification means
    [logDensity_spec], and the program is compared with the machine over
    the density it evaluates as well.  In step d the uniform draw [u]
    selects the table [t] whose interval of the cumulative distribution
    contains [u]. *)

Definition is_max (m : R) (l : list R) : Prop :=
  In m l /\ forall v, In v l -> v <= m.

Section Specification.

Variable G : Generator.
Variable self : GaussianLDA.

(** The operation [logDensity(x, t)] that step b refers to. *)
Variable logDensity : list R -> nat -> R.

Definition sampler_state : Type := (list Z * list Z * rng G)%type.

Inductive spec_transition (x : list R) (i : nat) : sampler_state -> sampler_state -> Prop :=
| spec_transition_intro
    (A H H1 : list Z) (g g' : rng G) (old : Z) (lp p : list R) (m u : R) (t : nat) :
    (* a. retract *)
    nth_error A i = Some old ->
    (0 <= old < Z.of_nat (length H))%Z ->
    H1 = update_nth (Z.to_nat old) (fun c => (c - 1)%Z) H ->
    (* b. the unnormalised log-posterior of every table *)
    Z.of_nat (length lp) = num_tables self ->
    (forall k : nat, (k < length lp)%nat ->
       0 < IZR (nth k H1 0%Z) + alpha self
       /\ nth k lp 0 = ln (IZR (nth k H1 0%Z) + alpha self) + logDensity x k) ->
    (* c. subtract the maximum, exponentiate, normalise *)
    is_max m lp ->
    p = map (fun v => exp (v - m) / np_sum (map (fun v' => exp (v' - m)) lp)) lp ->
    np_sum p = 1 ->
    (* d. sample from the categorical distribution *)
    random_sample G g = (u, g') ->
    (t < length p)%nat ->
    np_sum (firstn t p) <= u < np_sum (firstn (S t) p) ->
    (* e. commit *)
    spec_transition x i (A, H, g)
      (update_nth i (fun _ => Z.of_nat t) A,
       update_nth t (fun c => (c + 1)%Z) H1,
       g').

(** One sweep from position [i] to the end of the document. *)
Inductive spec_sweep (doc : list Z) : nat -> sampler_state -> sampler_state -> Prop :=
| spec_sweep_end (i : nat) (st : sampler_state) :
    i = length doc -> spec_sweep doc i st st
| spec_sweep_token (i : nat) (c : Z) (x : list R) (st st' st'' : sampler_state) :
    nth_error doc i = Some c ->
    getitem (vocab_embeddings self) c = Ok x ->
    spec_transition x i st st' ->
    spec_sweep doc (S i) st' st'' ->
    spec_sweep doc i st st''.

Inductive spec_iterations (doc : list Z) : nat -> sampler_state -> sampler_state -> Prop :=
| spec_iterations_O (st : sampler_state) : spec_iterations doc O st st
| spec_iterations_S (n : nat) (st st' st'' : sampler_state) :
    spec_sweep doc 0 st st' ->
    spec_iterations doc n st' st'' ->
    spec_iterations doc (S n) st st''.

End Specification.

(** What a recorded point shows: which of the two points it is, and the
    position of the token. *)
Definition point_visit (p : point) : bool * nat :=
  match p with
  | Retracted w _ _ => (true, w)
  | Committed w _ _ => (false, w)
  end.

(** The sum of the histogram at a recorded point of a document of [N] tokens:
    [N] once the token sits at its new table, [N - 1] while it is removed. *)
Definition point_sum_ok (N : nat) (p : point) : Prop :=
  match p with
  | Retracted _ _ H => sumZ H = (Z.of_nat N - 1)%Z
  | Committed _ _ H => sumZ H = Z.of_nat N
  end.

(** The points of one sweep over the positions [i, i + n). *)
Definition sweep_visits (i n : nat) : list (bool * nat) :=
  flat_map (fun j => [(true, j); (false, j)]) (seq i n).

Definition example_world : world zero_generator :=
  @mkWorld zero_generator example_model tt [].

(** The unnormalised log-posteriors of line 231 on a well-formed model, for
    the histogram [H1] after the retraction. *)
Definition log_posteriors_of (self : GaussianLDA) (x : list R) (H1 : list Z) : list R :=
  map2 Rplus (map ln (map (fun c => IZR c + alpha self) H1))
       (map (table_logprob self x) (seq 0 (length (table_counts self)))).

(** [m] leaves the model as it is, records only points that satisfy [Q], and
    returns, when it returns, a value that satisfies [post]. *)
Definition run_ok {G : Generator} {A : Type} (Q : point -> Prop) (m : M G A)
  (post : A -> Prop) : Prop :=
  forall s : world G,
    model (snd (m s)) = model s
    /\ (exists pts, trace (snd (m s)) = trace s ++ pts /\ Forall Q pts)
    /\ forall a, fst (m s) = Ok a -> post a.

(** A factor as the model stores it: no entry above the diagonal. *)
Definition lower_triangular (a : list (list R)) : Prop :=
  forall i j : nat, (i < j)%nat -> nth j (nth i a []) 0 = 0.

(** The example model with a second factor that has a zero on its diagonal. *)
Definition singular_model : GaussianLDA :=
  {| vocab := vocab example_model;
     alpha := alpha example_model;
     vocab_embeddings := vocab_embeddings example_model;
     embedding_size := embedding_size example_model;
     num_tables := num_tables example_model;
     table_counts := table_counts example_model;
     table_means := table_means example_model;
     log_determinants := log_determinants example_model;
     table_cholesky_ltriangular_mat := [[[1; 0]; [1; 1]]; [[1; 0]; [1; 0]]];
     prior := prior example_model;
     k0mu0mu0T := k0mu0mu0T example_model;
     scaleTdistrn := scaleTdistrn example_model;
     nu := nu example_model |}.

(** As [run_ok], for the runs that start on the model [m0]. *)
Definition run_on {G : Generator} {A : Type} (m0 : GaussianLDA) (Q : point -> Prop)
  (m : M G A) (post : A -> Prop) : Prop :=
  forall s : world G,
    model s = m0 ->
    model (snd (m s)) = m0
    /\ (exists pts, trace (snd (m s)) = trace s ++ pts /\ Forall Q pts)
    /\ forall a, fst (m s) = Ok a -> post a.

(** The local state at a recorded point, for [K] tables and [N] tokens: the
    histogram is the histogram of the assignments; after the retraction the
    token being resampled holds the sentinel and every other token a table,
    after the commit every token holds a table. *)
Definition point_state_ok (K N : nat) (p : point) : Prop :=
  match p with
  | Retracted w A H =>
      length A = N /\ H = histogram K A /\ nth_error A w = Some (-1)%Z
      /\ forall i a, i <> w -> nth_error A i = Some a -> (0 <= a < Z.of_nat K)%Z
  | Committed w A H =>
      length A = N /\ H = histogram K A /\ assignments_in K A
  end.

(** One table in dimension one, for the degenerate case. *)
Definition one_table_model : GaussianLDA :=
  let emb := [[0]; [1]] in
  let p := Wishart_of_embeddings emb 1 in
  {| vocab := example_vocab;
     alpha := 1 / 2;
     vocab_embeddings := emb;
     embedding_size := 1;
     num_tables := 1;
     table_counts := [1];
     table_means := [[0]];
     log_determinants := [0];
     table_cholesky_ltriangular_mat := [[[1]]];
     prior := p;
     k0mu0mu0T :=
       map (map (Rmult (Wishart.kappa p))) (outer (Wishart.mu p) (Wishart.mu p));
     scaleTdistrn := map (scale_of p 1) [1];
     nu := map (nu_of p 1) [1] |}.

Definition one_table_world : world zero_generator :=
  @mkWorld zero_generator one_table_model tt [].

Definition singular_world : world zero_generator :=
  @mkWorld zero_generator singular_model tt [].

(** The row of the embedding matrix of [V] words that a token id indexes: a
    negative id counts from the end. *)
Definition normalize_token (V : nat) (c : Z) : Z :=
  if (c <? 0)%Z then (c + Z.of_nat V)%Z else c.

(** ** [GaussianLDA.load_from_java], lines 88-164: the arrays

    A text file is given by its lines, and a line by the numbers that
    [[float(v) for v in line.split()]] reads from it; a line that [float]
    refuses is not represented.  The directory listing is given by the files
    whose name is a table number followed by [.txt], each with the number
    [int(table_filename[:-4])]; [output_checks] is off.  The warnings have
    no effect on the result.  The last lines of the function, which fill in
    the defaults of [alpha] and [kappa] and call the constructor, are not
    part of [load_from_java_arrays]. *)

(** The bound of a slice of a sequence of length [n]: a negative bound counts
    from the end, and every bound is clipped to [[0, n]]. *)
Definition py_slice_index (n : nat) (i : Z) : nat :=
  if (i <? 0)%Z then Z.to_nat (Z.max 0 (i + Z.of_nat n))
  else Z.to_nat (Z.min i (Z.of_nat n)).

(** [l[a:b]] *)
Definition py_slice {A : Type} (l : list A) (a b : Z) : list A :=
  let start := py_slice_index (length l) a in
  let stop := py_slice_index (length l) b in
  firstn (stop - start) (skipn start l).

(** [arr[i, :] = v] for a row of length [D]: [v] has length [D], or length
    one and is broadcast. *)
Definition assign_row (D : nat) (v : list R) : result (list R) :=
  if (length v =? D)%nat then Ok v
  else match v with
       | [a] => Ok (repeat a D)
       | _ => Raise ValueError
       end.

(** [np.array(rows, dtype=np.float64)]: the rows must have one length. *)
Definition np_array_rows (rows : list (list R)) : result (list (list R)) :=
  match rows with
  | [] => Ok []
  | r :: rows' =>
      if forallb (fun r' => (length r' =? length r)%nat) rows' then Ok rows
      else Raise ValueError
  end.

(** [arr[i, :, :] = v] for a block of [D] rows of length [D]: each dimension
    of [v] is [D], or one and is broadcast; the empty array has the shape
    [(0,)]. *)
Definition assign_matrix (D : nat) (v : list (list R)) : result (list (list R)) :=
  match v with
  | [] => if (D =? 0)%nat then Ok [] else Raise ValueError
  | r :: _ =>
      if ((length v =? D)%nat || (length v =? 1)%nat)
         && ((length r =? D)%nat || (length r =? 1)%nat)
      then Ok (map (fun row => if (length row =? D)%nat then row
                               else repeat (hd 0 row) D)
                   (if (length v =? D)%nat then v else repeat r D))
      else Raise ValueError
  end.

(** Lines 98-100: the lines of the embedding file after the first one, row
    after row from [i]. *)
Fixpoint fill_embeddings (D : nat) (vocab_embeddings : list (list R)) (i : nat)
  (lines : list (list R)) : result (list (list R)) :=
  match lines with
  | [] => Ok vocab_embeddings
  | line :: lines' =>
      match py_index (length vocab_embeddings) (Z.of_nat i) with
      | None => Raise IndexError
      | Some k =>
          row <- assign_row D line ;;
          fill_embeddings D (update_nth k (fun _ => row) vocab_embeddings) (S i) lines'
      end
  end.

(** Lines 119-149: one table file, with its table number. *)
Definition load_table_file (embedding_size : nat) (iteration : Z)
  (arrays : list (list R) * list (list (list R))) (file : Z * list (list R))
  : result (list (list R) * list (list (list R))) :=
  let (table_means, table_cholesky_ltriangular_mat) := arrays in
  let (table_num, lines) := file in
  let file_num_iterations :=
    (Z.of_nat (length lines) / Z.of_nat (embedding_size + 1))%Z in
  let num_iterations := file_num_iterations in
  let iteration_start_line :=
    if (iteration =? -1)%Z
    then ((num_iterations - 1) * Z.of_nat (embedding_size + 1))%Z
    else (iteration * Z.of_nat (embedding_size + 1))%Z in
  table_mean <- getitem lines iteration_start_line ;;
  if negb (length table_mean =? embedding_size)%nat then Raise ValueError
  else
    table_means <- np_setitem table_means table_num (fun _ => table_mean) ;;
    chol_mat <- np_array_rows
                  (py_slice lines (iteration_start_line + 1)
                            (iteration_start_line + Z.of_nat embedding_size + 1)) ;;
    match py_index (length table_cholesky_ltriangular_mat) table_num with
    | None => Raise (index_error table_num)
    | Some k =>
        block <- assign_matrix embedding_size chol_mat ;;
        Ok (table_means,
            update_nth k (fun _ => block) table_cholesky_ltriangular_mat)
    end.

(** Lines 118-149: the loop over the table files, in the order of the
    listing. *)
Fixpoint load_table_files (embedding_size : nat) (iteration : Z)
  (arrays : list (list R) * list (list (list R)))
  (files : list (Z * list (list R)))
  : result (list (list R) * list (list (list R))) :=
  match files with
  | [] => Ok arrays
  | file :: files' =>
      arrays' <- load_table_file embedding_size iteration arrays file ;;
      load_table_files embedding_size iteration arrays' files'
  end.

(** Lines 157-164: the counts, one per line of [topic_counts.txt]. *)
Definition load_topic_counts (num_tables : nat) (iteration : Z) (lines : list R)
  : list R :=
  if (iteration =? -1)%Z
  then py_slice lines (- Z.of_nat num_tables) (Z.of_nat (length lines))
  else py_slice lines (iteration * Z.of_nat num_tables)
                ((iteration + 1) * Z.of_nat num_tables).

(** The arguments that [load_from_java] passes to the constructor. *)
Record java_arrays : Type := mkJavaArrays {
  java_vocab_embeddings : list (list R);
  java_embedding_size : nat;
  java_num_tables : Z;
  java_table_counts : list R;
  java_table_means : list (list R);
  java_log_determinants : list R;
  java_table_cholesky_ltriangular_mat : list (list (list R))
}.

Definition load_from_java_arrays (vocab0 : list String.string)
  (embedding_lines : list (list R)) (table_files : list (Z * list (list R)))
  (topic_counts_lines : list R) (iteration : Z) : result java_arrays :=
  let embedding_size0 := length (hd [] embedding_lines) in
  vocab_embeddings0 <-
    fill_embeddings embedding_size0
      (repeat (repeat 0 embedding_size0) (length vocab0)) 0 (tl embedding_lines) ;;
  let num_tables0 := length table_files in
  arrays <-
    load_table_files embedding_size0 iteration
      (repeat (repeat 0 embedding_size0) num_tables0,
       repeat (repeat (repeat 0 embedding_size0) embedding_size0) num_tables0)
      table_files ;;
  log_determinants0 <- load_from_java_log_determinants (snd arrays) ;;
  let table_counts0 := load_topic_counts num_tables0 iteration topic_counts_lines in
  Ok {| java_vocab_embeddings := vocab_embeddings0;
        java_embedding_size := embedding_size0;
        java_num_tables := Z.of_nat num_tables0;
        java_table_counts := table_counts0;
        java_table_means := fst arrays;
        java_log_determinants := log_determinants0;
        java_table_cholesky_ltriangular_mat := snd arrays |}.

(** * Properties *)

(** ** Lists, indices and the error monad *)

Lemma py_index_of_nat (n k : nat) :
  (k < n)%nat -> py_index n (Z.of_nat k) = Some k.
Proof.
  intros Hk. unfold py_index.
  replace (0 <=? Z.of_nat k)%Z with true by (symmetry; apply Z.leb_le; lia).
  replace (Z.of_nat k <? Z.of_nat n)%Z with true by (symmetry; apply Z.ltb_lt; lia).
  simpl. now rewrite Nat2Z.id.
Qed.

Lemma py_index_lt (n : nat) (i : Z) (k : nat) :
  py_index n i = Some k -> (k < n)%nat.
Proof.
  unfold py_index.
  destruct ((0 <=? i) && (i <? Z.of_nat n))%Z eqn:E1.
  - apply andb_prop in E1 as [H1 H2].
    apply Z.leb_le in H1. apply Z.ltb_lt in H2.
    intros [= <-]. lia.
  - destruct ((- Z.of_nat n <=? i) && (i <? 0))%Z eqn:E2; [|discriminate].
    apply andb_prop in E2 as [H1 H2].
    apply Z.leb_le in H1. apply Z.ltb_lt in H2.
    intros [= <-]. lia.
Qed.

Lemma py_index_none (n : nat) (i : Z) :
  (i < - Z.of_nat n \/ Z.of_nat n <= i)%Z -> py_index n i = None.
Proof.
  intros H. unfold py_index.
  destruct ((0 <=? i) && (i <? Z.of_nat n))%Z eqn:E1.
  - apply andb_prop in E1 as [H1 H2].
    apply Z.leb_le in H1. apply Z.ltb_lt in H2. lia.
  - destruct ((- Z.of_nat n <=? i) && (i <? 0))%Z eqn:E2; [|reflexivity].
    apply andb_prop in E2 as [H1 H2].
    apply Z.leb_le in H1. apply Z.ltb_lt in H2. lia.
Qed.

Lemma py_index_some (n : nat) (i : Z) :
  (- Z.of_nat n <= i < Z.of_nat n)%Z -> exists k, py_index n i = Some k.
Proof.
  intros H. unfold py_index.
  destruct ((0 <=? i) && (i <? Z.of_nat n))%Z eqn:E1; [eauto|].
  destruct ((- Z.of_nat n <=? i) && (i <? 0))%Z eqn:E2; [eauto|].
  apply andb_false_iff in E1. apply andb_false_iff in E2.
  rewrite Z.leb_gt, Z.ltb_ge in E1. rewrite Z.leb_gt, Z.ltb_ge in E2. lia.
Qed.

Lemma getitem_of_nat {A : Type} (l : list A) (k : nat) (d : A) :
  (k < length l)%nat -> getitem l (Z.of_nat k) = Ok (nth k l d).
Proof.
  intros Hk. unfold getitem. rewrite py_index_of_nat by assumption.
  now rewrite (nth_error_nth' l d Hk).
Qed.

Lemma getitem_raises {A : Type} (l : list A) (i : Z) :
  (i < - Z.of_nat (length l) \/ Z.of_nat (length l) <= i)%Z ->
  getitem l i = Raise IndexError.
Proof. intros H. unfold getitem. now rewrite py_index_none. Qed.

Lemma getitem_in_range {A : Type} (l : list A) (i : Z) :
  (- Z.of_nat (length l) <= i < Z.of_nat (length l))%Z ->
  exists a, getitem l i = Ok a /\ In a l.
Proof.
  intros H. unfold getitem.
  destruct (py_index_some _ _ H) as [k Hk]. rewrite Hk.
  apply py_index_lt in Hk.
  destruct (nth_error l k) as [a|] eqn:E.
  - exists a. split; [reflexivity|]. eapply nth_error_In; eauto.
  - apply nth_error_None in E. lia.
Qed.

(** Inside the bounds an array is indexed like a list. *)
Lemma np_getitem_in_bounds {A : Type} (l : list A) (i : Z) :
  (- Z.of_nat (length l) <= i < Z.of_nat (length l))%Z ->
  np_getitem l i = getitem l i.
Proof.
  intros H. unfold np_getitem, getitem.
  destruct (py_index_some _ _ H) as [k Hk]. now rewrite Hk.
Qed.

Lemma np_getitem_of_nat {A : Type} (l : list A) (k : nat) (d : A) :
  (k < length l)%nat -> np_getitem l (Z.of_nat k) = Ok (nth k l d).
Proof.
  intros Hk. rewrite np_getitem_in_bounds by lia. now apply getitem_of_nat.
Qed.


Lemma np_getitem_ok_iff {A : Type} (l : list A) (i : Z) (a : A) :
  np_getitem l i = Ok a <-> getitem l i = Ok a.
Proof.
  unfold np_getitem, getitem.
  destruct (py_index (length l) i) as [k|]; [reflexivity|].
  split; discriminate.
Qed.

Lemma np_setitem_in_bounds {A : Type} (l : list A) (i : Z) (f : A -> A) :
  (- Z.of_nat (length l) <= i < Z.of_nat (length l))%Z ->
  np_setitem l i f = setitem l i f.
Proof.
  intros H. unfold np_setitem, setitem.
  destruct (py_index_some _ _ H) as [k Hk]. now rewrite Hk.
Qed.

Lemma update_nth_length {A : Type} (k : nat) (f : A -> A) (l : list A) :
  length (update_nth k f l) = length l.
Proof.
  revert k. induction l as [|a l IH]; intros [|k]; simpl; auto.
Qed.

Lemma map2_length {A B C : Type} (f : A -> B -> C) (a : list A) (b : list B) :
  length a = length b -> length (map2 f a b) = length a.
Proof.
  revert b. induction a as [|x a IH]; intros [|y b]; simpl; try discriminate; auto.
Qed.

Lemma map2_nth {A B C : Type} (f : A -> B -> C) (a : list A) (b : list B)
  (k : nat) (da : A) (db : B) (dc : C) :
  length a = length b -> (k < length a)%nat ->
  nth k (map2 f a b) dc = f (nth k a da) (nth k b db).
Proof.
  revert b k. induction a as [|x a IH]; intros [|y b] k; simpl; try discriminate.
  - intros _ H. inversion H.
  - intros [= Hl] Hk. destruct k as [|k]; [reflexivity|]. apply IH; [assumption|lia].
Qed.

Lemma map2_map_same {A B C D : Type} (f : B -> C -> D) (g : A -> B) (h : A -> C)
  (l : list A) :
  map2 f (map g l) (map h l) = map (fun a => f (g a) (h a)) l.
Proof. induction l as [|a l IH]; simpl; [reflexivity|]. now rewrite IH. Qed.

Lemma broadcast2_same_length {A B C : Type} (f : A -> B -> C) (a : list A) (b : list B) :
  length a = length b -> broadcast2 f a b = Ok (map2 f a b).
Proof. intros H. unfold broadcast2. now rewrite H, Nat.eqb_refl. Qed.

Lemma mapM_ok {A B : Type} (f : A -> result B) (g : A -> B) (l : list A) :
  (forall a, In a l -> f a = Ok (g a)) -> mapM f l = Ok (map g l).
Proof.
  induction l as [|a l IH]; intros H; simpl; [reflexivity|].
  rewrite (H a) by (now left). simpl.
  rewrite IH by (intros; apply H; now right). reflexivity.
Qed.

Lemma map_nth_seq {A : Type} (l : list A) (d : A) :
  map (fun k => nth k l d) (seq 0 (length l)) = l.
Proof.
  apply nth_ext with (d := d) (d' := d).
  - now rewrite length_map, length_seq.
  - intros n Hn. rewrite length_map, length_seq in Hn.
    rewrite (nth_indep _ d (nth 0 l d)) by (now rewrite length_map, length_seq).
    rewrite (map_nth (fun k => nth k l d) (seq 0 (length l)) 0%nat n).
    now rewrite seq_nth.
Qed.

(** ** The triangular solver *)

Lemma diagonal_scale_from (s : R) (a : list (list R)) (i : nat) :
  map (fun ir => nth (fst ir) (snd ir) 0)
      (combine (seq i (length (map (map (Rmult s)) a))) (map (map (Rmult s)) a))
  = map (Rmult s)
        (map (fun ir => nth (fst ir) (snd ir) 0) (combine (seq i (length a)) a)).
Proof.
  revert i. induction a as [|row a IH]; intros i; simpl; [reflexivity|].
  f_equal.
  - replace 0 with (s * 0) at 1 by ring. apply map_nth.
  - apply IH.
Qed.

Lemma diagonal_scale (s : R) (a : list (list R)) :
  diagonal (map (map (Rmult s)) a) = map (Rmult s) (diagonal a).
Proof. apply diagonal_scale_from. Qed.

Lemma is_square_scale (s : R) (a : list (list R)) :
  is_square (map (map (Rmult s)) a) = is_square a.
Proof.
  unfold is_square. rewrite length_map.
  generalize (length a) as n. intros n.
  induction a as [|row a IH]; simpl; [reflexivity|].
  now rewrite length_map, IH.
Qed.

Lemma is_square_intro (D : nat) (a : list (list R)) :
  length a = D ->
  forallb (fun row => (length row =? D)%nat) a = true ->
  is_square a = true.
Proof. intros <- H. exact H. Qed.

Lemma existsb_nonzero (l : list R) :
  Forall (fun d => d <> 0) l -> existsb (fun d => Req_bool d 0) l = false.
Proof.
  induction 1 as [|d l Hd _ IH]; simpl; [reflexivity|].
  unfold Req_bool at 1. destruct (Req_dec_T d 0); [contradiction|]. exact IH.
Qed.

Lemma solve_triangular_ok (a : list (list R)) (b : list R) (lower : bool) :
  is_square a = true -> length a = length b ->
  Forall (fun d => d <> 0) (diagonal a) ->
  solve_triangular a b lower
  = Ok (if lower then forward_substitution a b else back_substitution a b).
Proof.
  intros Hsq Hlen Hd. unfold solve_triangular.
  rewrite Hsq, Hlen, Nat.eqb_refl, existsb_nonzero by assumption. reflexivity.
Qed.

Lemma solve_triangular_singular (a : list (list R)) (b : list R) (lower : bool) :
  is_square a = true -> length a = length b ->
  In 0 (diagonal a) ->
  solve_triangular a b lower = Raise LinAlgError.
Proof.
  intros Hsq Hlen Hd. unfold solve_triangular.
  rewrite Hsq, Hlen, Nat.eqb_refl. simpl.
  replace (existsb (fun d => Req_bool d 0) (diagonal a)) with true; [reflexivity|].
  symmetry. apply existsb_exists. exists 0. split; [assumption|].
  unfold Req_bool. destruct (Req_dec_T 0 0); congruence.
Qed.

(** ** Well-formed models *)

Lemma forallb_length_Forall {A : Type} (D : nat) (l : list (list A)) :
  forallb (fun m => (length m =? D)%nat) l = true ->
  Forall (fun m => length m = D) l.
Proof.
  intros H. apply Forall_forall. intros m Hm.
  rewrite forallb_forall in H. apply Nat.eqb_eq. now apply H.
Qed.

Lemma well_shaped_facts (self : GaussianLDA) :
  well_shaped self = true ->
  num_tables self = Z.of_nat (length (table_counts self))
  /\ length (table_means self) = length (table_counts self)
  /\ length (log_determinants self) = length (table_counts self)
  /\ length (table_cholesky_ltriangular_mat self) = length (table_counts self)
  /\ Forall (fun m => length m = embedding_size self) (table_means self)
  /\ Forall (fun L => length L = embedding_size self /\ is_square L = true)
            (table_cholesky_ltriangular_mat self)
  /\ Forall (fun e => length e = embedding_size self) (vocab_embeddings self).
Proof.
  unfold well_shaped, shapes_consistent. intros H.
  repeat (apply andb_prop in H; destruct H as [H ?]).
  repeat match goal with
         | E : (_ =? _)%Z = true |- _ => apply Z.eqb_eq in E
         end.
  repeat split; try lia.
  - now apply forallb_length_Forall.
  - apply Forall_forall. intros L HL.
    match goal with
    | E : forallb _ (table_cholesky_ltriangular_mat self) = true |- _ =>
        rewrite forallb_forall in E; specialize (E L HL);
        apply andb_prop in E; destruct E as [E1 E2]
    end.
    apply Nat.eqb_eq in E1. split; [assumption|].
    now apply is_square_intro with (D := embedding_size self).
  - now apply forallb_length_Forall.
Qed.

Lemma proper_count (p : Wishart.t) (D : nat) (c : R) :
  0 < Wishart.kappa p -> INR D - 1 < Wishart.nu p -> 0 <= c ->
  0 < scale_of p D c /\ 0 < nu_of p D c.
Proof.
  intros Hk Hn Hc. unfold scale_of, nu_of. split; [|lra].
  apply sqrt_lt_R0. apply Rdiv_lt_0_compat; [lra|].
  apply Rmult_lt_0_compat; lra.
Qed.

Lemma proper_nth (self : GaussianLDA) (k : nat) :
  proper self ->
  let c := nth k (table_counts self) 0 in
  0 < scale_of (prior self) (embedding_size self) c
  /\ 0 < nu_of (prior self) (embedding_size self) c.
Proof.
  intros (Hk & Hn & Hc). simpl.
  apply proper_count; try assumption.
  destruct (Nat.lt_ge_cases k (length (table_counts self))) as [Hlt|Hge].
  - rewrite Forall_forall in Hc. apply Hc. now apply nth_In.
  - rewrite nth_overflow by assumption. lra.
Qed.

Lemma Forall_nth_default {A : Type} (P : A -> Prop) (l : list A) (k : nat) (d : A) :
  Forall P l -> (k < length l)%nat -> P (nth k l d).
Proof. intros H Hk. rewrite Forall_forall in H. apply H. now apply nth_In. Qed.

(** The triangular solve of table [k] is defined: the scaled factor is square,
    of the dimension of the centered vector, without a zero on its
    diagonal. *)
Lemma table_solve_ok (self : GaussianLDA) (x : list R) (k : nat) :
  well_shaped self = true -> proper self -> nonsingular self ->
  length x = embedding_size self ->
  (k < length (table_counts self))%nat ->
  let scale :=
    scale_of (prior self) (embedding_size self) (nth k (table_counts self) 0) in
  let a := map (map (Rmult scale)) (nth k (table_cholesky_ltriangular_mat self) []) in
  let b := map2 Rminus x (nth k (table_means self) []) in
  solve_triangular a b false = Ok (back_substitution a b).
Proof.
  intros Hws Hp Hns Hx Hk scale a b.
  destruct (well_shaped_facts self Hws) as (HK & Hm & Hl & Hc & Fm & Fc & Fe).
  assert (HL : length (nth k (table_cholesky_ltriangular_mat self) [])
               = embedding_size self
               /\ is_square (nth k (table_cholesky_ltriangular_mat self) []) = true).
  { apply (Forall_nth_default _ _ k [] Fc). lia. }
  assert (Hmu : length (nth k (table_means self) []) = embedding_size self).
  { apply (Forall_nth_default _ _ k [] Fm). lia. }
  apply (solve_triangular_ok a b false).
  - unfold a. rewrite is_square_scale. apply HL.
  - unfold a, b. rewrite length_map, map2_length by lia. lia.
  - unfold a. rewrite diagonal_scale. apply Forall_forall.
    intros d Hd. apply in_map_iff in Hd as (d0 & <- & Hd0).
    assert (Hnz : d0 <> 0).
    { assert (F := Forall_nth_default _ _ k [] Hns). simpl in F.
      rewrite Forall_forall in F. apply F; [lia|assumption]. }
    destruct (proper_nth self k Hp) as [Hs _]. fold scale in Hs.
    apply Rmult_integral_contrapositive_currified; lra.
Qed.

(** ** The two evaluators on a well-formed model *)

Lemma tdensity_vector_ok (self : GaussianLDA) (x : list R) (k : nat) :
  well_shaped self = true -> proper self -> nonsingular self ->
  length x = embedding_size self ->
  (k < length (table_counts self))%nat ->
  tdensity_vector self x (Z.of_nat k) = Ok (table_logprob self x k).
Proof.
  intros Hws Hp Hns Hx Hk.
  destruct (well_shaped_facts self Hws) as (HK & Hm & Hl & Hc & Fm & Fc & Fe).
  unfold tdensity_vector.
  rewrite (np_getitem_of_nat (table_counts self) k 0) by assumption. simpl.
  rewrite (np_getitem_of_nat (table_means self) k []) by lia. simpl.
  rewrite broadcast2_same_length.
  2:{ rewrite (Forall_nth_default _ _ k [] Fm) by lia. assumption. }
  simpl.
  rewrite (np_getitem_of_nat (table_cholesky_ltriangular_mat self) k []) by lia. simpl.
  assert (Hsolve := table_solve_ok self x k Hws Hp Hns Hx Hk). simpl in Hsolve.
  unfold scale_of in Hsolve. rewrite Hsolve. simpl.
  rewrite (np_getitem_of_nat (log_determinants self) k 0) by lia. simpl.
  reflexivity.
Qed.

Lemma map_as_seq {A B : Type} (f : A -> B) (l : list A) (d : A) :
  map f l = map (fun k => f (nth k l d)) (seq 0 (length l)).
Proof.
  rewrite <- (map_map (fun k => nth k l d) f). now rewrite map_nth_seq.
Qed.

Lemma broadcast2_map_same {A B C D : Type} (f : B -> C -> D) (g : A -> B) (h : A -> C)
  (l : list A) :
  broadcast2 f (map g l) (map h l) = Ok (map (fun a => f (g a) (h a)) l).
Proof.
  rewrite broadcast2_same_length by (now rewrite !length_map).
  now rewrite map2_map_same.
Qed.

Lemma map2_as_seq {A B C : Type} (f : A -> B -> C) (a : list A) (b : list B)
  (da : A) (db : B) :
  length a = length b ->
  map2 f a b = map (fun k => f (nth k a da) (nth k b db)) (seq 0 (length a)).
Proof.
  intros H.
  rewrite <- (map_id a) at 1. rewrite <- (map_id b) at 1.
  rewrite (map_as_seq (fun x => x) a da), (map_as_seq (fun x => x) b db).
  rewrite <- H. now rewrite map2_map_same.
Qed.

Lemma tables_ok (self : GaussianLDA) (x : list R) :
  valid self -> length x = embedding_size self ->
  log_multivariate_tdensity_tables self x
  = Ok (map (table_logprob self x) (seq 0 (length (table_counts self)))).
Proof.
  intros (Hws & [Hs Hn] & Hp & Hns) Hx.
  destruct (well_shaped_facts self Hws) as (HK & Hm & Hl & Hc & Fm & Fc & Fe).
  unfold log_multivariate_tdensity_tables.
  set (K := length (table_counts self)) in *.
  rewrite (mapM_ok _ (fun mu => map2 Rminus x mu)).
  2:{ intros mu Hmu. apply broadcast2_same_length.
      rewrite Forall_forall in Fm. rewrite (Fm mu Hmu). assumption. }
  simpl.
  rewrite broadcast2_same_length by (rewrite Hs, length_map; fold K; lia).
  simpl.
  replace (num_tables self <? 0)%Z with false by (symmetry; apply Z.ltb_ge; lia).
  rewrite (mapM_ok _ (fun table =>
    let k := Z.to_nat table in
    np_sum (map (fun s => s ^ 2)
      (back_substitution
         (map (map (Rmult (scale_of (prior self) (embedding_size self)
                                    (nth k (table_counts self) 0))))
              (nth k (table_cholesky_ltriangular_mat self) []))
         (map2 Rminus x (nth k (table_means self) [])))))).
  2:{ intros table Ht. unfold range in Ht. rewrite HK, Nat2Z.id in Ht.
      apply in_map_iff in Ht as (k & <- & Hk). apply in_seq in Hk.
      rewrite Nat2Z.id.
      rewrite (getitem_of_nat _ k []).
      2:{ rewrite map2_length; rewrite Hs, length_map; fold K; lia. }
      simpl.
      rewrite (getitem_of_nat _ k []) by (rewrite length_map; lia).
      simpl.
      rewrite (map2_nth _ _ _ k 0 [] []).
      2:{ rewrite Hs, length_map; fold K; lia. }
      2:{ rewrite Hs, length_map; fold K; lia. }
      rewrite Hs.
      rewrite (nth_indep _ 0 (scale_of (prior self) (embedding_size self) 0))
        by (rewrite length_map; fold K; lia).
      rewrite map_nth.
      rewrite (nth_indep _ [] (map2 Rminus x [])) by (rewrite length_map; lia).
      rewrite (map_nth (fun mu => map2 Rminus x mu)).
      assert (Hsolve := table_solve_ok self x k Hws Hp Hns Hx). simpl in Hsolve.
      rewrite Hsolve by (fold K; lia). reflexivity. }
  simpl.
  unfold range. rewrite HK, Nat2Z.id, map_map.
  rewrite Hn.
  rewrite (map_as_seq (nu_of (prior self) (embedding_size self)) (table_counts self) 0).
  fold K.
  rewrite <- (map_id (log_determinants self)).
  rewrite (map_as_seq (fun r => r) (log_determinants self) 0), Hl.
  rewrite !map_map.
  repeat (rewrite ?map_map, broadcast2_map_same; simpl).
  f_equal. apply map_ext. intros k.
  unfold table_logprob, student_t. rewrite Nat2Z.id. reflexivity.
Qed.

(** ** The example model *)

Lemma example_model_constructed :
  __init__ Wishart_of_embeddings example_embeddings
           example_vocab 2 (1 / 2) (1 / 3)
           example_counts example_means example_log_determinants example_chol
  = Ok example_model.
Proof. reflexivity. Qed.

Lemma example_model_valid : valid example_model.
Proof.
  split; [reflexivity|]. split; [split; reflexivity|]. split.
  - unfold proper; simpl. repeat split; try lra.
    repeat first [apply Forall_nil | apply Forall_cons]; lra.
  - unfold nonsingular; simpl. unfold diagonal; simpl.
    repeat first [apply Forall_nil | apply Forall_cons]; simpl; lra.
Qed.

Lemma zero_generator_ok : generator_ok zero_generator.
Proof.
  split; [|split].
  - intros g high n Hh. exists (repeat 0%Z n), g. simpl.
    replace (high <=? 0)%Z with false by (symmetry; apply Z.leb_gt; lia).
    reflexivity.
  - intros g high n l g'. simpl.
    destruct (high <=? 0)%Z eqn:E; [discriminate|].
    apply Z.leb_gt in E. intros [= <- <-].
    split; [apply repeat_length|].
    apply Forall_forall. intros a Ha. apply repeat_spec in Ha. lia.
  - intros g. simpl. lra.
Qed.

(** ** The single-table evaluator on vectors and on batches *)

Lemma tdensity_on_vector (self : GaussianLDA) (x : list R) (t : Z) :
  log_multivariate_tdensity self (Vec x) t
  = (logprob <- tdensity_vector self x t ;; Ok (Scalar logprob)).
Proof. reflexivity. Qed.

Lemma tdensity_on_batch (self : GaussianLDA) (X : list (list R)) (t : Z) :
  log_multivariate_tdensity self (Stack (map Vec X)) t
  = (logprobs <- mapM (fun x => tdensity_vector self x t) X ;; Ok (Array logprobs)).
Proof.
  simpl. f_equal.
  induction X as [|x X IH]; simpl; [reflexivity|].
  destruct (tdensity_vector self x t) as [v|e]; simpl; [|reflexivity].
  rewrite IH. reflexivity.
Qed.

Lemma table_index (self : GaussianLDA) (t : Z) :
  well_shaped self = true -> (0 <= t < num_tables self)%Z ->
  t = Z.of_nat (Z.to_nat t) /\ (Z.to_nat t < length (table_counts self))%nat.
Proof.
  intros Hws Ht.
  destruct (well_shaped_facts self Hws) as (HK & _). lia.
Qed.

(** C3. On a well-formed model, for every vector [x] of length [D] and every
    table [t] of [[0, K)], [log_multivariate_tdensity_tables(x)] returns an
    array of length [K] whose entry [t] is the value that
    [log_multivariate_tdensity(x, t)] returns: the two are equal, hence
    within the tolerance of 1e-9. *)
Theorem tables_agree_with_single_table (self : GaussianLDA) (x : list R) (t : Z) :
  valid self -> length x = embedding_size self ->
  (0 <= t < num_tables self)%Z ->
  exists (lls : list R) (all_t single : R),
    log_multivariate_tdensity_tables self x = Ok lls
    /\ Z.of_nat (length lls) = num_tables self
    /\ getitem lls t = Ok all_t
    /\ log_multivariate_tdensity self (Vec x) t = Ok (Scalar single)
    /\ all_t = single
    /\ Rabs (all_t - single) <= 1 / 10 ^ 9.
Proof.
  intros Hv Hx Ht.
  assert (Htab := tables_ok self x Hv Hx).
  destruct Hv as (Hws & Hcons & Hp & Hns).
  destruct (table_index self t Hws Ht) as [Et Hk].
  destruct (well_shaped_facts self Hws) as (HK & _).
  set (k := Z.to_nat t) in *.
  exists (map (table_logprob self x) (seq 0 (length (table_counts self)))),
         (table_logprob self x k), (table_logprob self x k).
  split; [exact Htab|].
  split; [rewrite length_map, length_seq; lia|].
  split.
  - rewrite Et.
    rewrite (getitem_of_nat _ k 0) by (rewrite length_map, length_seq; exact Hk).
    rewrite (nth_indep _ 0 (table_logprob self x 0))
      by (rewrite length_map, length_seq; exact Hk).
    rewrite map_nth, seq_nth by exact Hk. reflexivity.
  - split.
    + rewrite tdensity_on_vector, Et, tdensity_vector_ok by assumption. reflexivity.
    + split; [reflexivity|].
      unfold Rminus. rewrite Rplus_opp_r, Rabs_R0.
      apply Rlt_le, Rdiv_lt_0_compat; [lra|]. apply pow_lt. lra.
Qed.

Lemma tables_agree_with_single_table_witness :
  exists (lls : list R) (all_t single : R),
    log_multivariate_tdensity_tables example_model [2; 2] = Ok lls
    /\ Z.of_nat (length lls) = num_tables example_model
    /\ getitem lls 1%Z = Ok all_t
    /\ log_multivariate_tdensity example_model (Vec [2; 2]) 1%Z = Ok (Scalar single)
    /\ all_t = single
    /\ Rabs (all_t - single) <= 1 / 10 ^ 9.
Proof.
  apply (tables_agree_with_single_table example_model [2; 2] 1%Z).
  - exact example_model_valid.
  - reflexivity.
  - simpl. lia.
Defined.

(** C10. On a well-formed model, for every batch [X] of rows of length [D]
    and every table [t] of [[0, K)], [log_multivariate_tdensity(X, t)]
    returns an array with one entry per row, and entry [i] is the value
    that [log_multivariate_tdensity(X[i], t)] returns. *)
Theorem tdensity_batch_is_rowwise (self : GaussianLDA) (X : list (list R)) (t : Z) :
  valid self -> Forall (fun x => length x = embedding_size self) X ->
  (0 <= t < num_tables self)%Z ->
  exists logprobs : list R,
    log_multivariate_tdensity self (Stack (map Vec X)) t = Ok (Array logprobs)
    /\ length logprobs = length X
    /\ forall i : nat, (i < length X)%nat ->
         log_multivariate_tdensity self (Vec (nth i X [])) t
         = Ok (Scalar (nth i logprobs 0)).
Proof.
  intros (Hws & Hcons & Hp & Hns) HX Ht.
  destruct (table_index self t Hws Ht) as [Et Hk].
  set (k := Z.to_nat t) in *.
  exists (map (fun x => table_logprob self x k) X).
  rewrite tdensity_on_batch.
  rewrite (mapM_ok _ (fun x => table_logprob self x k)).
  2:{ intros x Hin. rewrite Et. apply tdensity_vector_ok; try assumption.
      rewrite Forall_forall in HX. now apply HX. }
  split; [reflexivity|]. split; [apply length_map|].
  intros i Hi. rewrite tdensity_on_vector, Et.
  rewrite tdensity_vector_ok; try assumption.
  - simpl. rewrite (nth_indep _ 0 (table_logprob self [] k)) by (now rewrite length_map).
    now rewrite (map_nth (fun x => table_logprob self x k)).
  - apply (Forall_nth_default _ _ i [] HX Hi).
Qed.

Lemma tdensity_batch_is_rowwise_witness :
  exists logprobs : list R,
    log_multivariate_tdensity example_model (Stack (map Vec [[2; 2]; [0; 1]])) 0%Z
    = Ok (Array logprobs)
    /\ length logprobs = 2%nat
    /\ forall i : nat, (i < 2)%nat ->
         log_multivariate_tdensity example_model (Vec (nth i [[2; 2]; [0; 1]] [])) 0%Z
         = Ok (Scalar (nth i logprobs 0)).
Proof.
  apply (tdensity_batch_is_rowwise example_model [[2; 2]; [0; 1]] 0%Z).
  - exact example_model_valid.
  - repeat first [apply Forall_nil | apply Forall_cons]; reflexivity.
  - simpl. lia.
Defined.

(** ** The Mahalanobis term: which triangle is solved *)

Lemma example_scale :
  scale_of (Wishart_of_embeddings example_embeddings (1 / 3)) 2 0 = 2.
Proof.
  unfold scale_of. simpl.
  replace ((1 / 3 + 0 + 1) / ((1 / 3 + 0) * (1 + 1 + 0 - (1 + 1) + 1))) with (2 * 2)
    by (field; lra).
  apply sqrt_square. lra.
Qed.

Lemma student_t_val_injective (D : nat) (nu log_det v1 v2 : R) :
  0 < nu -> 0 <= v1 -> 0 <= v2 ->
  student_t D nu log_det v1 = student_t D nu log_det v2 -> v1 = v2.
Proof.
  intros Hnu H1 H2 E. unfold student_t in E.
  assert (HD : 0 <= INR D) by apply pos_INR.
  assert (Hc : (nu + INR D) / 2 <> 0) by lra.
  assert (El : ln (1 + v1 / nu) = ln (1 + v2 / nu)).
  { apply Rmult_eq_reg_l with (r := (nu + INR D) / 2); [lra | exact Hc]. }
  assert (P1 : 0 <= v1 / nu) by (apply Rle_mult_inv_pos; assumption).
  assert (P2 : 0 <= v2 / nu) by (apply Rle_mult_inv_pos; assumption).
  apply ln_inv in El; try lra.
  assert (E2 : v1 / nu = v2 / nu) by lra.
  unfold Rdiv in E2. apply Rmult_eq_reg_r in E2; [assumption|].
  apply Rinv_neq_0_compat. lra.
Qed.

(** On a well-formed model the specified density is the same Student-t
    expression as the one the code evaluates ([table_logprob]), with the
    Mahalanobis term of the forward substitution in place of that of the back
    substitution. *)
Lemma logDensity_spec_student_t (self : GaussianLDA) (x : list R) (t : nat) :
  proper self ->
  let count := nth t (table_counts self) 0 in
  let scale := scale_of (prior self) (embedding_size self) count in
  let z :=
    forward_substitution (map (map (Rmult scale))
                              (nth t (table_cholesky_ltriangular_mat self) []))
                         (map2 Rminus x (nth t (table_means self) [])) in
  logDensity_spec self x t
  = student_t (embedding_size self) (nu_of (prior self) (embedding_size self) count)
              (nth t (log_determinants self) 0)
              (np_sum (map (fun s => s ^ 2) z)).
Proof.
  intros Hp count scale z.
  destruct (proper_nth self t Hp) as [_ Hnu]. fold count in Hnu.
  unfold logDensity_spec, student_t. fold count.
  fold (nu_of (prior self) (embedding_size self) count).
  fold (scale_of (prior self) (embedding_size self) count). fold scale. fold z.
  rewrite ln_mult by (try apply PI_RGT_0; exact Hnu). reflexivity.
Qed.

(** C1, at a concrete input.  For the example model (dimension 2, factor
    [[1, 0], [1, 1]], scale 2, degrees of freedom 1, mean 0) and [x = (2, 2)],
    [log_multivariate_tdensity(x, 0)] returns the Student-t value for the
    Mahalanobis term 2, the squared norm of the solution of the
    upper-triangular system read from the scaled factor, where the
    specification, which solves the lower-triangular system by forward
    substitution, has the Mahalanobis term 1; the two values differ. *)
Theorem log_density_solves_upper_triangle :
  log_multivariate_tdensity example_model (Vec [2; 2]) 0%Z
  = Ok (Scalar (student_t 2 1 0 2))
  /\ logDensity_spec example_model [2; 2] 0 = student_t 2 1 0 1
  /\ student_t 2 1 0 2 <> student_t 2 1 0 1.
Proof.
  split; [|split].
  - rewrite tdensity_on_vector.
    change 0%Z with (Z.of_nat 0).
    rewrite tdensity_vector_ok;
      [| reflexivity | apply example_model_valid | apply example_model_valid
       | reflexivity | simpl; lia].
    simpl. do 2 f_equal.
    unfold table_logprob. cbn [example_model table_counts prior embedding_size
      table_cholesky_ltriangular_mat table_means log_determinants example_counts
      example_chol example_means example_log_determinants nth].
    rewrite example_scale.
    f_equal.
    + unfold nu_of. simpl. lra.
    + repeat (unfold np_sum, dot; simpl). field.
  - rewrite logDensity_spec_student_t by apply example_model_valid.
    cbn [example_model table_counts prior embedding_size
      table_cholesky_ltriangular_mat table_means log_determinants example_counts
      example_chol example_means example_log_determinants nth].
    rewrite example_scale.
    f_equal.
    + unfold nu_of. simpl. lra.
    + unfold forward_substitution. repeat (unfold np_sum, dot; simpl). field.
  - intros E. apply student_t_val_injective in E; lra.
Qed.

(** ** The log-determinants of [load_from_java] *)

Lemma load_from_java_log_determinants_ok (chols : list (list (list R))) :
  Forall (fun L => is_square L = true) chols ->
  load_from_java_log_determinants chols
  = Ok (map (fun L => 2 * ln (Rabs (det (length L) L))) chols).
Proof.
  intros H. unfold load_from_java_log_determinants.
  apply mapM_ok. intros L HL. rewrite Forall_forall in H.
  unfold slogdet. rewrite (H L HL). reflexivity.
Qed.

(** C6, at a concrete input.  For the single one-dimensional factor [[2]],
    whose log-determinant is [ln 2], [load_from_java] stores [2 ln 2], the
    log-determinant of the covariance, and not the half of it. *)
Theorem load_from_java_stores_full_log_determinant :
  load_from_java_log_determinants [[[2]]] = Ok [2 * ln 2]
  /\ ln (Rabs (det 1 [[2]])) = ln 2
  /\ 2 * ln 2 <> ln 2.
Proof.
  assert (Hd : det 1 [[2]] = 2) by (unfold det, np_sum; simpl; lra).
  split; [|split].
  - rewrite load_from_java_log_determinants_ok
      by (repeat first [apply Forall_nil | apply Forall_cons]; reflexivity).
    unfold map, length. rewrite Hd, Rabs_right by lra. reflexivity.
  - rewrite Hd, Rabs_right by lra. reflexivity.
  - assert (0 < ln 2) by (rewrite <- ln_1; apply ln_increasing; lra). lra.
Qed.

(** ** The constructor *)

Lemma init_constructed (W : list (list R) -> R -> Wishart.t)
  (emb : list (list R)) (voc : list String.string) (K : Z) (a kap : R)
  (counts : list R) (means : list (list R)) (log_dets : list R)
  (chols : list (list (list R))) (self : GaussianLDA) :
  __init__ W emb voc K a kap counts means log_dets chols = Ok self ->
  constructed self.
Proof.
  intros [= <-]. unfold constructed; simpl. split; [|reflexivity].
  now rewrite map2_map_same.
Qed.

(** C8, against the claim.  With [K = 2] and [D = 2], one count, one mean of
    length one, three log-determinants and no factor at all, the shapes are
    not consistent and the constructor returns a model. *)
Lemma init_accepts_inconsistent_shapes :
  shapes_consistent 2 (shape1 example_embeddings) [0] [[1]] [0; 0; 0] [] = false
  /\ exists self : GaussianLDA,
       __init__ Wishart_of_embeddings example_embeddings [] 2 (1 / 2) (1 / 3)
                [0] [[1]] [0; 0; 0] []
       = Ok self.
Proof. split; [reflexivity|]. eexists. reflexivity. Qed.

(** C8, amended.  The constructor validates no shape: for every input,
    consistent or not, it returns a model that holds the counts, means,
    factors and log-determinants as given, takes [D] from the embeddings,
    and caches the scale and the degrees of freedom computed elementwise from
    the counts alone. *)
Theorem init_never_fails (W : list (list R) -> R -> Wishart.t)
  (emb : list (list R)) (voc : list String.string) (K : Z) (a kap : R)
  (counts : list R) (means : list (list R)) (log_dets : list R)
  (chols : list (list (list R))) :
  exists self : GaussianLDA,
    __init__ W emb voc K a kap counts means log_dets chols = Ok self
    /\ num_tables self = K
    /\ embedding_size self = shape1 emb
    /\ table_counts self = counts
    /\ table_means self = means
    /\ log_determinants self = log_dets
    /\ table_cholesky_ltriangular_mat self = chols
    /\ prior self = W emb kap
    /\ scaleTdistrn self = map (scale_of (W emb kap) (shape1 emb)) counts
    /\ nu self = map (nu_of (W emb kap) (shape1 emb)) counts.
Proof.
  eexists. split; [reflexivity|]. simpl.
  repeat (split; [reflexivity|]). split; [|reflexivity].
  now rewrite map2_map_same.
Qed.

(** ** Sums, maxima and the normalised posterior *)

Lemma fold_left_Rplus_acc (l : list R) (a : R) :
  fold_left Rplus l a = a + fold_left Rplus l 0.
Proof.
  revert a. induction l as [|x l IH]; intros a; simpl; [lra|].
  rewrite (IH (a + x)), (IH (0 + x)). lra.
Qed.

Lemma np_sum_nil : np_sum [] = 0.
Proof. reflexivity. Qed.

Lemma np_sum_cons (x : R) (l : list R) : np_sum (x :: l) = x + np_sum l.
Proof. unfold np_sum. simpl. rewrite fold_left_Rplus_acc. lra. Qed.

Lemma np_sum_app (l1 l2 : list R) : np_sum (l1 ++ l2) = np_sum l1 + np_sum l2.
Proof.
  induction l1 as [|x l1 IH]; simpl.
  - rewrite np_sum_nil. lra.
  - rewrite !np_sum_cons, IH. lra.
Qed.

Lemma np_sum_scale (l : list R) (s : R) :
  np_sum (map (fun q => q / s) l) = np_sum l / s.
Proof.
  induction l as [|x l IH]; simpl.
  - rewrite np_sum_nil. unfold Rdiv. lra.
  - rewrite !np_sum_cons, IH. unfold Rdiv. lra.
Qed.

Lemma np_sum_nonneg (l : list R) :
  Forall (fun q => 0 <= q) l -> 0 <= np_sum l.
Proof.
  induction 1 as [|x l Hx _ IH]; [rewrite np_sum_nil; lra|].
  rewrite np_sum_cons. lra.
Qed.

Lemma np_sum_pos (l : list R) :
  l <> [] -> Forall (fun q => 0 < q) l -> 0 < np_sum l.
Proof.
  intros Hne H. destruct H as [|x l Hx Hl]; [congruence|].
  rewrite np_sum_cons.
  assert (0 <= np_sum l).
  { apply np_sum_nonneg. eapply Forall_impl; [|exact Hl]. simpl. intros; lra. }
  lra.
Qed.

Lemma fold_left_Rmax_spec (l : list R) (x : R) :
  is_max (fold_left Rmax l x) (x :: l).
Proof.
  revert x. induction l as [|y l IH]; intros x; simpl.
  - split; [now left|]. intros v [<-|[]]. lra.
  - destruct (IH (Rmax x y)) as [Hin Hle]. split.
    + destruct Hin as [E|Hin]; [|right; now right].
      rewrite <- E. unfold Rmax. destruct (Rle_dec x y); [right|]; now left.
    + intros v [<-|[<-|Hv]].
      * eapply Rle_trans; [apply Rmax_l|]. apply Hle. now left.
      * eapply Rle_trans; [apply Rmax_r|]. apply Hle. now left.
      * apply Hle. now right.
Qed.

Lemma np_max_ok (l : list R) :
  l <> [] -> exists m, np_max l = Ok m /\ is_max m l.
Proof.
  destruct l as [|x l]; [congruence|]. intros _.
  exists (fold_left Rmax l x). split; [reflexivity|]. apply fold_left_Rmax_spec.
Qed.

(** The posterior of lines 236-237 is a distribution: positive entries that
    sum to one. *)
Lemma posterior_distribution (lp : list R) (m : R) :
  lp <> [] ->
  let e := map (fun v => exp (v - m)) lp in
  let p := map (fun q => q / np_sum e) e in
  np_sum p = 1 /\ Forall (fun q => 0 < q) p /\ length p = length lp.
Proof.
  intros Hne e p.
  assert (He : Forall (fun q => 0 < q) e).
  { apply Forall_forall. intros q Hq. apply in_map_iff in Hq as (v & <- & _).
    apply exp_pos. }
  assert (Hs : 0 < np_sum e).
  { apply np_sum_pos; [|exact He]. unfold e. destruct lp; [congruence|discriminate]. }
  split; [|split].
  - unfold p. rewrite np_sum_scale. field. lra.
  - apply Forall_forall. intros q Hq. apply in_map_iff in Hq as (q0 & <- & Hq0).
    rewrite Forall_forall in He. apply Rdiv_lt_0_compat; [now apply He | exact Hs].
  - unfold p, e. now rewrite !length_map.
Qed.

(** ** The categorical draw of [np.random.choice] *)

Lemma cumsum_from_length (acc : R) (p : list R) :
  length (cumsum_from acc p) = length p.
Proof. revert acc. induction p as [|x p IH]; intros acc; simpl; auto. Qed.

Lemma cumsum_from_nth (acc : R) (p : list R) (k : nat) :
  (k < length p)%nat ->
  nth k (cumsum_from acc p) 0 = acc + np_sum (firstn (S k) p).
Proof.
  revert acc k. induction p as [|x p IH]; intros acc k Hk; simpl in Hk; [lia|].
  destruct k as [|k].
  - simpl. rewrite np_sum_cons, np_sum_nil. lra.
  - change (nth (S k) (cumsum_from acc (x :: p)) 0)
      with (nth k (cumsum_from (acc + x) p) 0).
    rewrite IH by lia.
    change (firstn (S (S k)) (x :: p)) with (x :: firstn (S k) p).
    rewrite np_sum_cons. lra.
Qed.

Lemma cumsum_from_last (acc : R) (p : list R) :
  p <> [] -> last (cumsum_from acc p) 0 = acc + np_sum p.
Proof.
  revert acc. induction p as [|x p IH]; intros acc Hne; [congruence|].
  destruct p as [|y p].
  - simpl. rewrite np_sum_cons, np_sum_nil. lra.
  - change (last (cumsum_from acc (x :: y :: p)) 0)
      with (last (cumsum_from (acc + x) (y :: p)) 0).
    rewrite IH by discriminate. rewrite (np_sum_cons x). lra.
Qed.

Lemma searchsorted_right_spec (cdf : list R) (u : R) :
  (exists k, (k < length cdf)%nat /\ u < nth k cdf 0) ->
  let t := searchsorted_right cdf u in
  (t < length cdf)%nat /\ u < nth t cdf 0
  /\ forall k, (k < t)%nat -> nth k cdf 0 <= u.
Proof.
  induction cdf as [|c cdf IH]; intros (k & Hk & Hu); simpl in Hk; [lia|].
  simpl. destruct (Rle_dec c u) as [Hle|Hgt].
  - destruct k as [|k]; [simpl in Hu; lra|].
    destruct IH as (H1 & H2 & H3).
    { exists k. split; [lia | exact Hu]. }
    split; [lia|]. split; [exact H2|].
    intros [|j] Hj; [exact Hle|]. apply H3. lia.
  - split; [lia|]. split; [simpl; lra|]. intros j Hj. lia.
Qed.

Lemma existsb_negative (p : list R) :
  Forall (fun q => 0 < q) p -> existsb (fun q => Rlt_bool q 0) p = false.
Proof.
  induction 1 as [|q p Hq _ IH]; simpl; [reflexivity|].
  unfold Rlt_bool at 1. destruct (Rlt_dec q 0); [lra|]. exact IH.
Qed.

Lemma np_random_choice_ok (G : Generator) (a : Z) (p : list R) (s : world G)
  (u : R) (g' : rng G) :
  (0 < a)%Z -> Z.of_nat (length p) = a ->
  Forall (fun q => 0 < q) p -> np_sum p = 1 ->
  random_sample G (gen s) = (u, g') -> 0 <= u < 1 ->
  exists t : nat,
    np_random_choice G a p s
    = (Ok (Z.of_nat t), {| model := model s; gen := g'; trace := trace s |})
    /\ (t < length p)%nat
    /\ np_sum (firstn t p) <= u < np_sum (firstn (S t) p).
Proof.
  intros Ha Hlen Hpos Hsum Hu Hrange.
  assert (Hne : p <> []) by (destruct p; [simpl in Hlen; lia | discriminate]).
  assert (Hlast : last (cumsum p) 0 = 1).
  { unfold cumsum. rewrite cumsum_from_last by exact Hne. lra. }
  set (cdf := map (fun c => c / last (cumsum p) 0) (cumsum p)).
  assert (Hcdf : forall k, (k < length p)%nat -> nth k cdf 0 = np_sum (firstn (S k) p)).
  { intros k Hk. unfold cdf.
    rewrite (nth_indep _ 0 ((fun c => c / last (cumsum p) 0) 0))
      by (unfold cumsum; rewrite length_map, cumsum_from_length; exact Hk).
    rewrite (map_nth (fun c => c / last (cumsum p) 0)), Hlast. unfold cumsum. rewrite cumsum_from_nth by exact Hk. lra. }
  assert (Hcl : length cdf = length p).
  { unfold cdf, cumsum. now rewrite length_map, cumsum_from_length. }
  destruct (searchsorted_right_spec cdf u) as (Ht & Hut & Hbefore).
  { exists (length p - 1)%nat. assert (0 < length p)%nat by (destruct p; simpl; [congruence|lia]).
    split; [lia|]. rewrite Hcdf by lia.
    replace (S (length p - 1)) with (length p) by lia.
    rewrite firstn_all. lra. }
  exists (searchsorted_right cdf u).
  split; [|split; [lia|split]].
  - unfold np_random_choice.
    replace (a <=? 0)%Z with false by (symmetry; apply Z.leb_gt; lia).
    rewrite Hlen, Z.eqb_refl. simpl.
    rewrite existsb_negative by exact Hpos.
    replace (Rlt_bool choice_atol (Rabs (np_sum p - 1))) with false.
    2:{ symmetry. unfold Rlt_bool. rewrite Hsum.
        replace (1 - 1) with 0 by lra. rewrite Rabs_R0.
        destruct (Rlt_dec choice_atol 0) as [Hlt|]; [|reflexivity].
        pose proof (sqrt_pos (/ 2 ^ 52)). unfold choice_atol in Hlt. lra. }
    fold cdf. rewrite Hu. reflexivity.
  - destruct (searchsorted_right cdf u) as [|t'] eqn:Et.
    + simpl. rewrite np_sum_nil. lra.
    + rewrite <- (Hcdf t') by lia. apply Hbefore. lia.
  - rewrite <- Hcdf by lia. exact Hut.
Qed.

(** ** Histograms *)

Lemma update_nth_nth {A : Type} (k j : nat) (f : A -> A) (l : list A) (d : A) :
  (j < length l)%nat ->
  nth j (update_nth k f l) d = if (j =? k)%nat then f (nth j l d) else nth j l d.
Proof.
  revert k j. induction l as [|a l IH]; intros k j Hj; simpl in Hj; [lia|].
  destruct k as [|k], j as [|j]; simpl; try reflexivity.
  apply IH. lia.
Qed.

Lemma update_nth_twice {A : Type} (k : nat) (f g : A -> A) (l : list A) :
  update_nth k g (update_nth k f l) = update_nth k (fun a => g (f a)) l.
Proof.
  revert k. induction l as [|a l IH]; intros [|k]; simpl; try reflexivity.
  now rewrite IH.
Qed.

Lemma sumZ_update_nth (k : nat) (f : Z -> Z) (l : list Z) :
  (k < length l)%nat ->
  sumZ (update_nth k f l) = (sumZ l - nth k l 0 + f (nth k l 0))%Z.
Proof.
  revert k. induction l as [|a l IH]; intros k Hk; simpl in Hk; [lia|].
  destruct k as [|k]; simpl; [lia|].
  rewrite IH by lia. lia.
Qed.

Lemma range_of_nat (K : nat) : range (Z.of_nat K) = map Z.of_nat (seq 0 K).
Proof. unfold range. now rewrite Nat2Z.id. Qed.

Lemma histogram_length (K : nat) (A : list Z) : length (histogram K A) = K.
Proof. unfold histogram. now rewrite range_of_nat, !length_map, length_seq. Qed.

Lemma histogram_nth (K : nat) (A : list Z) (k : nat) :
  (k < K)%nat ->
  nth k (histogram K A) 0%Z = Z.of_nat (count_occ Z.eq_dec A (Z.of_nat k)).
Proof.
  intros Hk. unfold histogram. rewrite range_of_nat, map_map.
  rewrite (nth_indep _ 0%Z ((fun j => Z.of_nat (count_occ Z.eq_dec A (Z.of_nat j))) 0%nat))
    by (now rewrite length_map, length_seq).
  rewrite (map_nth (fun j => Z.of_nat (count_occ Z.eq_dec A (Z.of_nat j)))).
  now rewrite seq_nth.
Qed.

Lemma histogram_nonneg (K : nat) (A : list Z) (k : nat) :
  (0 <= nth k (histogram K A) 0)%Z.
Proof.
  destruct (Nat.lt_ge_cases k K) as [Hk|Hk].
  - rewrite histogram_nth by exact Hk. lia.
  - rewrite nth_overflow by (now rewrite histogram_length). lia.
Qed.

Lemma count_occ_update_nth (A : list Z) (w : nat) (b k : Z) :
  (w < length A)%nat ->
  Z.of_nat (count_occ Z.eq_dec (update_nth w (fun _ => b) A) k)
  = (Z.of_nat (count_occ Z.eq_dec A k)
     - (if Z.eq_dec (nth w A 0) k then 1 else 0)
     + (if Z.eq_dec b k then 1 else 0))%Z.
Proof.
  revert w. induction A as [|a A IH]; intros w Hw; simpl in Hw; [lia|].
  destruct w as [|w]; simpl.
  - destruct (Z.eq_dec a k), (Z.eq_dec b k); lia.
  - specialize (IH w ltac:(lia)).
    destruct (Z.eq_dec a k); lia.
Qed.

(** Removing the token at [w] from its table [old]: the sentinel [-1] is no
    table, so the histogram loses one at [old]. *)
Lemma histogram_retract (K : nat) (A : list Z) (w : nat) (old : Z) :
  (w < length A)%nat -> nth w A 0%Z = old -> (0 <= old < Z.of_nat K)%Z ->
  histogram K (update_nth w (fun _ => (-1)%Z) A)
  = update_nth (Z.to_nat old) (fun c => (c - 1)%Z) (histogram K A).
Proof.
  intros Hw Hold Hr.
  apply nth_ext with (d := 0%Z) (d' := 0%Z).
  - now rewrite update_nth_length, !histogram_length.
  - intros j Hj. rewrite histogram_length in Hj.
    rewrite update_nth_nth by (now rewrite histogram_length).
    rewrite !histogram_nth by exact Hj.
    rewrite count_occ_update_nth by exact Hw. rewrite Hold.
    destruct (Z.eq_dec (-1) (Z.of_nat j)); [lia|].
    destruct (Nat.eqb_spec j (Z.to_nat old)) as [E|E];
      destruct (Z.eq_dec old (Z.of_nat j)); lia.
Qed.

(** Seating the token at [w], which holds the sentinel, at table [t]. *)
Lemma histogram_commit (K : nat) (A : list Z) (w t : nat) :
  (w < length A)%nat -> nth w A 0%Z = (-1)%Z -> (t < K)%nat ->
  histogram K (update_nth w (fun _ => Z.of_nat t) A)
  = update_nth t (fun c => (c + 1)%Z) (histogram K A).
Proof.
  intros Hw Hold Ht.
  apply nth_ext with (d := 0%Z) (d' := 0%Z).
  - now rewrite update_nth_length, !histogram_length.
  - intros j Hj. rewrite histogram_length in Hj.
    rewrite update_nth_nth by (now rewrite histogram_length).
    rewrite !histogram_nth by exact Hj.
    rewrite count_occ_update_nth by exact Hw. rewrite Hold.
    destruct (Z.eq_dec (-1) (Z.of_nat j)); [lia|].
    destruct (Nat.eqb_spec j t) as [E|E];
      destruct (Z.eq_dec (Z.of_nat t) (Z.of_nat j)); lia.
Qed.

Lemma histogram_cons (K : nat) (a : Z) (A : list Z) :
  (0 <= a < Z.of_nat K)%Z ->
  histogram K (a :: A)
  = update_nth (Z.to_nat a) (fun c => (c + 1)%Z) (histogram K A).
Proof.
  intros Ha.
  apply nth_ext with (d := 0%Z) (d' := 0%Z).
  - now rewrite update_nth_length, !histogram_length.
  - intros j Hj. rewrite histogram_length in Hj.
    rewrite update_nth_nth by (now rewrite histogram_length).
    rewrite !histogram_nth by exact Hj. simpl.
    destruct (Nat.eqb_spec j (Z.to_nat a)) as [E|E];
      destruct (Z.eq_dec a (Z.of_nat j)); lia.
Qed.

Lemma sumZ_histogram_nil (K : nat) : sumZ (histogram K []) = 0%Z.
Proof.
  unfold histogram. rewrite range_of_nat, map_map. simpl.
  induction (seq 0 K) as [|k l IH]; simpl; [reflexivity|]. now rewrite IH.
Qed.

(** The histogram of assignments that are all tables sums to their number. *)
Lemma sumZ_histogram (K : nat) (A : list Z) :
  assignments_in K A -> sumZ (histogram K A) = Z.of_nat (length A).
Proof.
  induction 1 as [|a A Ha _ IH]; [apply sumZ_histogram_nil|].
  rewrite histogram_cons by exact Ha.
  rewrite sumZ_update_nth by (rewrite histogram_length; lia).
  rewrite IH. simpl length. lia.
Qed.

Lemma fold_right_max_bound (K : Z) (A : list Z) :
  (0 <= K)%Z -> Forall (fun a => (0 <= a < K)%Z) A ->
  (fold_right Z.max (-1) A + 1 <= K)%Z.
Proof.
  intros HK. induction 1 as [|a A Ha _ IH]; simpl; lia.
Qed.

Lemma existsb_negative_Z (K : Z) (A : list Z) :
  Forall (fun a => (0 <= a < K)%Z) A -> existsb (fun v => (v <? 0)%Z) A = false.
Proof.
  induction 1 as [|a A Ha _ IH]; simpl; [reflexivity|].
  rewrite IH. replace (a <? 0)%Z with false by (symmetry; apply Z.ltb_ge; lia).
  reflexivity.
Qed.

(** [np.bincount] of assignments in [[0, K)] with [minlength = K] is the
    histogram over the [K] tables. *)
Lemma bincount_histogram (K : nat) (A : list Z) :
  assignments_in K A -> bincount A (Z.of_nat K) = Ok (histogram K A).
Proof.
  intros HA. unfold bincount.
  replace (Z.of_nat K <? 0)%Z with false by (symmetry; apply Z.ltb_ge; lia).
  rewrite (existsb_negative_Z (Z.of_nat K)) by exact HA.
  pose proof (fold_right_max_bound (Z.of_nat K) A ltac:(lia) HA).
  rewrite Z.max_l by lia. reflexivity.
Qed.

(** ** One customer *)

Lemma setitem_of_nat {A : Type} (l : list A) (k : nat) (f : A -> A) :
  (k < length l)%nat -> setitem l (Z.of_nat k) f = Ok (update_nth k f l).
Proof. intros Hk. unfold setitem. now rewrite py_index_of_nat. Qed.

Lemma assignments_in_update (K : nat) (A : list Z) (w t : nat) :
  assignments_in K A -> (t < K)%nat ->
  assignments_in K (update_nth w (fun _ => Z.of_nat t) A).
Proof.
  unfold assignments_in. intros HA Ht. revert w.
  induction HA as [|a A Ha HA IH]; intros w; [destruct w; constructor|].
  destruct w as [|w]; simpl.
  - apply Forall_cons; [lia | exact HA].
  - apply Forall_cons; [exact Ha | apply IH].
Qed.

Section Customer.

Variable G : Generator.
Variable self : GaussianLDA.
Hypothesis self_valid : valid self.
Hypothesis alpha_pos : 0 < alpha self.

Local Abbreviation K := (length (table_counts self)).

Lemma log_posteriors_length (x : list R) (H1 : list Z) :
  length H1 = K -> length (log_posteriors_of self x H1) = K.
Proof.
  intros HH. unfold log_posteriors_of.
  rewrite map2_length; rewrite !length_map; [exact HH|].
  now rewrite length_seq.
Qed.

Lemma log_posteriors_nth (x : list R) (H1 : list Z) (k : nat) :
  length H1 = K -> (k < K)%nat ->
  nth k (log_posteriors_of self x H1) 0
  = ln (IZR (nth k H1 0%Z) + alpha self) + table_logprob self x k.
Proof.
  intros HH Hk. unfold log_posteriors_of.
  rewrite (map2_nth _ _ _ k 0 0 0);
    [| rewrite !length_map, length_seq; exact HH | rewrite !length_map; lia].
  rewrite map_map.
  rewrite (nth_indep _ 0 ((fun c => ln (IZR c + alpha self)) 0%Z))
    by (rewrite length_map; lia).
  rewrite (map_nth (fun c => ln (IZR c + alpha self))).
  rewrite (nth_indep _ 0 (table_logprob self x 0))
    by (rewrite length_map, length_seq; lia).
  rewrite map_nth, seq_nth by exact Hk. reflexivity.
Qed.

Lemma sample_customer_ok (s : world G) (A H : list Z) (w : nat) (cust : Z)
  (u : R) (g' : rng G) :
  model s = self ->
  assignments_in K A -> H = histogram K A -> (w < length A)%nat ->
  indexable self cust ->
  random_sample G (gen s) = (u, g') -> 0 <= u < 1 ->
  exists (x : list R) (old : Z) (t : nat),
    getitem (vocab_embeddings self) cust = Ok x
    /\ nth_error A w = Some old
    /\ (t < K)%nat
    /\ let A1 := update_nth w (fun _ => (-1)%Z) A in
       let H1 := update_nth (Z.to_nat old) (fun c => (c - 1)%Z) H in
       let A2 := update_nth w (fun _ => Z.of_nat t) A in
       let H2 := update_nth t (fun c => (c + 1)%Z) H1 in
       sample_customer G (A, H) (w, cust) s
       = (Ok (A2, H2),
          {| model := model s; gen := g';
             trace := trace s ++ [Retracted w A1 H1; Committed w A2 H2] |})
       /\ spec_transition G self (table_logprob self) x w (A, H, gen s) (A2, H2, g')
       /\ assignments_in K A2
       /\ H2 = histogram K A2.
Proof.
  intros Hm HA HH Hw Hc Hu Hur.
  pose proof self_valid as Hv.
  destruct Hv as (Hws & Hcons & Hp & Hns).
  destruct (well_shaped_facts self Hws) as (HK & Hml & Hll & Hcl & Fm & Fc & Fe).
  destruct (getitem_in_range _ _ Hc) as (x & Hx & Hxin).
  assert (Hxl : length x = embedding_size self).
  { rewrite Forall_forall in Fe. now apply Fe. }
  set (old := nth w A 0%Z).
  assert (Hold : (0 <= old < Z.of_nat K)%Z).
  { unfold old. apply (Forall_nth_default _ _ w 0%Z HA Hw). }
  set (A1 := update_nth w (fun _ => (-1)%Z) A).
  set (H1 := update_nth (Z.to_nat old) (fun c => (c - 1)%Z) H).
  assert (HH1 : H1 = histogram K A1).
  { unfold H1, A1. rewrite HH. symmetry. now apply histogram_retract. }
  assert (HH1l : length H1 = K) by (rewrite HH1; apply histogram_length).
  assert (HHl : length H = K) by (rewrite HH; apply histogram_length).
  set (lp := log_posteriors_of self x H1).
  assert (Hlpl : length lp = K) by (now apply log_posteriors_length).
  assert (Hlpne : lp <> []).
  { intros E. rewrite E in Hlpl. simpl in Hlpl. lia. }
  destruct (np_max_ok lp Hlpne) as (m & Hmax & Hismax).
  destruct (posterior_distribution lp m Hlpne) as (Hsum & Hpos & Hpl).
  set (e := map (fun v => exp (v - m)) lp) in *.
  set (p := map (fun q => q / np_sum e) e) in *.
  set (s1 := {| model := model s; gen := gen s;
                trace := trace s ++ [Retracted w A1 H1] |}).
  destruct (np_random_choice_ok G (num_tables self) p s1 u g')
    as (t & Hchoice & Htl & Htu); try assumption; try lia.
  assert (HtK : (t < K)%nat) by lia.
  exists x, old, t.
  split; [exact Hx|].
  split; [unfold old; now apply nth_error_nth'|].
  split; [exact HtK|].
  cbv zeta. fold A1 H1.
  set (A2 := update_nth w (fun _ => Z.of_nat t) A).
  set (H2 := update_nth t (fun c => (c + 1)%Z) H1).
  assert (HA2 : update_nth w (fun _ => Z.of_nat t) A1 = A2).
  { unfold A1, A2. now rewrite update_nth_twice. }
  assert (HH2 : H2 = histogram K A2).
  { unfold H2. rewrite HH1, <- HA2. symmetry. apply histogram_commit.
    - unfold A1. now rewrite update_nth_length.
    - unfold A1. rewrite update_nth_nth by exact Hw. now rewrite Nat.eqb_refl.
    - exact HtK. }
  split; [|split; [|split]].
  - unfold sample_customer, bindM, get_self, lift.
    rewrite Hm, (proj2 (np_getitem_ok_iff _ _ _) Hx).
    rewrite (getitem_of_nat A w 0%Z) by exact Hw. fold old.
    rewrite (setitem_of_nat A w) by exact Hw. fold A1.
    replace old with (Z.of_nat (Z.to_nat old)) at 1 by lia.
    rewrite (setitem_of_nat H) by lia. fold H1.
    unfold observe at 1. cbv beta iota.
    rewrite <- Hm at 1. fold s1. rewrite Hm.
    rewrite (tables_ok self x self_valid Hxl).
    rewrite broadcast2_same_length by (rewrite !length_map, length_seq; exact HH1l).
    fold (log_posteriors_of self x H1). fold lp.
    rewrite Hmax. fold e. fold p.
    rewrite Hchoice.
    rewrite (setitem_of_nat H1) by lia. fold H2.
    rewrite (setitem_of_nat A1) by (unfold A1; now rewrite update_nth_length).
    rewrite HA2.
    unfold observe, ret. cbv beta iota. simpl.
    rewrite <- app_assoc, ?Hm. reflexivity.
  - apply spec_transition_intro with (old := old) (lp := lp) (p := p) (m := m) (u := u).
    + unfold old. now apply nth_error_nth'.
    + lia.
    + reflexivity.
    + lia.
    + intros k Hk. rewrite Hlpl in Hk. split.
      * rewrite HH1. pose proof (histogram_nonneg K A1 k) as Hn.
        apply IZR_le in Hn. lra.
      * now apply log_posteriors_nth.
    + exact Hismax.
    + unfold p, e. now rewrite map_map.
    + exact Hsum.
    + exact Hu.
    + exact Htl.
    + exact Htu.
  - now apply assignments_in_update.
  - exact HH2.
Qed.

End Customer.

(** ** Sweeps and iterations on a well-formed model *)

Lemma world_eta (G : Generator) (s : world G) :
  s = {| model := model s; gen := gen s; trace := trace s ++ [] |}.
Proof. destruct s; simpl. now rewrite app_nil_r. Qed.

Section Sweeps.

Variable G : Generator.
Variable self : GaussianLDA.
Hypothesis self_valid : valid self.
Hypothesis alpha_pos : 0 < alpha self.
Hypothesis G_ok : generator_ok G.
Variable doc : list Z.

Local Abbreviation K := (length (table_counts self)).

Lemma sweep_ok (rest : list Z) :
  forall (pre post : list Z) (s : world G) (A H : list Z),
    doc = pre ++ rest ++ post -> model s = self ->
    assignments_in K A -> H = histogram K A -> length A = length doc ->
    Forall (indexable self) rest ->
    exists (A' H' : list Z) (g' : rng G) (pts : list point),
      for_each (combine (seq (length pre) (length rest)) rest)
               (sample_customer G) (A, H) s
      = (Ok (A', H'), {| model := model s; gen := g'; trace := trace s ++ pts |})
      /\ (post = [] -> spec_sweep G self (table_logprob self) doc (length pre) (A, H, gen s) (A', H', g'))
      /\ assignments_in K A' /\ H' = histogram K A' /\ length A' = length doc
      /\ map point_visit pts = sweep_visits (length pre) (length rest).
Proof.
  induction rest as [|c rest IH]; intros pre post s A H Hdoc Hm HA HH HAl Hidx.
  - exists A, H, (gen s), []. simpl.
    split; [unfold ret; f_equal; apply world_eta|].
    split; [|auto].
    intros ->. apply spec_sweep_end. rewrite Hdoc, app_nil_r. reflexivity.
  - inversion Hidx as [|c' rest' Hc Hrest]; subst c' rest'.
    assert (Hw : (length pre < length A)%nat).
    { rewrite HAl, Hdoc, !length_app. simpl. lia. }
    destruct G_ok as (_ & _ & Hu).
    destruct (random_sample G (gen s)) as [u g1] eqn:Eu.
    assert (Hur : 0 <= u < 1) by (specialize (Hu (gen s)); now rewrite Eu in Hu).
    destruct (sample_customer_ok G self self_valid alpha_pos s A H (length pre) c u g1
                Hm HA HH Hw Hc Eu Hur)
      as (x & old & t & Hx & Hold & Ht & Hrun & Hspec & HA2 & HH2).
    cbv zeta in Hrun, Hspec, HA2, HH2.
    set (A2 := update_nth (length pre) (fun _ => Z.of_nat t) A) in *.
    set (H2 := update_nth t (fun c0 => (c0 + 1)%Z)
                 (update_nth (Z.to_nat old) (fun c0 => (c0 - 1)%Z) H)) in *.
    set (s2 := {| model := model s; gen := g1;
                  trace := trace s ++
                    [Retracted (length pre) (update_nth (length pre) (fun _ => (-1)%Z) A)
                       (update_nth (Z.to_nat old) (fun c0 => (c0 - 1)%Z) H);
                     Committed (length pre) A2 H2] |}) in *.
    destruct (IH (pre ++ [c]) post s2 A2 H2)
      as (A' & H' & g' & pts & Hfor & Hsw & HA' & HH' & HAl' & Hvis).
    + rewrite <- app_assoc. exact Hdoc.
    + exact Hm.
    + exact HA2.
    + exact HH2.
    + unfold A2. rewrite update_nth_length. exact HAl.
    + exact Hrest.
    + rewrite length_app in Hfor, Hsw, Hvis. simpl in Hfor, Hsw, Hvis.
      rewrite Nat.add_1_r in Hfor, Hsw, Hvis.
      exists A', H', g',
        ([Retracted (length pre) (update_nth (length pre) (fun _ => (-1)%Z) A)
            (update_nth (Z.to_nat old) (fun c0 => (c0 - 1)%Z) H);
          Committed (length pre) A2 H2] ++ pts).
      split; [|split; [|split; [|split; [|split]]]]; try assumption.
      * cbn [length seq combine for_each]. unfold bindM at 1.
        rewrite Hrun. rewrite Hfor.
        simpl. now rewrite <- app_assoc.
      * intros Hpost.
        apply spec_sweep_token with (c := c) (x := x) (st' := (A2, H2, g1)).
        -- rewrite Hdoc, nth_error_app2 by lia. now rewrite Nat.sub_diag.
        -- exact Hx.
        -- exact Hspec.
        -- now apply Hsw.
      * simpl. unfold sweep_visits in *. simpl. now rewrite Hvis.
Qed.

Lemma iterations_ok (its : list Z) :
  forall (s : world G) (A H : list Z),
    model s = self ->
    assignments_in K A -> H = histogram K A -> length A = length doc ->
    Forall (indexable self) doc ->
    exists (A' H' : list Z) (g' : rng G) (pts : list point),
      for_each its (sample_iteration G doc) (A, H) s
      = (Ok (A', H'), {| model := model s; gen := g'; trace := trace s ++ pts |})
      /\ spec_iterations G self (table_logprob self) doc (length its) (A, H, gen s) (A', H', g')
      /\ assignments_in K A' /\ H' = histogram K A' /\ length A' = length doc
      /\ map point_visit pts
         = flat_map (fun _ => sweep_visits 0 (length doc)) its.
Proof.
  induction its as [|it its IH]; intros s A H Hm HA HH HAl Hidx.
  - exists A, H, (gen s), []. simpl.
    split; [unfold ret; f_equal; apply world_eta|].
    split; [apply spec_iterations_O | auto].
  - destruct (sweep_ok doc [] [] s A H (eq_sym (app_nil_r doc)) Hm HA HH HAl Hidx)
      as (A1 & H1 & g1 & pts1 & Hfor1 & Hsw1 & HA1 & HH1 & HAl1 & Hvis1).
    specialize (Hsw1 eq_refl).
    simpl length in Hfor1, Hsw1, Hvis1.
    set (s1 := {| model := model s; gen := g1; trace := trace s ++ pts1 |}) in *.
    destruct (IH s1 A1 H1 Hm HA1 HH1 HAl1 Hidx)
      as (A' & H' & g' & pts & Hfor & Hit & HA' & HH' & HAl' & Hvis).
    exists A', H', g', (pts1 ++ pts).
    split; [|split; [|split; [|split; [|split]]]]; try assumption.
    + cbn [for_each]. unfold bindM at 1. unfold sample_iteration at 1.
      unfold enumerate. rewrite Hfor1. rewrite Hfor. simpl.
      now rewrite <- app_assoc.
    + simpl length. eapply spec_iterations_S; [exact Hsw1 | exact Hit].
    + simpl. rewrite map_app, Hvis1, Hvis. reflexivity.
Qed.

End Sweeps.

(** ** The whole call on a well-formed model *)

Lemma range_length (n : Z) : length (range n) = Z.to_nat n.
Proof. unfold range. now rewrite length_map, length_seq. Qed.

(** The prologue of [sample]: the initial assignment and its histogram. *)
Lemma sample_prologue (G : Generator) (doc : list Z) (num_iterations : Z)
  (s : world G) (K : nat) :
  generator_ok G -> num_tables (model s) = Z.of_nat K -> (0 < K)%nat ->
  exists (A0 : list Z) (g0 : rng G),
    randint G (gen s) (num_tables (model s)) (length doc) = (Ok A0, g0)
    /\ assignments_in K A0 /\ length A0 = length doc
    /\ sample G doc num_iterations s
       = bindM (for_each (range num_iterations) (sample_iteration G doc)
                         (A0, histogram K A0))
               (fun locals => ret (fst locals))
               {| model := model s; gen := g0; trace := trace s |}.
Proof.
  intros (Hex & Hran & _) HK HKpos.
  destruct (Hex (gen s) (num_tables (model s)) (length doc) ltac:(lia))
    as (A0 & g0 & Hr).
  destruct (Hran _ _ _ _ _ Hr) as (HA0l & HA0).
  assert (HA0in : assignments_in K A0).
  { unfold assignments_in. rewrite <- HK. exact HA0. }
  exists A0, g0. repeat (split; [assumption|]).
  unfold sample, bindM at 1 2 3, get_self, np_random_randint, lift.
  rewrite Hr. rewrite HK, bincount_histogram by exact HA0in. reflexivity.
Qed.

(** On a well-formed model the call returns, and the points it records are
    those of [num_iterations] sweeps. *)
Lemma sample_returns (G : Generator) (self : GaussianLDA) (doc : list Z)
  (num_iterations : Z) (s : world G) :
  valid self -> 0 < alpha self -> generator_ok G ->
  (0 < num_tables self)%Z -> model s = self ->
  Forall (indexable self) doc ->
  exists (A : list Z) (g : rng G) (pts : list point),
    sample G doc num_iterations s
    = (Ok A, {| model := model s; gen := g; trace := trace s ++ pts |})
    /\ map point_visit pts
       = flat_map (fun _ => sweep_visits 0 (length doc)) (range num_iterations).
Proof.
  intros Hv Ha HG HKpos Hm Hidx.
  pose proof Hv as (Hws & _).
  destruct (well_shaped_facts self Hws) as (HK & _).
  set (K := length (table_counts self)) in *.
  destruct (sample_prologue G doc num_iterations s K HG)
    as (A0 & g0 & Hr & HA0 & HA0l & Hrun); [rewrite Hm; exact HK | lia |].
  destruct (iterations_ok G self Hv Ha HG doc (range num_iterations)
              {| model := model s; gen := g0; trace := trace s |} A0
              (histogram K A0) Hm HA0 eq_refl HA0l Hidx)
    as (A & H & g & pts & Hfor & _ & _ & _ & _ & Hvis).
  exists A, g, pts. split; [|exact Hvis].
  rewrite Hrun. unfold bindM. rewrite Hfor. reflexivity.
Qed.

(** ** Every run, failing or not: the frame and the recorded points *)

Section Runs.

Variable G : Generator.

Variable Q : point -> Prop.

Lemma run_ret {A : Type} (a : A) (post : A -> Prop) :
  post a -> run_ok (G := G) Q (ret a) post.
Proof.
  intros Hp s. simpl. split; [reflexivity|]. split.
  - exists []. now rewrite app_nil_r.
  - now intros a' [= <-].
Qed.

Lemma run_lift {A : Type} (r : result A) (post : A -> Prop) :
  (forall a, r = Ok a -> post a) -> run_ok (G := G) Q (lift r) post.
Proof.
  intros Hp s. simpl. split; [reflexivity|]. split.
  - exists []. now rewrite app_nil_r.
  - exact Hp.
Qed.

Lemma run_get_self : run_ok (G := G) Q get_self (fun _ => True).
Proof.
  intros s. simpl. split; [reflexivity|]. split; [|trivial].
  exists []. now rewrite app_nil_r.
Qed.

Lemma run_observe (p : point) :
  Q p -> run_ok (G := G) Q (observe p) (fun _ => True).
Proof.
  intros Hq s. simpl. split; [reflexivity|]. split; [|trivial].
  exists [p]. split; [reflexivity|]. now constructor.
Qed.

Lemma run_randint (high : Z) (n : nat) :
  run_ok Q (np_random_randint G high n)
         (fun l => exists g g', randint G g high n = (Ok l, g')).
Proof.
  intros s. unfold np_random_randint.
  destruct (randint G (gen s) high n) as [r g'] eqn:E. simpl.
  split; [reflexivity|]. split.
  - exists []. now rewrite app_nil_r.
  - intros l ->. eauto.
Qed.

Lemma run_choice (a : Z) (p : list R) :
  run_ok Q (np_random_choice G a p) (fun _ => True).
Proof.
  intros s. unfold np_random_choice.
  assert (Hs : model (snd (@Raise Z ValueError, s)) = model s
               /\ (exists pts, trace (snd (@Raise Z ValueError, s)) = trace s ++ pts
                               /\ Forall Q pts)
               /\ forall t, fst (@Raise Z ValueError, s) = Ok t -> True).
  { simpl. split; [reflexivity|]. split; [|trivial].
    exists []. now rewrite app_nil_r. }
  destruct (a <=? 0)%Z; [exact Hs|].
  destruct (negb (Z.of_nat (length p) =? a)%Z); [exact Hs|].
  destruct (existsb (fun pi => Rlt_bool pi 0) p); [exact Hs|].
  destruct (Rlt_bool choice_atol (Rabs (np_sum p - 1))); [exact Hs|].
  destruct (random_sample G (gen s)) as [u g]. simpl.
  split; [reflexivity|]. split; [|trivial].
  exists []. now rewrite app_nil_r.
Qed.

Lemma run_bind {A B : Type} (m : M G A) (k : A -> M G B)
  (mid : A -> Prop) (post : B -> Prop) :
  run_ok Q m mid -> (forall a, mid a -> run_ok Q (k a) post) ->
  run_ok Q (bindM m k) post.
Proof.
  intros Hm Hk s. unfold bindM.
  destruct (Hm s) as (Hmod & (pts & Htr & Hpts) & Hpost).
  destruct (m s) as [[a|e] s1]; simpl in *.
  - destruct (Hk a (Hpost a eq_refl) s1) as (Hmod2 & (pts2 & Htr2 & Hpts2) & Hpost2).
    split; [congruence|]. split; [|exact Hpost2].
    exists (pts ++ pts2). split.
    + rewrite Htr2, Htr. now rewrite app_assoc.
    + apply Forall_app. now split.
  - split; [exact Hmod|]. split; [|discriminate].
    exists pts. now split.
Qed.

Lemma run_for_each {A X : Type} (body : A -> X -> M G A) (I : A -> Prop) (l : list X) :
  (forall a x, I a -> run_ok Q (body a x) I) ->
  forall a, I a -> run_ok Q (for_each l body a) I.
Proof.
  intros Hbody. induction l as [|x l IH]; intros a Ha; simpl.
  - now apply run_ret.
  - eapply run_bind; [apply Hbody; exact Ha | exact IH].
Qed.

End Runs.

Lemma setitem_sum (H : list Z) (i : Z) (f : Z -> Z) (d : Z) (H' : list Z) :
  (forall c, f c = (c + d)%Z) ->
  setitem H i f = Ok H' -> sumZ H' = (sumZ H + d)%Z.
Proof.
  intros Hf. unfold setitem.
  destruct (py_index (length H) i) as [k|] eqn:E; [|discriminate].
  intros [= <-]. apply py_index_lt in E.
  rewrite sumZ_update_nth by exact E. rewrite Hf. lia.
Qed.

(** One customer, from a histogram that sums to [N]: the points recorded sum
    to [N - 1] and [N], and the histogram returned sums to [N]. *)
Lemma sample_customer_run (G : Generator) (N : nat) (locals : list Z * list Z)
  (w_cust_id : nat * Z) :
  sumZ (snd locals) = Z.of_nat N ->
  run_ok (point_sum_ok N) (sample_customer G locals w_cust_id)
         (fun locals' => sumZ (snd locals') = Z.of_nat N).
Proof.
  destruct locals as [A H], w_cust_id as [w cust_id]. simpl. intros HN.
  unfold sample_customer.
  eapply run_bind; [apply run_get_self | intros self _].
  eapply run_bind; [apply run_lift with (post := fun _ => True); trivial | intros x _].
  eapply run_bind; [apply run_lift with (post := fun _ => True); trivial | intros old _].
  eapply run_bind; [apply run_lift with (post := fun _ => True); trivial | intros A1 _].
  eapply run_bind.
  { apply run_lift with (post := fun H1 => sumZ H1 = (Z.of_nat N - 1)%Z).
    intros H1 E.
    pose proof (setitem_sum _ _ (fun c => (c - 1)%Z) (-1)%Z _ ltac:(intros; cbv beta; lia) E).
    lia. }
  intros H1 HH1. cbv beta in HH1.
  eapply run_bind; [apply run_observe; exact HH1 | intros _ _].
  eapply run_bind; [apply run_lift with (post := fun _ => True); trivial | intros lls _].
  eapply run_bind; [apply run_lift with (post := fun _ => True); trivial | intros lp _].
  eapply run_bind; [apply run_lift with (post := fun _ => True); trivial | intros m _].
  eapply run_bind; [apply run_choice | intros new _].
  eapply run_bind.
  { apply run_lift with (post := fun H2 => sumZ H2 = Z.of_nat N).
    intros H2 E.
    pose proof (setitem_sum _ _ (fun c => (c + 1)%Z) 1%Z _ ltac:(intros; cbv beta; lia) E).
    lia. }
  intros H2 HH2. cbv beta in HH2.
  eapply run_bind; [apply run_lift with (post := fun _ => True); trivial | intros A2 _].
  eapply run_bind; [apply run_observe; exact HH2 | intros _ _].
  apply run_ret. exact HH2.
Qed.

(** [np.bincount] counts every element once: the counts sum to the length. *)
Lemma bincount_sum (A : list Z) (minlength : Z) (H : list Z) :
  bincount A minlength = Ok H -> sumZ H = Z.of_nat (length A).
Proof.
  unfold bincount.
  destruct (minlength <? 0)%Z eqn:E1; [discriminate|].
  destruct (existsb (fun v => (v <? 0)%Z) A) eqn:E2; [discriminate|].
  intros [= <-].
  set (n := Z.max minlength (fold_right Z.max (-1)%Z A + 1)).
  assert (Hn : (0 <= n)%Z) by (apply Z.ltb_ge in E1; lia).
  assert (HA : assignments_in (Z.to_nat n) A).
  { unfold assignments_in. apply Forall_forall. intros a Ha.
    assert (Hnn : (0 <= a)%Z).
    { destruct (Z.ltb_spec a 0) as [Hlt|]; [|assumption].
      assert (existsb (fun v => (v <? 0)%Z) A = true); [|congruence].
      apply existsb_exists. exists a. split; [assumption|]. now apply Z.ltb_lt. }
    assert (Hmax : (a <= fold_right Z.max (-1) A)%Z).
    { clear -Ha. induction A as [|b A IH]; [contradiction|].
      simpl. destruct Ha as [->|Ha]; [lia|]. specialize (IH Ha). lia. }
    lia. }
  replace n with (Z.of_nat (Z.to_nat n)) by lia.
  fold (histogram (Z.to_nat n) A). now apply sumZ_histogram.
Qed.

(** The whole call: whatever the inputs, the model is left as it is, and the
    points recorded sum to the number of initial assignments. *)
Lemma sample_run (G : Generator) (doc : list Z) (num_iterations : Z) (N : nat) :
  (forall g g' high l, randint G g high (length doc) = (Ok l, g') -> length l = N) ->
  run_ok (point_sum_ok N) (sample G doc num_iterations) (fun _ => True).
Proof.
  intros HN. unfold sample.
  eapply run_bind; [apply run_get_self | intros self _].
  eapply run_bind; [apply run_randint | intros A0 (g & g' & Hr)].
  eapply run_bind.
  { apply run_lift with (post := fun H0 => sumZ H0 = Z.of_nat N).
    intros H0 E. apply bincount_sum in E. rewrite (HN _ _ _ _ Hr) in E. exact E. }
  intros H0 HH0. cbv beta in HH0.
  eapply run_bind; [|intros locals _; now apply run_ret].
  apply run_for_each with (I := fun locals => sumZ (snd locals) = Z.of_nat N);
    [|exact HH0].
  intros locals it Hl. unfold sample_iteration.
  apply run_for_each; [|exact Hl].
  intros locals' x Hl'. now apply sample_customer_run.
Qed.

(** The frame alone, without any assumption on the generator. *)
Lemma sample_customer_frame (G : Generator) (locals : list Z * list Z)
  (w_cust_id : nat * Z) :
  run_ok (fun _ => True) (sample_customer G locals w_cust_id) (fun _ => True).
Proof.
  destruct locals as [A H], w_cust_id as [w cust_id].
  unfold sample_customer.
  repeat (eapply run_bind;
          [ first [ apply run_get_self
                  | apply run_lift with (post := fun _ => True); trivial
                  | apply run_observe; exact I
                  | apply run_choice ]
          | intros ? _ ]).
  now apply run_ret.
Qed.

(** ** No sweep: zero or negative [num_iterations] *)

Lemma range_nonpositive (n : Z) : (n <= 0)%Z -> range n = [].
Proof. intros H. unfold range. now replace (Z.to_nat n) with 0%nat by lia. Qed.

Lemma sample_no_sweep (G : Generator) (doc : list Z) (num_iterations : Z)
  (s : world G) :
  generator_ok G -> (0 < num_tables (model s))%Z -> (num_iterations <= 0)%Z ->
  exists (A0 : list Z) (g0 : rng G),
    randint G (gen s) (num_tables (model s)) (length doc) = (Ok A0, g0)
    /\ sample G doc num_iterations s
       = (Ok A0, {| model := model s; gen := g0; trace := trace s |}).
Proof.
  intros (Hex & Hran & _) HK Hn.
  destruct (Hex (gen s) (num_tables (model s)) (length doc) HK) as (A0 & g0 & Hr).
  destruct (Hran _ _ _ _ _ Hr) as (_ & HA0).
  exists A0, g0. split; [exact Hr|].
  assert (HA : assignments_in (Z.to_nat (num_tables (model s))) A0).
  { unfold assignments_in. rewrite Z2Nat.id by lia. exact HA0. }
  assert (Hb : bincount A0 (num_tables (model s))
               = Ok (histogram (Z.to_nat (num_tables (model s))) A0)).
  { rewrite <- bincount_histogram by exact HA. f_equal. lia. }
  unfold sample, bindM, get_self, np_random_randint, lift.
  rewrite Hr, Hb, range_nonpositive by exact Hn. reflexivity.
Qed.

(** ** A token that does not index the embedding matrix *)






(** ** The statements about [sample] *)

Lemma example_doc_indexable :
  Forall (indexable example_model) [0%Z; 1%Z].
Proof.
  repeat first [apply Forall_nil | apply Forall_cons]; unfold indexable; simpl; lia.
Qed.

(** On a well-formed model with a positive [alpha], for every document of
    token ids that index the embedding matrix and every [num_iterations],
    [sample] returns, and its run is a run of the state machine of the
    specification in which the density of step b is the value that the
    evaluators of the program compute, [table_logprob]: from the random
    initial assignment and its histogram, each sweep takes the positions in
    the order of the document, and at each position the histogram entry of
    the current assignment is decremented first, every table gets its
    log-posterior, the maximum is subtracted, the exponentials are
    normalised to a distribution that sums to one, the new table is drawn
    from it, and the assignment and the histogram are updated.  The recorded
    points show the same order. *)
Lemma sample_runs_sweeps_of_its_density (G : Generator) (self : GaussianLDA)
  (doc : list Z) (num_iterations : Z) (s : world G) :
  valid self -> 0 < alpha self -> generator_ok G ->
  (0 < num_tables self)%Z -> model s = self ->
  Forall (indexable self) doc ->
  let K := length (table_counts self) in
  exists (A0 : list Z) (g0 : rng G) (A H : list Z) (g : rng G) (pts : list point),
    randint G (gen s) (num_tables self) (length doc) = (Ok A0, g0)
    /\ assignments_in K A0 /\ length A0 = length doc
    /\ sample G doc num_iterations s
       = (Ok A, {| model := model s; gen := g; trace := trace s ++ pts |})
    /\ spec_iterations G self (table_logprob self) doc (Z.to_nat num_iterations)
                       (A0, histogram K A0, g0) (A, H, g)
    /\ assignments_in K A /\ H = histogram K A /\ length A = length doc
    /\ map point_visit pts
       = flat_map (fun _ => sweep_visits 0 (length doc)) (range num_iterations).
Proof.
  intros Hv Ha HG HKpos Hm Hidx K.
  pose proof Hv as (Hws & _).
  destruct (well_shaped_facts self Hws) as (HK & _). fold K in HK.
  destruct (sample_prologue G doc num_iterations s K HG)
    as (A0 & g0 & Hr & HA0 & HA0l & Hrun); [rewrite Hm; exact HK | lia |].
  rewrite Hm in Hr.
  destruct (iterations_ok G self Hv Ha HG doc (range num_iterations)
              {| model := model s; gen := g0; trace := trace s |} A0
              (histogram K A0) Hm HA0 eq_refl HA0l Hidx)
    as (A & H & g & pts & Hfor & Hit & HA & HH & HAl & Hvis).
  rewrite range_length in Hit.
  exists A0, g0, A, H, g, pts.
  repeat (split; [assumption|]).
  split; [|repeat (split; [assumption|]); assumption].
  rewrite Hrun. unfold bindM. rewrite Hfor. reflexivity.
Qed.

(** ** The posterior the sampler draws from, and the specified one *)

Lemma fixed_generator_ok (u : R) : 0 <= u < 1 -> generator_ok (fixed_generator u).
Proof.
  intros Hu. split; [|split].
  - intros g high n Hh. exists (repeat 0%Z n), g. simpl.
    replace (high <=? 0)%Z with false by (symmetry; apply Z.leb_gt; lia).
    reflexivity.
  - intros g high n l g'. simpl.
    destruct (high <=? 0)%Z eqn:E; [discriminate|].
    apply Z.leb_gt in E. intros [= <- <-].
    split; [apply repeat_length|].
    apply Forall_forall. intros a Ha. apply repeat_spec in Ha. lia.
  - intros g. simpl. exact Hu.
Qed.

(** Two values of the Student-t expression that differ in the Mahalanobis
    term only. *)
Lemma student_t_difference (D : nat) (nu log_det v0 v1 : R) :
  student_t D nu log_det v1 - student_t D nu log_det v0
  = (nu + INR D) / 2 * (ln (1 + v0 / nu) - ln (1 + v1 / nu)).
Proof. unfold student_t. ring. Qed.

(** The values of the two densities on the example model at [x = (2, 2)]:
    the Mahalanobis terms are 2 and 32 for the program, 1 and 16 for the
    specification. *)
Lemma example_table_logprob :
  table_logprob example_model [2; 2] 0 = student_t 2 1 0 2
  /\ table_logprob example_model [2; 2] 1 = student_t 2 1 0 32.
Proof.
  split; unfold table_logprob;
    cbn [example_model table_counts prior embedding_size
      table_cholesky_ltriangular_mat table_means log_determinants example_counts
      example_chol example_means example_log_determinants nth];
    rewrite example_scale; f_equal.
  - unfold nu_of. simpl. lra.
  - repeat (unfold np_sum, dot; simpl). field.
  - unfold nu_of. simpl. lra.
  - repeat (unfold np_sum, dot; simpl). field.
Qed.

Lemma example_logDensity_spec :
  logDensity_spec example_model [2; 2] 0 = student_t 2 1 0 1
  /\ logDensity_spec example_model [2; 2] 1 = student_t 2 1 0 16.
Proof.
  split; rewrite logDensity_spec_student_t by apply example_model_valid;
    cbn [example_model table_counts prior embedding_size
      table_cholesky_ltriangular_mat table_means log_determinants example_counts
      example_chol example_means example_log_determinants nth];
    rewrite example_scale; f_equal.
  - unfold nu_of. simpl. lra.
  - unfold forward_substitution. repeat (unfold np_sum, dot; simpl). field.
  - unfold nu_of. simpl. lra.
  - unfold forward_substitution. repeat (unfold np_sum, dot; simpl). field.
Qed.

(** The odds of the second table against the first: [11 ^ (-3/2)], below
    [3/97], for the program; [(17/2) ^ (-3/2)], above [3/97], for the
    specification. *)
Lemma example_odds_program :
  exp (table_logprob example_model [2; 2] 1 - table_logprob example_model [2; 2] 0)
  < 3 / 97.
Proof.
  destruct example_table_logprob as [-> ->]. rewrite student_t_difference.
  rewrite <- (exp_ln (3 / 97)) by lra. apply exp_increasing.
  replace (1 + 2 / 1) with 3 by field. replace (1 + 32 / 1) with 33 by field.
  assert (H : 3 * (ln 3 - ln 33) < 2 * ln (3 / 97)).
  { replace 33 with (3 * 11) by lra. rewrite ln_mult by lra.
    replace (3 * (ln 3 - (ln 3 + ln 11))) with (- (INR 3 * ln 11))
      by (simpl; ring).
    replace (2 * ln (3 / 97)) with (- (INR 2 * ln (97 / 3))).
    2:{ unfold Rdiv at 1 2. rewrite !ln_mult, !ln_Rinv by lra. simpl. ring. }
    rewrite <- !ln_pow by lra.
    apply Ropp_lt_contravar. apply ln_increasing; lra. }
  simpl INR. lra.
Qed.

Lemma example_odds_specification :
  3 / 97
  < exp (logDensity_spec example_model [2; 2] 1
         - logDensity_spec example_model [2; 2] 0).
Proof.
  destruct example_logDensity_spec as [-> ->]. rewrite student_t_difference.
  rewrite <- (exp_ln (3 / 97)) at 1 by lra. apply exp_increasing.
  replace (1 + 1 / 1) with 2 by field. replace (1 + 16 / 1) with 17 by field.
  assert (H : 2 * ln (3 / 97) < 3 * (ln 2 - ln 17)).
  { replace (3 * (ln 2 - ln 17)) with (- (INR 3 * ln (17 / 2))).
    2:{ unfold Rdiv. rewrite ln_mult, ln_Rinv by lra. simpl. ring. }
    replace (2 * ln (3 / 97)) with (- (INR 2 * ln (97 / 3))).
    2:{ unfold Rdiv at 1 2. rewrite !ln_mult, !ln_Rinv by lra. simpl. ring. }
    rewrite <- !ln_pow by lra.
    apply Ropp_lt_contravar. apply ln_increasing; lra. }
  simpl INR. lra.
Qed.

(** Steps c and d for two tables: the first table is drawn exactly when
    [u (1 + odds) < 1], where the odds of the second table against the first
    are the exponential of the difference of the log-posteriors. *)
Lemma two_table_draw (a b m u : R) (p : list R) (t : nat) :
  p = map (fun v => exp (v - m) / np_sum (map (fun v' => exp (v' - m)) [a; b]))
          [a; b] ->
  (t < 2)%nat ->
  np_sum (firstn t p) <= u < np_sum (firstn (S t) p) ->
  (t = 0%nat /\ u * (1 + exp (b - a)) < 1)
  \/ (t = 1%nat /\ 1 <= u * (1 + exp (b - a))).
Proof.
  intros -> Ht Hu.
  assert (E0 : 0 < exp (a - m)) by apply exp_pos.
  assert (Q : 0 < exp (b - a)) by apply exp_pos.
  assert (E1 : exp (b - m) = exp (a - m) * exp (b - a)).
  { rewrite <- exp_plus. f_equal. ring. }
  assert (S : np_sum [exp (a - m); exp (b - m)] = exp (a - m) * (1 + exp (b - a))).
  { rewrite !np_sum_cons, np_sum_nil, E1. ring. }
  assert (P0 : exp (a - m) / np_sum [exp (a - m); exp (b - m)]
               = / (1 + exp (b - a))).
  { rewrite S. field. lra. }
  cbn [map] in Hu. rewrite P0 in Hu.
  assert (Hinv : 0 < / (1 + exp (b - a))) by (apply Rinv_0_lt_compat; lra).
  destruct t as [|[|t]]; [left | right | lia]; (split; [reflexivity|]).
  - cbn [firstn] in Hu. rewrite np_sum_cons, np_sum_nil in Hu.
    destruct Hu as [_ Hu].
    apply (Rmult_lt_compat_r (1 + exp (b - a))) in Hu; [|lra].
    replace ((/ (1 + exp (b - a)) + 0) * (1 + exp (b - a))) with 1 in Hu
      by (field; lra).
    exact Hu.
  - cbn [firstn] in Hu. rewrite np_sum_cons, np_sum_nil in Hu.
    destruct Hu as [Hu _].
    apply (Rmult_le_compat_r (1 + exp (b - a))) in Hu; [|lra].
    replace ((/ (1 + exp (b - a)) + 0) * (1 + exp (b - a))) with 1 in Hu
      by (field; lra).
    exact Hu.
Qed.

(** One sweep over a document of one token is one transition. *)
Lemma spec_iterations_one_token (G : Generator) (self : GaussianLDA)
  (logDensity : list R -> nat -> R) (c : Z) (st st' : sampler_state G) :
  spec_iterations G self logDensity [c] 1 st st' ->
  exists x : list R,
    getitem (vocab_embeddings self) c = Ok x
    /\ spec_transition G self logDensity x 0 st st'.
Proof.
  intros Hit.
  inversion Hit as [|n st0 st1 st2 Hsweep Hrest]; subst.
  inversion Hrest; subst.
  inversion Hsweep as [i0 st0 Hend|i0 c0 x st0 st3 st4 Hc Hx Htr Hsw]; subst;
    [discriminate|].
  injection Hc as <-.
  inversion Hsw as [i1 st5 Hend|i1 c1 x1 st5 st6 st7 Hc1]; subst;
    [|discriminate].
  exists x. now split.
Qed.

(** The transition of the specification from the state of one token at table
    0, for two tables: the table drawn is decided by the odds of the density
    in use. *)
Lemma spec_transition_two_tables (G : Generator) (self : GaussianLDA)
  (logDensity : list R -> nat -> R) (x : list R) (g : rng G)
  (st' : sampler_state G) :
  num_tables self = 2%Z ->
  spec_transition G self logDensity x 0 ([0%Z], [1%Z; 0%Z], g) st' ->
  exists t : nat,
    st' = ([Z.of_nat t], update_nth t (fun c => (c + 1)%Z) [0%Z; 0%Z],
           snd (random_sample G g))
    /\ ((t = 0%nat
         /\ fst (random_sample G g) * (1 + exp (logDensity x 1%nat - logDensity x 0%nat)) < 1)
        \/ (t = 1%nat
            /\ 1 <= fst (random_sample G g)
                    * (1 + exp (logDensity x 1%nat - logDensity x 0%nat)))).
Proof.
  intros HK Htr.
  inversion Htr as [A H H1 g0 g' old lp p m u t Hold Hrange HH1 Hlen Hlp Hmax Hp
                      Hsum Hu Ht Hdraw]; subst.
  injection Hold as <-. cbn [update_nth Z.to_nat] in *.
  change (1 - 1)%Z with 0%Z in *.
  rewrite HK in Hlen.
  destruct lp as [|a [|b [|c lp]]]; simpl in Hlen; try lia.
  destruct (Hlp 0%nat ltac:(simpl; lia)) as [_ Ea].
  destruct (Hlp 1%nat ltac:(simpl; lia)) as [_ Eb].
  cbn [nth] in Ea, Eb.
  exists t. rewrite Hu. cbn [fst snd]. split; [reflexivity|].
  replace (logDensity x 1%nat - logDensity x 0%nat) with (b - a) by (rewrite Ea, Eb; ring).
  apply (two_table_draw a b m u _ t eq_refl); [exact Ht | exact Hdraw].
Qed.

Lemma two_table_first (a b m : R) :
  exp (a - m) / np_sum [exp (a - m); exp (b - m)] = / (1 + exp (b - a)).
Proof.
  assert (E0 : 0 < exp (a - m)) by apply exp_pos.
  assert (Q : 0 < exp (b - a)) by apply exp_pos.
  assert (E1 : exp (b - m) = exp (a - m) * exp (b - a)).
  { rewrite <- exp_plus. f_equal. ring. }
  assert (S : np_sum [exp (a - m); exp (b - m)] = exp (a - m) * (1 + exp (b - a))).
  { rewrite !np_sum_cons, np_sum_nil, E1. ring. }
  rewrite S. field. lra.
Qed.

(** C2, at a concrete input.  On the example model (two tables with the
    factor [[1, 0], [1, 1]], scale 2, one degree of freedom, means [(0, 0)]
    and [(10, 10)]), for the document of the single token 0, whose embedding
    is [(2, 2)], with the initial assignment to table 0 and the uniform draw
    [97/100]: [sample] with one iteration returns the assignment [[0]],
    because the posterior of table 0 it draws from, computed with the
    Mahalanobis terms 2 and 32 of the back substitution, is
    [1 / (1 + 11 ^ (-3/2))], above [97/100].  The transition of the
    specification, whose step b takes [logDensity] with the forward
    substitution (Mahalanobis terms 1 and 16), has a run from the same state
    with the same draw, and every such run ends with the assignment [[1]]:
    its posterior of table 0 is [1 / (1 + (17/2) ^ (-3/2))], below
    [97/100]. *)
Theorem sample_posterior_is_not_the_specified_one :
  let G := fixed_generator (97 / 100) in
  let s := @mkWorld G example_model tt [] in
  randint G (gen s) (num_tables example_model) (length [0%Z]) = (Ok [0%Z], tt)
  /\ histogram (length (table_counts example_model)) [0%Z] = [1%Z; 0%Z]
  /\ fst (sample G [0%Z] 1 s) = Ok [0%Z]
  /\ (exists st' : sampler_state G,
        spec_iterations G example_model (logDensity_spec example_model) [0%Z] 1
                        ([0%Z], [1%Z; 0%Z], tt) st')
  /\ (forall st' : sampler_state G,
        spec_iterations G example_model (logDensity_spec example_model) [0%Z] 1
                        ([0%Z], [1%Z; 0%Z], tt) st' ->
        fst (fst st') = [1%Z]).
Proof.
  intros G s.
  pose proof example_odds_program as Hprog.
  pose proof example_odds_specification as Hspec.
  split; [reflexivity|]. split; [reflexivity|]. split; [|split].
  - destruct (sample_runs_sweeps_of_its_density G example_model [0%Z] 1 s)
      as (A0 & g0 & A & H & g & pts & Hr & _ & _ & Hrun & Hit & _).
    + exact example_model_valid.
    + simpl. lra.
    + apply fixed_generator_ok. lra.
    + simpl. lia.
    + reflexivity.
    + repeat first [apply Forall_nil | apply Forall_cons]; unfold indexable; simpl; lia.
    + injection Hr as <- <-.
      change (histogram (length (table_counts example_model)) [0%Z])
        with [1%Z; 0%Z] in Hit.
      change (Z.to_nat 1) with 1%nat in Hit.
      apply spec_iterations_one_token in Hit as (x & Hx & Htr).
      injection Hx as <-.
      apply spec_transition_two_tables in Htr as (t & Est & Hcase);
        [|reflexivity].
      rewrite Hrun. cbn [fst]. injection Est as -> _ _.
      destruct Hcase as [[-> _]|[_ Hge]]; [reflexivity|].
      exfalso. cbn [G fixed_generator random_sample fst] in Hge. lra.
  - set (d0 := logDensity_spec example_model [2; 2] 0).
    set (d1 := logDensity_spec example_model [2; 2] 1).
    fold d0 d1 in Hspec.
    assert (Hd : d1 <= d0).
    { destruct example_logDensity_spec as [E0 E1]. fold d0 in E0. fold d1 in E1.
      assert (E : d1 - d0 = (1 + INR 2) / 2 * (ln (1 + 1 / 1) - ln (1 + 16 / 1)))
        by (rewrite E0, E1; apply student_t_difference).
      assert (ln (1 + 1 / 1) < ln (1 + 16 / 1)) by (apply ln_increasing; lra).
      simpl INR in E. nra. }
    set (a := ln (IZR 0 + alpha example_model) + d0).
    set (b := ln (IZR 0 + alpha example_model) + d1).
    set (e := map (fun v => exp (v - a)) [a; b]).
    set (p := map (fun q => q / np_sum e) e).
    destruct (posterior_distribution [a; b] a ltac:(discriminate)) as (Hsum & _ & _).
    fold e in Hsum. fold p in Hsum.
    exists (update_nth 0 (fun _ => Z.of_nat 1) [0%Z],
            update_nth 1 (fun c => (c + 1)%Z)
                       (update_nth (Z.to_nat 0) (fun c => (c - 1)%Z) [1%Z; 0%Z]),
            tt).
    eapply spec_iterations_S; [|apply spec_iterations_O].
    apply spec_sweep_token with (c := 0%Z) (x := [2; 2])
      (st' := (update_nth 0 (fun _ => Z.of_nat 1) [0%Z],
               update_nth 1 (fun c => (c + 1)%Z)
                          (update_nth (Z.to_nat 0) (fun c => (c - 1)%Z) [1%Z; 0%Z]),
               tt));
      [reflexivity | reflexivity | | apply spec_sweep_end; reflexivity].
    apply spec_transition_intro
      with (old := 0%Z) (lp := [a; b]) (p := p) (m := a) (u := 97 / 100).
    + reflexivity.
    + simpl. lia.
    + reflexivity.
    + reflexivity.
    + intros k Hk. destruct k as [|[|k]]; [| |simpl in Hk; lia];
        (split; [simpl; lra | reflexivity]).
    + split; [now left|]. intros v [<-|[<-|[]]]; unfold a, b; lra.
    + unfold p, e. now rewrite map_map.
    + exact Hsum.
    + reflexivity.
    + unfold p, e. simpl. lia.
    + assert (Hq : 0 < exp (b - a)) by apply exp_pos.
      assert (Eba : b - a = d1 - d0) by (unfold a, b; ring).
      split.
      * unfold p, e. cbn [map firstn].
        rewrite np_sum_cons, np_sum_nil, two_table_first, Eba.
        apply (Rmult_le_reg_r (1 + exp (d1 - d0))); [rewrite <- Eba; lra|].
        replace ((/ (1 + exp (d1 - d0)) + 0) * (1 + exp (d1 - d0))) with 1
          by (field; rewrite <- Eba; lra).
        lra.
      * replace (firstn 2 p) with p by reflexivity. rewrite Hsum. lra.
  - intros st' Hit.
    apply spec_iterations_one_token in Hit as (x & Hx & Htr).
    injection Hx as <-.
    apply spec_transition_two_tables in Htr as (t & -> & Hcase); [|reflexivity].
    cbn [fst].
    destruct Hcase as [[_ Hlt]|[-> _]]; [|reflexivity].
    exfalso. cbn [G fixed_generator random_sample fst] in Hlt. lra.
Qed.

Lemma generator_ok_length (G : Generator) (doc : list Z) :
  generator_ok G ->
  forall g g' high l, randint G g high (length doc) = (Ok l, g') ->
                      length l = length doc.
Proof. intros (_ & Hran & _) g g' high l Hr. now destruct (Hran _ _ _ _ _ Hr). Qed.

(** C4, against the claim.  For the document of the single token 0 and one
    iteration on the example model, the first recorded point is the one after
    the retraction, and there the histogram does not sum to the length of the
    document. *)
Lemma histogram_sum_drops_while_retracted :
  exists (w : nat) (A H : list Z) (pts : list point),
    trace (snd (sample zero_generator [0%Z] 1 example_world))
    = Retracted w A H :: pts
    /\ sumZ H <> Z.of_nat (length [0%Z]).
Proof.
  destruct (sample_returns zero_generator example_model [0%Z] 1 example_world)
    as (A & g & pts & Hrun & Hvis).
  - exact example_model_valid.
  - simpl. lra.
  - exact zero_generator_ok.
  - simpl. lia.
  - reflexivity.
  - repeat first [apply Forall_nil | apply Forall_cons]; unfold indexable; simpl; lia.
  - destruct (sample_run zero_generator [0%Z] 1 1
                (generator_ok_length zero_generator [0%Z] zero_generator_ok)
                example_world) as (_ & (pts' & Htr & Hsum) & _).
    rewrite Hrun in Htr |- *. simpl in Htr |- *.
    subst pts'.
    destruct pts as [|[w A1 H1|w A1 H1] pts]; try discriminate.
    exists w, A1, H1, pts. split; [reflexivity|].
    inversion Hsum as [|p ps Hp _]; subst. simpl in Hp. simpl. lia.
Qed.

(** C4, amended.  During every call of [sample] on a document of [N]
    tokens, the histogram sums to [N] when it is built and after the commit
    of every token, and to [N - 1] between the retraction of a token and its
    commit. *)
Theorem histogram_sum_at_every_point (G : Generator) (doc : list Z)
  (num_iterations : Z) (s : world G) :
  generator_ok G ->
  (forall (A0 H0 : list Z) (g0 : rng G),
     randint G (gen s) (num_tables (model s)) (length doc) = (Ok A0, g0) ->
     bincount A0 (num_tables (model s)) = Ok H0 ->
     sumZ H0 = Z.of_nat (length doc))
  /\ exists pts : list point,
       trace (snd (sample G doc num_iterations s)) = trace s ++ pts
       /\ forall p, In p pts ->
            match p with
            | Retracted _ _ H => sumZ H = (Z.of_nat (length doc) - 1)%Z
            | Committed _ _ H => sumZ H = Z.of_nat (length doc)
            end.
Proof.
  intros HG. split.
  - intros A0 H0 g0 Hr Hb.
    rewrite (bincount_sum _ _ _ Hb).
    now rewrite (generator_ok_length G doc HG _ _ _ _ Hr).
  - destruct (sample_run G doc num_iterations (length doc)
                (generator_ok_length G doc HG) s) as (_ & (pts & Htr & Hsum) & _).
    exists pts. split; [exact Htr|].
    intros p Hp. rewrite Forall_forall in Hsum. exact (Hsum p Hp).
Qed.

Lemma histogram_sum_at_every_point_witness :
  (forall (A0 H0 : list Z) (g0 : unit),
     randint zero_generator (gen example_world) (num_tables (model example_world))
             (length [0%Z; 1%Z]) = (Ok A0, g0) ->
     bincount A0 (num_tables (model example_world)) = Ok H0 ->
     sumZ H0 = Z.of_nat (length [0%Z; 1%Z]))
  /\ exists pts : list point,
       trace (snd (sample zero_generator [0%Z; 1%Z] 2 example_world))
       = trace example_world ++ pts
       /\ forall p, In p pts ->
            match p with
            | Retracted _ _ H => sumZ H = (Z.of_nat (length [0%Z; 1%Z]) - 1)%Z
            | Committed _ _ H => sumZ H = Z.of_nat (length [0%Z; 1%Z])
            end.
Proof.
  apply (histogram_sum_at_every_point zero_generator [0%Z; 1%Z] 2 example_world).
  exact zero_generator_ok.
Defined.






(** C7, against the claim.  With [num_iterations = -1] the call returns an
    assignment. *)
Lemma sample_accepts_negative_iterations :
  fst (sample zero_generator [0%Z] (-1) example_world) = Ok [0%Z].
Proof.
  destruct (sample_no_sweep zero_generator [0%Z] (-1) example_world)
    as (A0 & g0 & Hr & Hrun);
    [exact zero_generator_ok | simpl; lia | lia |].
  simpl in Hr. injection Hr as <- <-. now rewrite Hrun.
Qed.

(** C7, amended.  For every document and every negative [num_iterations],
    [sample] raises nothing: it runs no sweep and returns the initial random
    assignment, as it does for [num_iterations = 0]. *)
Theorem sample_negative_iterations (G : Generator) (doc : list Z)
  (num_iterations : Z) (s : world G) :
  generator_ok G -> (0 < num_tables (model s))%Z -> (num_iterations < 0)%Z ->
  exists (A0 : list Z) (g0 : rng G),
    randint G (gen s) (num_tables (model s)) (length doc) = (Ok A0, g0)
    /\ sample G doc num_iterations s
       = (Ok A0, {| model := model s; gen := g0; trace := trace s |})
    /\ sample G doc num_iterations s = sample G doc 0 s.
Proof.
  intros HG HK Hn.
  destruct (sample_no_sweep G doc num_iterations s HG HK) as (A0 & g0 & Hr & Hrun);
    [lia|].
  destruct (sample_no_sweep G doc 0 s HG HK) as (A0' & g0' & Hr' & Hrun'); [lia|].
  exists A0, g0. split; [exact Hr|]. split; [exact Hrun|].
  rewrite Hrun, Hrun'. rewrite Hr in Hr'. now injection Hr' as <- <-.
Qed.

Lemma sample_negative_iterations_witness :
  exists (A0 : list Z) (g0 : unit),
    randint zero_generator (gen example_world) (num_tables (model example_world))
            (length [0%Z; 1%Z]) = (Ok A0, g0)
    /\ sample zero_generator [0%Z; 1%Z] (-3) example_world
       = (Ok A0, @mkWorld zero_generator (model example_world) g0 (trace example_world))
    /\ sample zero_generator [0%Z; 1%Z] (-3) example_world
       = sample zero_generator [0%Z; 1%Z] 0 example_world.
Proof.
  apply (sample_negative_iterations zero_generator [0%Z; 1%Z] (-3) example_world).
  - exact zero_generator_ok.
  - simpl. lia.
  - lia.
Defined.

(** C9. For every document and every [num_iterations], whether the call
    returns or raises, the model object after [sample] is the model object
    before it: the table counts, means, Cholesky factors and
    log-determinants, the caches and the prior are unchanged. *)
Theorem sample_leaves_the_model_unchanged (G : Generator) (doc : list Z)
  (num_iterations : Z) (s : world G) :
  model (snd (sample G doc num_iterations s)) = model s.
Proof.
  assert (Hrun : run_ok (fun _ => True) (sample G doc num_iterations)
                        (fun _ => True)).
  { unfold sample.
    eapply run_bind; [apply run_get_self | intros self _].
    eapply run_bind; [apply run_randint | intros A0 _].
    eapply run_bind;
      [apply run_lift with (post := fun _ => True); trivial | intros H0 _].
    eapply run_bind; [|intros locals _; now apply run_ret].
    apply run_for_each with (I := fun _ => True); [|exact I].
    intros locals it _. unfold sample_iteration.
    apply run_for_each; [|exact I].
    intros locals' x _. apply sample_customer_frame. }
  destruct (Hrun s) as (Hmodel & _). exact Hmodel.
Qed.

(** * Further properties of the evaluators *)

(** ** Table ids are Python indices *)

Lemma py_index_wrap (n : nat) (i : Z) :
  (- Z.of_nat n <= i < 0)%Z -> py_index n i = py_index n (i + Z.of_nat n).
Proof.
  intros H. unfold py_index.
  replace (0 <=? i)%Z with false by (symmetry; apply Z.leb_gt; lia).
  replace (- Z.of_nat n <=? i)%Z with true by (symmetry; apply Z.leb_le; lia).
  replace (i <? 0)%Z with true by (symmetry; apply Z.ltb_lt; lia).
  replace (0 <=? i + Z.of_nat n)%Z with true by (symmetry; apply Z.leb_le; lia).
  replace (i + Z.of_nat n <? Z.of_nat n)%Z with true by (symmetry; apply Z.ltb_lt; lia).
  simpl. f_equal. lia.
Qed.

Lemma getitem_wrap {A : Type} (l : list A) (i : Z) :
  (- Z.of_nat (length l) <= i < 0)%Z ->
  getitem l i = getitem l (i + Z.of_nat (length l)).
Proof. intros H. unfold getitem. now rewrite py_index_wrap. Qed.

Lemma getitem_ok_in {A : Type} (l : list A) (i : Z) (a : A) :
  getitem l i = Ok a -> In a l.
Proof.
  unfold getitem. destruct (py_index (length l) i) as [k|]; [|discriminate].
  destruct (nth_error l k) as [a'|] eqn:E; [|discriminate].
  intros [= <-]. eapply nth_error_In; eauto.
Qed.

Lemma np_getitem_wrap {A : Type} (l : list A) (i : Z) :
  (- Z.of_nat (length l) <= i < 0)%Z ->
  np_getitem l i = np_getitem l (i + Z.of_nat (length l)).
Proof.
  intros H. rewrite !np_getitem_in_bounds by lia. now apply getitem_wrap.
Qed.



(** ** Vectors of another length *)

Lemma broadcast2_mismatch {A B C : Type} (f : A -> B -> C) (a : list A) (b : list B) :
  length a <> length b -> length a <> 1%nat -> length b <> 1%nat ->
  broadcast2 f a b = Raise ValueError.
Proof.
  intros Hab Ha Hb. unfold broadcast2.
  replace (length a =? length b)%nat with false
    by (symmetry; now apply Nat.eqb_neq).
  destruct a as [|x [|x' a]]; try reflexivity; simpl in Ha; try lia.
  - destruct b as [|y [|y' b]]; try reflexivity; simpl in *; lia.
  - destruct b as [|y [|y' b]]; try reflexivity; simpl in *; lia.
Qed.

(** X2. On a model with consistent shapes and at least one table, a vector
    whose length is neither [D] nor one is refused with [ValueError] by both
    evaluators (for [D] other than one). *)
Theorem evaluators_reject_other_lengths (self : GaussianLDA) (x : list R) (t : Z) :
  well_shaped self = true -> (0 <= t < num_tables self)%Z ->
  length x <> embedding_size self -> length x <> 1%nat ->
  embedding_size self <> 1%nat ->
  log_multivariate_tdensity self (Vec x) t = Raise ValueError
  /\ log_multivariate_tdensity_tables self x = Raise ValueError.
Proof.
  intros Hws Ht Hx Hx1 HD.
  destruct (table_index self t Hws Ht) as [Et Hk].
  destruct (well_shaped_facts self Hws) as (HK & Hm & Hl & Hc & Fm & _).
  set (k := Z.to_nat t) in *.
  split.
  - rewrite tdensity_on_vector. unfold tdensity_vector. rewrite Et.
    rewrite (np_getitem_of_nat (table_counts self) k 0) by assumption. simpl.
    rewrite (np_getitem_of_nat (table_means self) k []) by lia. simpl.
    rewrite broadcast2_mismatch; [reflexivity | | assumption |];
      rewrite (Forall_nth_default _ _ k [] Fm) by lia; assumption.
  - unfold log_multivariate_tdensity_tables.
    destruct (table_means self) as [|mu means] eqn:E; [simpl in Hm; lia|].
    pose proof (Forall_inv Fm) as Hmu. simpl in Hmu.
    simpl. rewrite broadcast2_mismatch; [reflexivity | | assumption |];
      rewrite Hmu; assumption.
Qed.

Lemma evaluators_reject_other_lengths_witness :
  log_multivariate_tdensity example_model (Vec [2; 2; 2]) 0 = Raise ValueError
  /\ log_multivariate_tdensity_tables example_model [2; 2; 2] = Raise ValueError.
Proof.
  apply (evaluators_reject_other_lengths example_model [2; 2; 2] 0).
  - reflexivity.
  - simpl. lia.
  - simpl. lia.
  - simpl. lia.
  - simpl. lia.
Defined.

Lemma map2_repeat_l {A B C : Type} (f : A -> B -> C) (a : A) (b : list B) :
  map2 f (repeat a (length b)) b = map (f a) b.
Proof. induction b as [|y b IH]; simpl; [reflexivity|]. now rewrite IH. Qed.

Lemma broadcast2_singleton_l {A B C : Type} (f : A -> B -> C) (a : A) (b : list B) :
  broadcast2 f [a] b = broadcast2 f (repeat a (length b)) b.
Proof.
  rewrite (broadcast2_same_length f (repeat a (length b)) b) by apply repeat_length.
  rewrite map2_repeat_l. unfold broadcast2.
  destruct b as [|y [|y' b]]; reflexivity.
Qed.

(** X3. A vector of length one is not refused: numpy broadcasts it, and on a
    model with consistent shapes both evaluators treat [[a]] as the vector
    of [D] coordinates all equal to [a]. *)
Theorem evaluators_broadcast_one_coordinate (self : GaussianLDA) (a : R) (t : Z) :
  well_shaped self = true ->
  log_multivariate_tdensity self (Vec [a]) t
  = log_multivariate_tdensity self (Vec (repeat a (embedding_size self))) t
  /\ log_multivariate_tdensity_tables self [a]
     = log_multivariate_tdensity_tables self (repeat a (embedding_size self)).
Proof.
  intros Hws.
  destruct (well_shaped_facts self Hws) as (HK & Hm & Hl & Hc & Fm & _).
  split.
  - rewrite !tdensity_on_vector. unfold tdensity_vector.
    destruct (np_getitem (table_counts self) t) as [count|e]; [|reflexivity]. simpl.
    destruct (np_getitem (table_means self) t) as [mu|e] eqn:E; [|reflexivity]. simpl.
    apply np_getitem_ok_iff in E.
    apply getitem_ok_in in E. rewrite Forall_forall in Fm.
    rewrite <- (Fm mu E), <- broadcast2_singleton_l. reflexivity.
  - unfold log_multivariate_tdensity_tables.
    replace (mapM (fun table_mean => broadcast2 Rminus [a] table_mean)
                  (table_means self))
      with (mapM (fun table_mean =>
                    broadcast2 Rminus (repeat a (embedding_size self)) table_mean)
                 (table_means self)); [reflexivity|].
    clear Hm. induction Fm as [|mu means Hmu _ IH]; simpl; [reflexivity|].
    rewrite IH, <- Hmu, <- broadcast2_singleton_l. reflexivity.
Qed.

Lemma evaluators_broadcast_one_coordinate_witness :
  log_multivariate_tdensity example_model (Vec [2]) 0
  = log_multivariate_tdensity example_model
      (Vec (repeat 2 (embedding_size example_model))) 0
  /\ log_multivariate_tdensity_tables example_model [2]
     = log_multivariate_tdensity_tables example_model
         (repeat 2 (embedding_size example_model)).
Proof.
  apply (evaluators_broadcast_one_coordinate example_model 2 0). reflexivity.
Defined.

(** ** A factor with a zero on its diagonal *)

Lemma mapM_raises {A B : Type} (f : A -> result B) (e : exn) (l : list A) :
  (forall a, In a l -> (exists b, f a = Ok b) \/ f a = Raise e) ->
  (exists a, In a l /\ f a = Raise e) ->
  mapM f l = Raise e.
Proof.
  induction l as [|a l IH]; intros Hall (a0 & Hin & Ha0); [contradiction|].
  simpl. destruct (Hall a (or_introl eq_refl)) as [(b & Hb)|Hr].
  - rewrite Hb. simpl.
    destruct Hin as [<-|Hin]; [congruence|].
    rewrite IH; [reflexivity | intros; apply Hall; now right | eauto].
  - now rewrite Hr.
Qed.

Lemma solve_triangular_ok_or_singular (a : list (list R)) (b : list R) (lower : bool) :
  is_square a = true -> length a = length b ->
  (exists z, solve_triangular a b lower = Ok z)
  \/ solve_triangular a b lower = Raise LinAlgError.
Proof.
  intros Hsq Hlen. unfold solve_triangular.
  rewrite Hsq, Hlen, Nat.eqb_refl. simpl.
  destruct (existsb (fun d => Req_bool d 0) (diagonal a)); [now right | left; eauto].
Qed.

Lemma scaled_diagonal_zero (s : R) (L : list (list R)) :
  In 0 (diagonal L) -> In 0 (diagonal (map (map (Rmult s)) L)).
Proof.
  intros H. rewrite diagonal_scale. apply in_map_iff. exists 0. split; [ring | exact H].
Qed.

(** A zero on the diagonal of whichever factor stops the all-tables
    evaluator. *)
Lemma tables_singular_raises (self : GaussianLDA) (x : list R) (j : Z) :
  well_shaped self = true -> constructed self ->
  length x = embedding_size self ->
  (0 <= j < num_tables self)%Z ->
  In 0 (diagonal (nth (Z.to_nat j) (table_cholesky_ltriangular_mat self) [])) ->
  log_multivariate_tdensity_tables self x = Raise LinAlgError.
Proof.
  intros Hws [Hs Hn] Hx Hj Hsing.
  destruct (table_index self j Hws Hj) as [Ej Hk].
  destruct (well_shaped_facts self Hws) as (HK & Hm & Hl & Hc & Fm & Fc & Fe).
  set (K := length (table_counts self)) in *.
  assert (Hshape : forall k, (k < K)%nat ->
            length (nth k (table_cholesky_ltriangular_mat self) [])
            = embedding_size self
            /\ is_square (nth k (table_cholesky_ltriangular_mat self) []) = true
            /\ length (nth k (table_means self) []) = embedding_size self).
  { intros k Hlt.
    destruct (Forall_nth_default _ _ k [] Fc ltac:(lia)) as [H1 H2].
    repeat split; try assumption.
    apply (Forall_nth_default _ _ k [] Fm). lia. }
  unfold log_multivariate_tdensity_tables.
  rewrite (mapM_ok _ (fun mu => map2 Rminus x mu)).
  2:{ intros mu Hmu. apply broadcast2_same_length.
      rewrite Forall_forall in Fm. rewrite (Fm mu Hmu). assumption. }
  simpl.
  rewrite broadcast2_same_length by (rewrite Hs, length_map; fold K; lia).
  simpl.
  replace (num_tables self <? 0)%Z with false by (symmetry; apply Z.ltb_ge; lia).
  assert (Hbody : forall k, (k < K)%nat ->
    (a <- getitem (map2 (fun s chol => map (map (Rmult s)) chol)
                        (scaleTdistrn self) (table_cholesky_ltriangular_mat self))
                  (Z.of_nat k) ;;
     b <- getitem (map (fun mu => map2 Rminus x mu) (table_means self)) (Z.of_nat k) ;;
     table_solved <- solve_triangular a b false ;;
     Ok (np_sum (map (fun s => s ^ 2) table_solved)))
    = (table_solved <-
         solve_triangular
           (map (map (Rmult (scale_of (prior self) (embedding_size self)
                                      (nth k (table_counts self) 0))))
                (nth k (table_cholesky_ltriangular_mat self) []))
           (map2 Rminus x (nth k (table_means self) [])) false ;;
       Ok (np_sum (map (fun s => s ^ 2) table_solved)))).
  { intros k Hlt.
    rewrite (getitem_of_nat _ k []).
    2:{ rewrite map2_length; rewrite Hs, length_map; fold K; lia. }
    simpl.
    rewrite (getitem_of_nat _ k []) by (rewrite length_map; lia).
    simpl.
    rewrite (map2_nth _ _ _ k 0 [] []).
    2:{ rewrite Hs, length_map; fold K; lia. }
    2:{ rewrite Hs, length_map; fold K; lia. }
    rewrite Hs.
    rewrite (nth_indep _ 0 (scale_of (prior self) (embedding_size self) 0))
      by (rewrite length_map; fold K; lia).
    rewrite map_nth.
    rewrite (nth_indep _ [] (map2 Rminus x [])) by (rewrite length_map; lia).
    rewrite (map_nth (fun mu => map2 Rminus x mu)). reflexivity. }
  rewrite (mapM_raises _ LinAlgError); [reflexivity | |].
  - intros table Ht. unfold range in Ht. rewrite HK, Nat2Z.id in Ht.
    apply in_map_iff in Ht as (k & <- & Hin). apply in_seq in Hin.
    rewrite Hbody by lia.
    destruct (Hshape k ltac:(lia)) as (HL & Hsq & Hmu).
    destruct (solve_triangular_ok_or_singular
                (map (map (Rmult (scale_of (prior self) (embedding_size self)
                                           (nth k (table_counts self) 0))))
                     (nth k (table_cholesky_ltriangular_mat self) []))
                (map2 Rminus x (nth k (table_means self) [])) false)
      as [(z & Hz)|Hz].
    + now rewrite is_square_scale.
    + rewrite length_map, map2_length by lia. lia.
    + rewrite Hz. left. simpl. eauto.
    + rewrite Hz. now right.
  - exists j. split.
    + unfold range. rewrite Ej. apply in_map. apply in_seq. lia.
    + rewrite Ej, Hbody by exact Hk.
      destruct (Hshape (Z.to_nat j) Hk) as (HL & Hsq & Hmu).
      rewrite solve_triangular_singular; [reflexivity | | |].
      * now rewrite is_square_scale.
      * rewrite length_map, map2_length by lia. lia.
      * now apply scaled_diagonal_zero.
Qed.

(** X4. On a model with consistent shapes, the caches of the constructor and
    proper hyperparameters ([kappa > 0], [nu > D - 1], counts that are not
    negative, so that every scale is a finite positive number), a Cholesky
    factor with a zero on its diagonal makes the single-table evaluator
    raise [LinAlgError] for that table, and the all-tables evaluator raise
    [LinAlgError] whatever the other tables are. *)
Theorem singular_factor_raises (self : GaussianLDA) (x : list R) (j : Z) :
  well_shaped self = true -> constructed self -> proper self ->
  length x = embedding_size self ->
  (0 <= j < num_tables self)%Z ->
  In 0 (diagonal (nth (Z.to_nat j) (table_cholesky_ltriangular_mat self) [])) ->
  log_multivariate_tdensity self (Vec x) j = Raise LinAlgError
  /\ log_multivariate_tdensity_tables self x = Raise LinAlgError.
Proof.
  intros Hws Hcons Hp Hx Hj Hsing.
  split; [|now apply tables_singular_raises with (j := j)].
  destruct (table_index self j Hws Hj) as [Ej Hk].
  destruct (well_shaped_facts self Hws) as (HK & Hm & Hl & Hc & Fm & Fc & Fe).
  set (k := Z.to_nat j) in *.
  destruct (Forall_nth_default _ _ k [] Fc ltac:(lia)) as [HL Hsq].
  assert (Hmu : length (nth k (table_means self) []) = embedding_size self).
  { apply (Forall_nth_default _ _ k [] Fm). lia. }
  rewrite tdensity_on_vector. unfold tdensity_vector. rewrite Ej.
  rewrite (np_getitem_of_nat (table_counts self) k 0) by assumption. simpl.
  rewrite (np_getitem_of_nat (table_means self) k []) by lia. simpl.
  rewrite broadcast2_same_length by lia. simpl.
  rewrite (np_getitem_of_nat (table_cholesky_ltriangular_mat self) k []) by lia. simpl.
  rewrite solve_triangular_singular; [reflexivity | | |].
  - now rewrite is_square_scale.
  - rewrite length_map, map2_length by lia. lia.
  - now apply scaled_diagonal_zero.
Qed.

Lemma singular_model_shapes :
  well_shaped singular_model = true /\ constructed singular_model.
Proof. split; [reflexivity | split; reflexivity]. Qed.

Lemma singular_model_proper : proper singular_model.
Proof. exact (proj1 (proj2 (proj2 example_model_valid))). Qed.

Lemma singular_factor_raises_witness :
  log_multivariate_tdensity singular_model (Vec [2; 2]) 1 = Raise LinAlgError
  /\ log_multivariate_tdensity_tables singular_model [2; 2] = Raise LinAlgError.
Proof.
  apply (singular_factor_raises singular_model [2; 2] 1).
  - reflexivity.
  - apply singular_model_shapes.
  - exact singular_model_proper.
  - reflexivity.
  - simpl. lia.
  - unfold diagonal. simpl. right. left. reflexivity.
Defined.

(** ** The solve on a lower-triangular factor *)

Lemma dot_zero_l (r z : list R) :
  (forall j, nth j r 0 = 0) -> dot r z = 0.
Proof.
  unfold dot. revert z. induction r as [|a r IH]; intros z H; [reflexivity|].
  destruct z as [|b z]; [reflexivity|]. simpl.
  rewrite np_sum_cons. rewrite IH by (intros j; apply (H (S j))).
  rewrite (H 0%nat : a = 0). ring.
Qed.

Lemma dot_zero_r (r z : list R) :
  (forall j, nth j z 0 = 0) -> dot r z = 0.
Proof.
  unfold dot. revert z. induction r as [|a r IH]; intros z H; [reflexivity|].
  destruct z as [|b z]; [reflexivity|]. simpl.
  rewrite np_sum_cons. rewrite IH by (intros j; apply (H (S j))).
  rewrite (H 0%nat : b = 0). ring.
Qed.

Lemma nth_tl {A : Type} (r : list A) (j : nat) (d : A) :
  nth j (tl r) d = nth (S j) r d.
Proof. destruct r; [now destruct j | reflexivity]. Qed.

Lemma diagonal_from_tl (a : list (list R)) (i : nat) :
  map (fun ir => nth (fst ir) (snd ir) 0) (combine (seq (S i) (length a)) a)
  = map (fun ir => nth (fst ir) (snd ir) 0)
        (combine (seq i (length (map (@tl R) a))) (map (@tl R) a)).
Proof.
  revert i. induction a as [|row a IH]; intros i; simpl; [reflexivity|].
  rewrite nth_tl. f_equal. apply IH.
Qed.

Lemma diagonal_cons (row : list R) (a : list (list R)) :
  diagonal (row :: a) = hd 0 row :: diagonal (map (@tl R) a).
Proof.
  unfold diagonal. simpl. f_equal.
  - now destruct row.
  - apply diagonal_from_tl.
Qed.

Lemma lower_triangular_tl (row : list R) (a : list (list R)) :
  lower_triangular (row :: a) -> lower_triangular (map (@tl R) a).
Proof.
  intros H i j Hij.
  change (@nil R) with (tl (@nil R)). rewrite map_nth, nth_tl.
  apply (H (S i) (S j)). lia.
Qed.

(** Back substitution on a matrix without entries above the diagonal divides
    by the diagonal. *)
Lemma back_substitution_lower_triangular (b : list R) :
  forall a : list (list R),
    lower_triangular a -> back_substitution a b = map2 Rdiv b (diagonal a).
Proof.
  induction b as [|bi b IH]; intros a Ha; [reflexivity|].
  destruct a as [|row a]; [reflexivity|].
  simpl back_substitution. rewrite diagonal_cons. simpl map2.
  rewrite IH by (eapply lower_triangular_tl; exact Ha).
  rewrite dot_zero_l.
  - f_equal. lra.
  - intros j. rewrite nth_tl. apply (Ha 0%nat (S j)). lia.
Qed.

Lemma lower_triangular_scale (s : R) (L : list (list R)) :
  lower_triangular L -> lower_triangular (map (map (Rmult s)) L).
Proof.
  intros H i j Hij.
  change (@nil R) with (map (Rmult s) (@nil R)). rewrite map_nth.
  replace 0 with (s * 0) at 1 by ring. rewrite map_nth.
  rewrite (H i j Hij). ring.
Qed.

(** X5. On a well-formed model whose factor of table [t] is lower triangular,
    as a Cholesky factor is, the value returned for [t] is the Student-t
    expression whose Mahalanobis term is the sum of the squares of
    [(x_i - mu_i) / (scale L_ii)]: only the diagonal of the factor enters
    the result, the entries below the diagonal do not. *)
Theorem tdensity_reads_only_the_diagonal (self : GaussianLDA) (x : list R) (t : Z) :
  valid self -> length x = embedding_size self ->
  (0 <= t < num_tables self)%Z ->
  let k := Z.to_nat t in
  let count := nth k (table_counts self) 0 in
  let scale := scale_of (prior self) (embedding_size self) count in
  let L := nth k (table_cholesky_ltriangular_mat self) [] in
  lower_triangular L ->
  log_multivariate_tdensity self (Vec x) t
  = Ok (Scalar
          (student_t (embedding_size self)
             (nu_of (prior self) (embedding_size self) count)
             (nth k (log_determinants self) 0)
             (np_sum (map (fun s => s ^ 2)
                (map2 Rdiv (map2 Rminus x (nth k (table_means self) []))
                           (map (Rmult scale) (diagonal L))))))).
Proof.
  intros (Hws & Hcons & Hp & Hns) Hx Ht k count scale L HL.
  destruct (table_index self t Hws Ht) as [Et Hk]. fold k in Et, Hk.
  rewrite tdensity_on_vector, Et, tdensity_vector_ok by assumption.
  simpl. do 2 f_equal. unfold table_logprob. fold count scale L.
  rewrite back_substitution_lower_triangular by (now apply lower_triangular_scale).
  now rewrite diagonal_scale.
Qed.

Lemma example_factor_lower_triangular :
  lower_triangular (nth 0 (table_cholesky_ltriangular_mat example_model) []).
Proof.
  intros i j Hij. simpl.
  destruct i as [|[|i]]; simpl.
  - destruct j as [|[|j]]; [lia | reflexivity | destruct j; reflexivity].
  - destruct j as [|[|j]]; [lia | lia | destruct j; reflexivity].
  - destruct i; simpl; destruct j; reflexivity.
Qed.

Lemma tdensity_reads_only_the_diagonal_witness :
  let count := nth 0 (table_counts example_model) 0 in
  let scale := scale_of (prior example_model) (embedding_size example_model) count in
  let L := nth 0 (table_cholesky_ltriangular_mat example_model) [] in
  log_multivariate_tdensity example_model (Vec [2; 2]) 0
  = Ok (Scalar
          (student_t (embedding_size example_model)
             (nu_of (prior example_model) (embedding_size example_model) count)
             (nth 0 (log_determinants example_model) 0)
             (np_sum (map (fun s => s ^ 2)
                (map2 Rdiv (map2 Rminus [2; 2] (nth 0 (table_means example_model) []))
                           (map (Rmult scale) (diagonal L))))))).
Proof.
  apply (tdensity_reads_only_the_diagonal example_model [2; 2] 0).
  - exact example_model_valid.
  - reflexivity.
  - simpl. lia.
  - exact example_factor_lower_triangular.
Defined.

(** ** The density is largest at the mean of the table *)

Lemma np_sum_squares_nonneg (z : list R) : 0 <= np_sum (map (fun s => s ^ 2) z).
Proof.
  apply np_sum_nonneg. apply Forall_forall. intros q Hq.
  apply in_map_iff in Hq as (s & <- & _). apply pow2_ge_0.
Qed.

Lemma map2_minus_self (mu : list R) : forall j, nth j (map2 Rminus mu mu) 0 = 0.
Proof.
  induction mu as [|m mu IH]; intros j; simpl; [now destruct j|].
  destruct j; [lra | apply IH].
Qed.

Lemma back_substitution_zero (b : list R) :
  forall a : list (list R),
    (forall j, nth j b 0 = 0) -> forall j, nth j (back_substitution a b) 0 = 0.
Proof.
  induction b as [|bi b IH]; intros a Hb j; [now destruct j|].
  destruct a as [|row a]; [now destruct j|].
  simpl back_substitution.
  assert (Hz : forall i, nth i (back_substitution (map (@tl R) a) b) 0 = 0).
  { apply IH. intros i. apply (Hb (S i)). }
  destruct j as [|j]; [|apply Hz].
  simpl. rewrite (dot_zero_r _ _ Hz). rewrite (Hb 0%nat : bi = 0).
  unfold Rdiv. ring.
Qed.

Lemma np_sum_squares_zero (z : list R) :
  (forall j, nth j z 0 = 0) -> np_sum (map (fun s => s ^ 2) z) = 0.
Proof.
  induction z as [|s z IH]; intros H; [reflexivity|].
  change (map (fun s => s ^ 2) (s :: z)) with (s ^ 2 :: map (fun s => s ^ 2) z).
  rewrite np_sum_cons, IH by (intros j; apply (H (S j))).
  rewrite (H 0%nat : s = 0). ring.
Qed.

Lemma student_t_decreasing (D : nat) (nu log_det v1 v2 : R) :
  0 < nu -> 0 <= v1 <= v2 ->
  student_t D nu log_det v2 <= student_t D nu log_det v1.
Proof.
  intros Hnu [H1 H2]. unfold student_t.
  assert (HD : 0 <= INR D) by apply pos_INR.
  assert (Hq : v1 / nu <= v2 / nu).
  { unfold Rdiv. apply Rmult_le_compat_r; [|exact H2].
    apply Rlt_le, Rinv_0_lt_compat, Hnu. }
  assert (P1 : 0 <= v1 / nu) by (apply Rle_mult_inv_pos; assumption).
  assert (Hln : ln (1 + v1 / nu) <= ln (1 + v2 / nu)).
  { destruct (Req_dec (v1 / nu) (v2 / nu)) as [E|E]; [rewrite E; lra|].
    apply Rlt_le, ln_increasing; lra. }
  assert (Hc : 0 <= (nu + INR D) / 2) by lra.
  pose proof (Rmult_le_compat_l _ _ _ Hc Hln). lra.
Qed.

(** X6. On a well-formed model, for every table [t] and every vector [x] of
    length [D], the value returned at [x] is at most the value returned at
    the mean of the table, where the Mahalanobis term is zero. *)
Theorem tdensity_largest_at_the_mean (self : GaussianLDA) (x : list R) (t : Z) :
  valid self -> length x = embedding_size self ->
  (0 <= t < num_tables self)%Z ->
  let k := Z.to_nat t in
  let mu := nth k (table_means self) [] in
  exists v vmax : R,
    log_multivariate_tdensity self (Vec x) t = Ok (Scalar v)
    /\ log_multivariate_tdensity self (Vec mu) t = Ok (Scalar vmax)
    /\ vmax = student_t (embedding_size self)
                (nu_of (prior self) (embedding_size self)
                       (nth k (table_counts self) 0))
                (nth k (log_determinants self) 0) 0
    /\ v <= vmax.
Proof.
  intros (Hws & Hcons & Hp & Hns) Hx Ht k mu.
  destruct (table_index self t Hws Ht) as [Et Hk]. fold k in Et, Hk.
  destruct (well_shaped_facts self Hws) as (HK & Hm & Hl & Hc & Fm & _).
  assert (Hmu : length mu = embedding_size self).
  { apply (Forall_nth_default _ _ k [] Fm). lia. }
  exists (table_logprob self x k), (table_logprob self mu k).
  rewrite !tdensity_on_vector, Et, !tdensity_vector_ok by assumption.
  split; [reflexivity|]. split; [reflexivity|].
  assert (Hzero : table_logprob self mu k
                  = student_t (embedding_size self)
                      (nu_of (prior self) (embedding_size self)
                             (nth k (table_counts self) 0))
                      (nth k (log_determinants self) 0) 0).
  { unfold table_logprob. fold mu. f_equal.
    apply np_sum_squares_zero, back_substitution_zero, map2_minus_self. }
  split; [exact Hzero|].
  rewrite Hzero. unfold table_logprob.
  apply student_t_decreasing.
  - apply (proper_nth self k Hp).
  - split; [lra | apply np_sum_squares_nonneg].
Qed.

Lemma tdensity_largest_at_the_mean_witness :
  let mu := nth 1 (table_means example_model) [] in
  exists v vmax : R,
    log_multivariate_tdensity example_model (Vec [2; 2]) 1 = Ok (Scalar v)
    /\ log_multivariate_tdensity example_model (Vec mu) 1 = Ok (Scalar vmax)
    /\ vmax = student_t (embedding_size example_model)
                (nu_of (prior example_model) (embedding_size example_model)
                       (nth 1 (table_counts example_model) 0))
                (nth 1 (log_determinants example_model) 0) 0
    /\ v <= vmax.
Proof.
  apply (tdensity_largest_at_the_mean example_model [2; 2] 1).
  - exact example_model_valid.
  - reflexivity.
  - simpl. lia.
Defined.

(** * Further properties of the sampler *)

(** ** The local state in every run *)

Section RunsOn.

Variable G : Generator.
Variable m0 : GaussianLDA.
Variable Q : point -> Prop.

Lemma on_ret {A : Type} (a : A) (post : A -> Prop) :
  post a -> run_on (G := G) m0 Q (ret a) post.
Proof.
  intros Hp s Hs. simpl. split; [exact Hs|]. split.
  - exists []. now rewrite app_nil_r.
  - now intros a' [= <-].
Qed.

Lemma on_lift {A : Type} (r : result A) (post : A -> Prop) :
  (forall a, r = Ok a -> post a) -> run_on (G := G) m0 Q (lift r) post.
Proof.
  intros Hp s Hs. simpl. split; [exact Hs|]. split.
  - exists []. now rewrite app_nil_r.
  - exact Hp.
Qed.

Lemma on_get_self : run_on (G := G) m0 Q get_self (fun self => self = m0).
Proof.
  intros s Hs. simpl. split; [exact Hs|]. split.
  - exists []. now rewrite app_nil_r.
  - now intros a [= <-].
Qed.

Lemma on_observe (p : point) : Q p -> run_on (G := G) m0 Q (observe p) (fun _ => True).
Proof.
  intros Hq s Hs. simpl. split; [exact Hs|]. split; [|trivial].
  exists [p]. split; [reflexivity|]. now constructor.
Qed.

Lemma on_randint (high : Z) (n : nat) :
  run_on m0 Q (np_random_randint G high n)
         (fun l => exists g g', randint G g high n = (Ok l, g')).
Proof.
  intros s Hs. unfold np_random_randint.
  destruct (randint G (gen s) high n) as [r g'] eqn:E. simpl.
  split; [exact Hs|]. split.
  - exists []. now rewrite app_nil_r.
  - intros l ->. eauto.
Qed.

Lemma on_choice (a : Z) (p : list R) :
  run_on m0 Q (np_random_choice G a p) (fun t => (0 <= t)%Z).
Proof.
  intros s Hs. unfold np_random_choice.
  assert (Hr : model (snd (@Raise Z ValueError, s)) = m0
               /\ (exists pts, trace (snd (@Raise Z ValueError, s)) = trace s ++ pts
                               /\ Forall Q pts)
               /\ forall t, fst (@Raise Z ValueError, s) = Ok t -> (0 <= t)%Z).
  { simpl. split; [exact Hs|]. split; [|discriminate].
    exists []. now rewrite app_nil_r. }
  destruct (a <=? 0)%Z; [exact Hr|].
  destruct (negb (Z.of_nat (length p) =? a)%Z); [exact Hr|].
  destruct (existsb (fun pi => Rlt_bool pi 0) p); [exact Hr|].
  destruct (Rlt_bool choice_atol (Rabs (np_sum p - 1))); [exact Hr|].
  destruct (random_sample G (gen s)) as [u g]. simpl.
  split; [exact Hs|]. split.
  - exists []. now rewrite app_nil_r.
  - intros t [= <-]. lia.
Qed.

Lemma on_bind {A B : Type} (m : M G A) (k : A -> M G B)
  (mid : A -> Prop) (post : B -> Prop) :
  run_on m0 Q m mid -> (forall a, mid a -> run_on m0 Q (k a) post) ->
  run_on m0 Q (bindM m k) post.
Proof.
  intros Hm Hk s Hs. unfold bindM.
  destruct (Hm s Hs) as (Hmod & (pts & Htr & Hpts) & Hpost).
  destruct (m s) as [[a|e] s1]; simpl in *.
  - destruct (Hk a (Hpost a eq_refl) s1 Hmod) as (Hmod2 & (pts2 & Htr2 & Hpts2) & Hpost2).
    split; [exact Hmod2|]. split; [|exact Hpost2].
    exists (pts ++ pts2). split.
    + rewrite Htr2, Htr. now rewrite app_assoc.
    + apply Forall_app. now split.
  - split; [exact Hmod|]. split; [|discriminate].
    exists pts. now split.
Qed.

Lemma on_for_each {A X : Type} (body : A -> X -> M G A) (I : A -> Prop) (l : list X) :
  (forall a x, I a -> run_on m0 Q (body a x) I) ->
  forall a, I a -> run_on m0 Q (for_each l body a) I.
Proof.
  intros Hbody. induction l as [|x l IH]; intros a Ha; simpl.
  - now apply on_ret.
  - eapply on_bind; [apply Hbody; exact Ha | exact IH].
Qed.

End RunsOn.

Lemma getitem_of_nat_inv {A : Type} (l : list A) (w : nat) (a : A) :
  getitem l (Z.of_nat w) = Ok a -> (w < length l)%nat /\ nth_error l w = Some a.
Proof.
  unfold getitem.
  destruct (py_index (length l) (Z.of_nat w)) as [k|] eqn:E; [|discriminate].
  assert (Hk : k = w).
  { unfold py_index in E.
    destruct ((0 <=? Z.of_nat w) && (Z.of_nat w <? Z.of_nat (length l)))%Z eqn:E1.
    - injection E as <-. lia.
    - replace (Z.of_nat w <? 0)%Z with false in E by (symmetry; apply Z.ltb_ge; lia).
      rewrite andb_false_r in E. discriminate. }
  subst k. pose proof (py_index_lt _ _ _ E) as Hw.
  destruct (nth_error l w) as [a'|]; [|discriminate].
  intros [= <-]. now split.
Qed.

Lemma setitem_nonneg_inv {A : Type} (l : list A) (i : Z) (f : A -> A) (l' : list A) :
  (0 <= i)%Z -> setitem l i f = Ok l' ->
  (Z.to_nat i < length l)%nat /\ l' = update_nth (Z.to_nat i) f l.
Proof.
  intros Hi. unfold setitem.
  destruct (py_index (length l) i) as [k|] eqn:E; [|discriminate].
  intros [= <-]. pose proof (py_index_lt _ _ _ E) as Hk.
  assert (k = Z.to_nat i); [|subst; now split].
  unfold py_index in E.
  destruct ((0 <=? i) && (i <? Z.of_nat (length l)))%Z eqn:E1.
  - now injection E as <-.
  - replace (i <? 0)%Z with false in E by (symmetry; apply Z.ltb_ge; lia).
    rewrite andb_false_r in E. discriminate.
Qed.

Lemma nth_error_update_nth {A : Type} (k j : nat) (f : A -> A) (l : list A) :
  nth_error (update_nth k f l) j
  = if (j =? k)%nat then option_map f (nth_error l j) else nth_error l j.
Proof.
  revert k j. induction l as [|a l IH]; intros k j.
  - replace (update_nth k f []) with (@nil A) by (now destruct k).
    destruct (j =? k)%nat; now destruct j.
  - destruct k as [|k], j as [|j]; simpl; try reflexivity. apply IH.
Qed.

(** One customer keeps the local state consistent, whatever the model. *)
Lemma sample_customer_state (G : Generator) (m0 : GaussianLDA) (K N : nat)
  (locals : list Z * list Z) (w_cust_id : nat * Z) :
  length (fst locals) = N -> assignments_in K (fst locals) ->
  snd locals = histogram K (fst locals) ->
  run_on m0 (point_state_ok K N) (sample_customer G locals w_cust_id)
         (fun locals' => length (fst locals') = N
                         /\ assignments_in K (fst locals')
                         /\ snd locals' = histogram K (fst locals')).
Proof.
  destruct locals as [A H], w_cust_id as [w cust_id]. simpl. intros HN HA HH.
  unfold sample_customer.
  eapply on_bind; [apply on_get_self | intros self _].
  eapply on_bind; [apply on_lift with (post := fun _ => True); trivial | intros x _].
  eapply on_bind.
  { apply on_lift with (post := fun old => (w < length A)%nat /\ nth_error A w = Some old).
    intros old. apply getitem_of_nat_inv. }
  intros old [Hw Hold].
  assert (Hnth : nth w A 0%Z = old) by (now apply nth_error_nth).
  assert (Hrange : (0 <= old < Z.of_nat K)%Z).
  { rewrite <- Hnth. apply (Forall_nth_default _ _ w 0%Z HA Hw). }
  eapply on_bind.
  { apply on_lift with (post := fun A1 => A1 = update_nth w (fun _ => (-1)%Z) A).
    intros A1 E. rewrite setitem_of_nat in E by exact Hw. now injection E as <-. }
  intros A1 ->.
  eapply on_bind.
  { apply on_lift with
      (post := fun H1 => H1 = histogram K (update_nth w (fun _ => (-1)%Z) A)).
    intros H1 E. apply setitem_nonneg_inv in E as [_ ->]; [|lia].
    rewrite HH. symmetry. now apply histogram_retract. }
  intros H1 HH1.
  assert (Hpoint : point_state_ok K N
                     (Retracted w (update_nth w (fun _ => (-1)%Z) A) H1)).
  { simpl. split; [now rewrite update_nth_length|]. split; [exact HH1|]. split.
    - rewrite nth_error_update_nth, Nat.eqb_refl, Hold. reflexivity.
    - intros i a Hi Ha. rewrite nth_error_update_nth in Ha.
      replace (i =? w)%nat with false in Ha by (symmetry; now apply Nat.eqb_neq).
      unfold assignments_in in HA. rewrite Forall_forall in HA.
      apply HA. eapply nth_error_In; eauto. }
  eapply on_bind; [apply on_observe; exact Hpoint | intros _ _].
  eapply on_bind; [apply on_lift with (post := fun _ => True); trivial | intros lls _].
  eapply on_bind; [apply on_lift with (post := fun _ => True); trivial | intros lp _].
  eapply on_bind; [apply on_lift with (post := fun _ => True); trivial | intros m _].
  eapply on_bind; [apply on_choice | intros new Hnew]. cbv beta in Hnew.
  eapply on_bind.
  { apply on_lift with
      (post := fun H2 => (Z.to_nat new < K)%nat
                         /\ H2 = update_nth (Z.to_nat new) (fun c => (c + 1)%Z) H1).
    intros H2 E. apply setitem_nonneg_inv in E as [Hlt ->]; [|exact Hnew].
    rewrite HH1, histogram_length in Hlt. now split. }
  intros H2 [HnewK ->].
  eapply on_bind.
  { apply on_lift with
      (post := fun A2 => A2 = update_nth w (fun _ => Z.of_nat (Z.to_nat new)) A).
    intros A2 E.
    rewrite setitem_of_nat in E by (now rewrite update_nth_length).
    injection E as <-. rewrite update_nth_twice. now rewrite Z2Nat.id by exact Hnew. }
  intros A2 ->.
  assert (Hhist : update_nth (Z.to_nat new) (fun c => (c + 1)%Z) H1
                  = histogram K (update_nth w (fun _ => Z.of_nat (Z.to_nat new)) A)).
  { rewrite HH1.
    rewrite <- (update_nth_twice w (fun _ => (-1)%Z) (fun _ => Z.of_nat (Z.to_nat new)) A).
    symmetry. apply histogram_commit.
    - now rewrite update_nth_length.
    - rewrite update_nth_nth by exact Hw. now rewrite Nat.eqb_refl.
    - exact HnewK. }
  assert (Hin : assignments_in K (update_nth w (fun _ => Z.of_nat (Z.to_nat new)) A)).
  { now apply assignments_in_update. }
  assert (Hlen : length (update_nth w (fun _ => Z.of_nat (Z.to_nat new)) A) = N).
  { now rewrite update_nth_length. }
  eapply on_bind; [apply on_observe; simpl; auto | intros _ _].
  apply on_ret. simpl. auto.
Qed.

Lemma bincount_ok_histogram (A : list Z) (KZ : Z) (H : list Z) :
  Forall (fun a => (0 <= a < KZ)%Z) A ->
  bincount A KZ = Ok H -> H = histogram (Z.to_nat KZ) A.
Proof.
  intros HA Hb.
  assert (HK : (0 <= KZ)%Z).
  { unfold bincount in Hb. destruct (KZ <? 0)%Z eqn:E; [discriminate|].
    now apply Z.ltb_ge in E. }
  assert (HA' : assignments_in (Z.to_nat KZ) A).
  { unfold assignments_in. now rewrite Z2Nat.id. }
  rewrite <- (Z2Nat.id KZ HK) in Hb.
  rewrite bincount_histogram in Hb by exact HA'. now injection Hb as <-.
Qed.

(** The whole call keeps the local state consistent, whatever the model. *)
Lemma sample_state (G : Generator) (m0 : GaussianLDA) (doc : list Z)
  (num_iterations : Z) :
  generator_ok G ->
  let K := Z.to_nat (num_tables m0) in
  run_on m0 (point_state_ok K (length doc)) (sample G doc num_iterations)
         (fun A => length A = length doc /\ assignments_in K A).
Proof.
  intros (_ & Hran & _) K. unfold sample.
  eapply on_bind; [apply on_get_self | intros self ->].
  eapply on_bind; [apply on_randint | intros A0 (g & g' & Hr)].
  destruct (Hran _ _ _ _ _ Hr) as (HA0l & HA0).
  eapply on_bind.
  { apply on_lift with (post := fun H0 => H0 = histogram K A0).
    intros H0. now apply bincount_ok_histogram. }
  intros H0 ->.
  assert (HA0in : assignments_in K A0).
  { unfold assignments_in, K. eapply Forall_impl; [|exact HA0]. simpl. lia. }
  eapply on_bind.
  - apply on_for_each with
      (I := fun locals => length (fst locals) = length doc
                          /\ assignments_in K (fst locals)
                          /\ snd locals = histogram K (fst locals)).
    + intros locals it (H1 & H2 & H3). unfold sample_iteration.
      apply on_for_each; [|auto].
      intros locals' x (H1' & H2' & H3'). now apply sample_customer_state.
    + simpl. auto.
  - intros locals (H1 & H2 & _). apply on_ret. auto.
Qed.

(** X7. In every call of [sample], returning or raising, on any model, the
    local state at every recorded point is consistent: the assignment vector
    has one entry per token and the histogram is the histogram of the
    assignments over the [K] tables; after a retraction the token being
    resampled holds the sentinel [-1] and every other token a table of
    [[0, K)], after a commit every token holds a table of [[0, K)]. *)
Theorem sample_state_at_every_point (G : Generator) (doc : list Z)
  (num_iterations : Z) (s : world G) :
  generator_ok G ->
  exists pts : list point,
    trace (snd (sample G doc num_iterations s)) = trace s ++ pts
    /\ forall p, In p pts ->
         point_state_ok (Z.to_nat (num_tables (model s))) (length doc) p.
Proof.
  intros HG.
  destruct (sample_state G (model s) doc num_iterations HG s eq_refl)
    as (_ & (pts & Htr & Hpts) & _).
  exists pts. split; [exact Htr|].
  intros p Hp. rewrite Forall_forall in Hpts. now apply Hpts.
Qed.

Lemma sample_state_at_every_point_witness :
  exists pts : list point,
    trace (snd (sample zero_generator [0%Z; 1%Z] 2 example_world))
    = trace example_world ++ pts
    /\ forall p, In p pts ->
         point_state_ok (Z.to_nat (num_tables (model example_world)))
                        (length [0%Z; 1%Z]) p.
Proof.
  apply (sample_state_at_every_point zero_generator [0%Z; 1%Z] 2 example_world).
  exact zero_generator_ok.
Defined.

(** X8. Whenever [sample] returns, on any model, the assignment it returns
    has one entry per token of the document, and every entry is a table id
    of [[0, K)]. *)
Theorem sample_returns_table_ids (G : Generator) (doc : list Z)
  (num_iterations : Z) (s : world G) (A : list Z) :
  generator_ok G ->
  fst (sample G doc num_iterations s) = Ok A ->
  length A = length doc
  /\ Forall (fun a => (0 <= a < num_tables (model s))%Z) A.
Proof.
  intros HG Hret.
  destruct (sample_state G (model s) doc num_iterations HG s eq_refl)
    as (_ & _ & Hpost).
  destruct (Hpost A Hret) as [Hl HA]. split; [exact Hl|].
  unfold assignments_in in HA. eapply Forall_impl; [|exact HA].
  simpl. intros a Ha. lia.
Qed.

Lemma sample_returns_table_ids_witness :
  exists A : list Z,
    fst (sample zero_generator [0%Z; 1%Z] 2 example_world) = Ok A
    /\ length A = length [0%Z; 1%Z]
    /\ Forall (fun a => (0 <= a < num_tables (model example_world))%Z) A.
Proof.
  destruct (sample_returns zero_generator example_model [0%Z; 1%Z] 2 example_world
              example_model_valid ltac:(simpl; lra) zero_generator_ok
              ltac:(simpl; lia) eq_refl example_doc_indexable)
    as (A & g & pts & Hrun & _).
  exists A.
  assert (Hret : fst (sample zero_generator [0%Z; 1%Z] 2 example_world) = Ok A)
    by (now rewrite Hrun).
  split; [exact Hret|].
  exact (sample_returns_table_ids zero_generator [0%Z; 1%Z] 2 example_world A
           zero_generator_ok Hret).
Defined.

(** X9. With a single table, whenever [sample] returns, every token is
    assigned to table 0. *)
Theorem sample_single_table (G : Generator) (doc : list Z)
  (num_iterations : Z) (s : world G) (A : list Z) :
  generator_ok G -> num_tables (model s) = 1%Z ->
  fst (sample G doc num_iterations s) = Ok A ->
  A = repeat 0%Z (length doc).
Proof.
  intros HG HK Hret.
  destruct (sample_state G (model s) doc num_iterations HG s eq_refl)
    as (_ & _ & Hpost).
  destruct (Hpost A Hret) as [Hl HA]. rewrite <- Hl.
  rewrite HK in HA. clear -HA.
  induction HA as [|a A Ha _ IH]; [reflexivity|].
  simpl. rewrite <- IH. f_equal. simpl in Ha. lia.
Qed.

Lemma one_table_model_valid : valid one_table_model.
Proof.
  split; [reflexivity|]. split; [split; reflexivity|]. split.
  - unfold proper; simpl. repeat split; try lra.
    repeat first [apply Forall_nil | apply Forall_cons]; lra.
  - unfold nonsingular; simpl. unfold diagonal; simpl.
    repeat first [apply Forall_nil | apply Forall_cons]; simpl; lra.
Qed.

Lemma sample_single_table_witness :
  exists A : list Z,
    fst (sample zero_generator [0%Z; 1%Z; 0%Z] 3 one_table_world) = Ok A
    /\ A = repeat 0%Z (length [0%Z; 1%Z; 0%Z]).
Proof.
  destruct (sample_returns zero_generator one_table_model [0%Z; 1%Z; 0%Z] 3
              one_table_world one_table_model_valid ltac:(simpl; lra)
              zero_generator_ok ltac:(simpl; lia) eq_refl)
    as (A & g & pts & Hrun & _).
  { repeat first [apply Forall_nil | apply Forall_cons]; unfold indexable; simpl; lia. }
  exists A.
  assert (Hret : fst (sample zero_generator [0%Z; 1%Z; 0%Z] 3 one_table_world) = Ok A)
    by (now rewrite Hrun).
  split; [exact Hret|].
  exact (sample_single_table zero_generator [0%Z; 1%Z; 0%Z] 3 one_table_world A
           zero_generator_ok eq_refl Hret).
Defined.

(** ** The empty document *)

Lemma iterations_of_empty_document (G : Generator) (its : list Z)
  (locals : list Z * list Z) (s : world G) :
  for_each its (sample_iteration G []) locals s = (Ok locals, s).
Proof.
  induction its as [|it its IH]; [reflexivity|].
  cbn [for_each]. unfold bindM. unfold sample_iteration at 1. simpl. exact IH.
Qed.

(** X10. For the empty document, on any model with at least one table,
    [sample] returns the empty assignment whatever [num_iterations] is: no
    density is evaluated, no point is recorded, and the generator is left in
    the state that the one call of [randint] of line 213 leaves, so that no
    further draw is made. *)
Theorem sample_empty_document (G : Generator) (num_iterations : Z) (s : world G) :
  generator_ok G -> (0 < num_tables (model s))%Z ->
  sample G [] num_iterations s
  = (Ok [], {| model := model s;
               gen := snd (randint G (gen s) (num_tables (model s)) 0);
               trace := trace s |}).
Proof.
  intros HG HK.
  destruct (sample_prologue G [] num_iterations s (Z.to_nat (num_tables (model s))) HG)
    as (A0 & g0 & Hr & HA0 & HA0l & Hrun); [lia | lia |].
  simpl length in Hr. rewrite Hr, Hrun. unfold bindM.
  rewrite iterations_of_empty_document. unfold ret. simpl.
  destruct A0; [reflexivity | discriminate].
Qed.

Lemma sample_empty_document_witness :
  sample zero_generator [] 5 singular_world
  = (Ok [], @mkWorld zero_generator (model singular_world)
              (snd (randint zero_generator (gen singular_world)
                            (num_tables (model singular_world)) 0))
              (trace singular_world)).
Proof.
  apply (sample_empty_document zero_generator 5 singular_world).
  - exact zero_generator_ok.
  - simpl. lia.
Defined.

(** ** A model with a singular factor *)

(** X11. On a model with consistent shapes, the caches of the constructor,
    proper hyperparameters and a Cholesky factor that has a zero on its
    diagonal, [sample] with at least one iteration raises [LinAlgError] on
    every document whose first token indexes the embedding matrix: the
    failure comes at the first token, after its retraction, and the
    generator is left in the state that the call of [randint] of line 213
    leaves, so that no draw from a posterior is made. *)
Theorem sample_on_singular_model (G : Generator) (self : GaussianLDA)
  (c : Z) (rest : list Z) (num_iterations : Z) (s : world G) (j : Z) :
  well_shaped self = true -> constructed self -> proper self ->
  (0 <= j < num_tables self)%Z ->
  In 0 (diagonal (nth (Z.to_nat j) (table_cholesky_ltriangular_mat self) [])) ->
  generator_ok G -> model s = self -> indexable self c ->
  (1 <= num_iterations)%Z ->
  exists A1 H1 : list Z,
    sample G (c :: rest) num_iterations s
    = (Raise LinAlgError,
       {| model := model s;
          gen := snd (randint G (gen s) (num_tables self) (length (c :: rest)));
          trace := trace s ++ [Retracted 0 A1 H1] |}).
Proof.
  intros Hws Hcons Hp Hj Hsing HG Hm Hc Hn.
  destruct (well_shaped_facts self Hws) as (HK & _ & _ & _ & _ & _ & Fe).
  set (K := length (table_counts self)) in *.
  destruct (sample_prologue G (c :: rest) num_iterations s K HG)
    as (A0 & g0 & Hr & HA0 & HA0l & Hrun); [rewrite Hm; exact HK | lia |].
  rewrite Hm in Hr. rewrite Hr. cbn [snd].
  destruct (getitem_in_range _ _ Hc) as (x & Hx & Hxin).
  assert (Hxl : length x = embedding_size self).
  { rewrite Forall_forall in Fe. now apply Fe. }
  destruct A0 as [|a0 A0]; [discriminate|].
  assert (Ha0 : (0 <= a0 < Z.of_nat K)%Z) by (now inversion HA0).
  assert (Hrange : exists its, range num_iterations = 0%Z :: its).
  { unfold range. destruct (Z.to_nat num_iterations) as [|k] eqn:E; [lia|].
    simpl. eauto. }
  destruct Hrange as (its & Hits).
  exists (update_nth 0 (fun _ => (-1)%Z) (a0 :: A0)),
    (update_nth (Z.to_nat a0) (fun c0 => (c0 - 1)%Z) (histogram K (a0 :: A0))).
  rewrite Hrun, Hits. cbn [for_each]. unfold bindM at 1 2.
  unfold sample_iteration at 1. unfold enumerate.
  cbn [length seq combine for_each]. unfold bindM at 1.
  unfold sample_customer, bindM, get_self, lift. cbn [model].
  rewrite Hm, (proj2 (np_getitem_ok_iff _ _ _) Hx).
  rewrite (getitem_of_nat (a0 :: A0) 0 0%Z) by (simpl; lia).
  rewrite (setitem_of_nat (a0 :: A0) 0) by (simpl; lia).
  cbn [nth].
  pose proof (setitem_of_nat (histogram K (a0 :: A0)) (Z.to_nat a0)
                (fun c0 => (c0 - 1)%Z)) as Hset.
  rewrite Z2Nat.id in Hset by lia.
  rewrite Hset by (rewrite histogram_length; lia).
  unfold observe. cbn [model gen trace].
  rewrite (tables_singular_raises self x j Hws Hcons Hxl Hj Hsing).
  rewrite ?Hm. reflexivity.
Qed.

Lemma sample_on_singular_model_witness :
  exists A1 H1 : list Z,
    sample zero_generator (0%Z :: [1%Z]) 1 singular_world
    = (Raise LinAlgError,
       @mkWorld zero_generator (model singular_world)
         (snd (randint zero_generator (gen singular_world)
                       (num_tables singular_model) (length (0%Z :: [1%Z]))))
         (trace singular_world ++ [Retracted 0 A1 H1])).
Proof.
  apply (sample_on_singular_model zero_generator singular_model 0 [1%Z] 1
           singular_world 1).
  - reflexivity.
  - apply singular_model_shapes.
  - exact singular_model_proper.
  - simpl. lia.
  - unfold diagonal. simpl. right. left. reflexivity.
  - exact zero_generator_ok.
  - reflexivity.
  - unfold indexable. simpl. lia.
  - lia.
Defined.

(** ** Negative token ids *)

Lemma getitem_normalize {A : Type} (l : list A) (c : Z) :
  (- Z.of_nat (length l) <= c < Z.of_nat (length l))%Z ->
  getitem l c = getitem l (normalize_token (length l) c).
Proof.
  intros Hc. unfold normalize_token.
  destruct (Z.ltb_spec c 0); [|reflexivity].
  apply getitem_wrap. lia.
Qed.

Lemma np_getitem_normalize {A : Type} (l : list A) (c : Z) :
  (- Z.of_nat (length l) <= c < Z.of_nat (length l))%Z ->
  np_getitem l c = np_getitem l (normalize_token (length l) c).
Proof.
  intros Hc. unfold normalize_token.
  destruct (Z.ltb_spec c 0); [|reflexivity].
  apply np_getitem_wrap. lia.
Qed.

Lemma sample_customer_normalize (G : Generator) (locals : list Z * list Z)
  (w : nat) (c : Z) (s : world G) :
  indexable (model s) c ->
  sample_customer G locals (w, c) s
  = sample_customer G locals
      (w, normalize_token (length (vocab_embeddings (model s))) c) s.
Proof.
  intros Hc. destruct locals as [A H].
  unfold sample_customer, bindM, get_self, lift.
  now rewrite <- np_getitem_normalize.
Qed.

Lemma sweep_normalize (G : Generator) (m0 : GaussianLDA) (doc : list Z) :
  Forall (indexable m0) doc ->
  forall (i : nat) (locals : list Z * list Z) (s : world G),
    model s = m0 ->
    for_each (combine (seq i (length doc)) doc) (sample_customer G) locals s
    = for_each
        (combine (seq i (length doc))
                 (map (normalize_token (length (vocab_embeddings m0))) doc))
        (sample_customer G) locals s.
Proof.
  induction 1 as [|c doc Hc _ IH]; intros i locals s Hm; [reflexivity|].
  cbn [length seq map combine for_each]. unfold bindM.
  rewrite sample_customer_normalize by (rewrite Hm; exact Hc). rewrite Hm.
  destruct (sample_customer_frame G locals
              (i, normalize_token (length (vocab_embeddings m0)) c) s) as (Hmod & _).
  destruct (sample_customer G locals
              (i, normalize_token (length (vocab_embeddings m0)) c) s)
    as [[locals'|e] s']; [|reflexivity].
  apply IH. simpl in Hmod. congruence.
Qed.

Lemma iterations_normalize (G : Generator) (m0 : GaussianLDA) (doc : list Z)
  (its : list Z) :
  Forall (indexable m0) doc ->
  forall (locals : list Z * list Z) (s : world G),
    model s = m0 ->
    for_each its (sample_iteration G doc) locals s
    = for_each its
        (sample_iteration G (map (normalize_token (length (vocab_embeddings m0))) doc))
        locals s.
Proof.
  intros Hdoc. induction its as [|it its IH]; intros locals s Hm; [reflexivity|].
  cbn [for_each]. unfold bindM.
  assert (Hit : sample_iteration G doc locals it s
                = sample_iteration G
                    (map (normalize_token (length (vocab_embeddings m0))) doc)
                    locals it s).
  { unfold sample_iteration, enumerate. rewrite length_map.
    now apply sweep_normalize. }
  rewrite Hit.
  assert (Hfr : run_ok (fun _ => True)
                  (sample_iteration G
                     (map (normalize_token (length (vocab_embeddings m0))) doc)
                     locals it) (fun _ => True)).
  { unfold sample_iteration. apply run_for_each with (I := fun _ => True); [|exact I].
    intros l x _. apply sample_customer_frame. }
  destruct (Hfr s) as (Hmod & _).
  destruct (sample_iteration G
              (map (normalize_token (length (vocab_embeddings m0))) doc) locals it s)
    as [[locals'|e] s']; [|reflexivity].
  apply IH. simpl in Hmod. congruence.
Qed.

(** X12. A negative token id is not an error: when every token id of the
    document indexes the embedding matrix of [V] words, [sample] behaves as on
    the document in which every negative id [c] is replaced by [c + V], the
    word counted from the end of the vocabulary. *)
Theorem sample_negative_ids_alias (G : Generator) (doc : list Z)
  (num_iterations : Z) (s : world G) :
  Forall (indexable (model s)) doc ->
  sample G doc num_iterations s
  = sample G (map (normalize_token (length (vocab_embeddings (model s)))) doc)
           num_iterations s.
Proof.
  intros Hdoc. unfold sample. unfold bindM at 1 2 3 5 6 7, get_self.
  rewrite length_map.
  unfold np_random_randint.
  destruct (randint G (gen s) (num_tables (model s)) (length doc)) as [[A0|e] g0];
    [|reflexivity].
  unfold lift.
  destruct (bincount A0 (num_tables (model s))) as [H0|e]; [|reflexivity].
  unfold bindM.
  now rewrite (iterations_normalize G (model s) doc (range num_iterations) Hdoc).
Qed.

Lemma sample_negative_ids_alias_witness :
  sample zero_generator [(-1)%Z; 0%Z] 2 example_world
  = sample zero_generator
      (map (normalize_token (length (vocab_embeddings (model example_world))))
           [(-1)%Z; 0%Z])
      2 example_world.
Proof.
  apply (sample_negative_ids_alias zero_generator [(-1)%Z; 0%Z] 2 example_world).
  repeat first [apply Forall_nil | apply Forall_cons]; unfold indexable; simpl; lia.
Defined.

(** * Further properties of the constructor *)

(** What the constructor stores, for every input. *)
Lemma init_never_fails_aux (W : list (list R) -> R -> Wishart.t)
  (emb : list (list R)) (voc : list String.string) (K : Z) (a kap : R)
  (counts : list R) (means : list (list R)) (log_dets : list R)
  (chols : list (list (list R))) :
  exists self : GaussianLDA,
    __init__ W emb voc K a kap counts means log_dets chols = Ok self
    /\ num_tables self = K
    /\ embedding_size self = shape1 emb
    /\ table_counts self = counts
    /\ table_means self = means
    /\ log_determinants self = log_dets
    /\ table_cholesky_ltriangular_mat self = chols
    /\ prior self = W emb kap
    /\ scaleTdistrn self = map (scale_of (W emb kap) (shape1 emb)) counts
    /\ nu self = map (nu_of (W emb kap) (shape1 emb)) counts
    /\ vocab_embeddings self = emb.
Proof.
  eexists. split; [reflexivity|]. simpl.
  repeat (split; [reflexivity|]). split; [|split; reflexivity].
  now rewrite map2_map_same.
Qed.

(** X13. From arrays of consistent shapes, embeddings whose rows have the
    same length [D], a prior with a positive [kappa] and more than [D - 1]
    degrees of freedom, counts that are not negative and factors without a
    zero on the diagonal, the constructor builds a well-formed model, and
    every cached scale and every cached number of degrees of freedom is
    positive. *)
Theorem init_builds_a_valid_model (W : list (list R) -> R -> Wishart.t)
  (emb : list (list R)) (voc : list String.string) (K : Z) (a kap : R)
  (counts : list R) (means : list (list R)) (log_dets : list R)
  (chols : list (list (list R))) :
  shapes_consistent K (shape1 emb) counts means log_dets chols = true ->
  forallb (fun e => (length e =? shape1 emb)%nat) emb = true ->
  0 < Wishart.kappa (W emb kap) ->
  INR (shape1 emb) - 1 < Wishart.nu (W emb kap) ->
  Forall (fun c => 0 <= c) counts ->
  Forall (fun L => Forall (fun d => d <> 0) (diagonal L)) chols ->
  exists self : GaussianLDA,
    __init__ W emb voc K a kap counts means log_dets chols = Ok self
    /\ valid self
    /\ Forall (fun s => 0 < s) (scaleTdistrn self)
    /\ Forall (fun n => 0 < n) (nu self).
Proof.
  intros Hsh Hemb Hk Hn Hc Hns.
  destruct (init_never_fails_aux W emb voc K a kap counts means log_dets chols)
    as (self & Hinit & HK & HD & Hcounts & Hmeans & Hld & Hch & Hprior & Hscale & Hnu & Hembs).
  exists self. split; [exact Hinit|].
  assert (Hproper : proper self).
  { unfold proper. rewrite Hprior, HD, Hcounts. auto. }
  split; [|split].
  - split; [|split; [|split]].
    + unfold well_shaped.
      rewrite HK, HD, Hcounts, Hmeans, Hld, Hch, Hembs, Hsh, Hemb. reflexivity.
    + unfold constructed. now rewrite Hscale, Hnu, Hprior, HD, Hcounts.
    + exact Hproper.
    + unfold nonsingular. now rewrite Hch.
  - rewrite Hscale. apply Forall_forall. intros s Hs.
    apply in_map_iff in Hs as (c & <- & Hin).
    rewrite Forall_forall in Hc. apply proper_count; auto.
  - rewrite Hnu. apply Forall_forall. intros n Hin.
    apply in_map_iff in Hin as (c & <- & Hin).
    rewrite Forall_forall in Hc. apply proper_count; auto.
Qed.

Lemma init_builds_a_valid_model_witness :
  exists self : GaussianLDA,
    __init__ Wishart_of_embeddings example_embeddings example_vocab 2 (1 / 2) (1 / 3)
             example_counts example_means example_log_determinants example_chol
    = Ok self
    /\ valid self
    /\ Forall (fun s => 0 < s) (scaleTdistrn self)
    /\ Forall (fun n => 0 < n) (nu self).
Proof.
  apply (init_builds_a_valid_model Wishart_of_embeddings example_embeddings
           example_vocab 2 (1 / 2) (1 / 3) example_counts example_means
           example_log_determinants example_chol).
  - reflexivity.
  - reflexivity.
  - simpl. lra.
  - simpl. lra.
  - repeat first [apply Forall_nil | apply Forall_cons]; lra.
  - unfold example_chol, diagonal. simpl.
    repeat first [apply Forall_nil | apply Forall_cons]; simpl; lra.
Defined.

(** * The loader of the Java output *)

(** ** Slices and assignments *)

Lemma py_slice_index_of_nat (n k : nat) :
  (k <= n)%nat -> py_slice_index n (Z.of_nat k) = k.
Proof.
  intros H. unfold py_slice_index.
  destruct (Z.ltb_spec (Z.of_nat k) 0); [lia|].
  rewrite Z.min_l by lia. apply Nat2Z.id.
Qed.

Lemma py_slice_block {A : Type} (pre blk post : list A) :
  py_slice (pre ++ blk ++ post) (Z.of_nat (length pre))
           (Z.of_nat (length pre) + Z.of_nat (length blk))
  = blk.
Proof.
  unfold py_slice. rewrite <- Nat2Z.inj_add.
  rewrite !py_slice_index_of_nat by (rewrite !length_app; lia).
  rewrite skipn_app, skipn_all, Nat.sub_diag. simpl.
  replace (length pre + length blk - length pre)%nat with (length blk) by lia.
  rewrite firstn_app, firstn_all, Nat.sub_diag. simpl. apply app_nil_r.
Qed.

Lemma getitem_middle {A : Type} (pre post : list A) (x : A) :
  getitem (pre ++ x :: post) (Z.of_nat (length pre)) = Ok x.
Proof.
  rewrite (getitem_of_nat _ _ x) by (rewrite length_app; simpl; lia).
  now rewrite nth_middle.
Qed.

Lemma np_array_rows_ok (D : nat) (rows : list (list R)) :
  Forall (fun r => length r = D) rows -> np_array_rows rows = Ok rows.
Proof.
  intros H. destruct rows as [|r rows]; [reflexivity|]. simpl.
  inversion H as [|? ? Hr Hrows]; subst.
  replace (forallb _ rows) with true; [reflexivity|].
  symmetry. apply forallb_forall. intros r' Hr'.
  rewrite Forall_forall in Hrows. rewrite (Hrows r' Hr'). apply Nat.eqb_refl.
Qed.

Lemma assign_matrix_full (D : nat) (rows : list (list R)) :
  length rows = D -> Forall (fun r => length r = D) rows ->
  assign_matrix D rows = Ok rows.
Proof.
  intros HD H. unfold assign_matrix. destruct rows as [|r rows].
  - simpl in HD. rewrite <- HD. reflexivity.
  - rewrite HD, Nat.eqb_refl.
    pose proof (Forall_inv H) as Hr. cbv beta in Hr.
    rewrite Hr, Nat.eqb_refl. simpl "||". simpl "&&". cbv iota.
    f_equal. rewrite <- (map_id (r :: rows)) at 2.
    apply map_ext_in. intros row Hrow. rewrite Forall_forall in H.
    now rewrite (H row Hrow), Nat.eqb_refl.
Qed.

Lemma assign_row_full (D : nat) (v : list R) :
  length v = D -> assign_row D v = Ok v.
Proof. intros H. unfold assign_row. now rewrite H, Nat.eqb_refl. Qed.

(** ** One table file *)

(** The block that starts at the line the code computes is stored under the
    table number. *)
Lemma load_table_file_block (D : nat) (iteration : Z)
  (means : list (list R)) (chols : list (list (list R))) (table_num : Z)
  (pre post : list (list R)) (mean : list R) (rows : list (list R)) (k : nat) :
  (if (iteration =? -1)%Z
   then ((Z.of_nat (length (pre ++ mean :: rows ++ post)) / Z.of_nat (D + 1) - 1)
         * Z.of_nat (D + 1))%Z
   else (iteration * Z.of_nat (D + 1))%Z) = Z.of_nat (length pre) ->
  length mean = D -> length rows = D ->
  Forall (fun r => length r = D) rows ->
  py_index (length means) table_num = Some k ->
  length chols = length means ->
  load_table_file D iteration (means, chols) (table_num, pre ++ mean :: rows ++ post)
  = Ok (update_nth k (fun _ => mean) means, update_nth k (fun _ => rows) chols).
Proof.
  intros Hstart Hmean Hrows Hall Hk Hlen.
  unfold load_table_file. rewrite Hstart.
  rewrite getitem_middle. simpl bind.
  rewrite Hmean, Nat.eqb_refl. simpl negb. cbv iota.
  unfold np_setitem. rewrite Hk. simpl bind.
  replace (pre ++ mean :: rows ++ post) with ((pre ++ [mean]) ++ rows ++ post)
    by (now rewrite <- app_assoc).
  replace (Z.of_nat (length pre) + 1)%Z with (Z.of_nat (length (pre ++ [mean])))
    by (rewrite length_app; simpl; lia).
  replace (Z.of_nat (length pre) + Z.of_nat D + 1)%Z
    with (Z.of_nat (length (pre ++ [mean])) + Z.of_nat (length rows))%Z
    by (rewrite length_app; simpl; lia).
  rewrite py_slice_block, (np_array_rows_ok D) by assumption. simpl bind.
  rewrite Hlen, Hk, assign_matrix_full by assumption. reflexivity.
Qed.

(** X14.  With [iteration = -1] a table file yields its last complete block
    of [D + 1] lines: after [n] blocks, the mean line and the [D] matrix
    lines are stored under the table number, and up to [D] further lines of
    an unfinished block are ignored. *)
Theorem load_table_file_last_complete_block (D : nat)
  (means : list (list R)) (chols : list (list (list R))) (table_num : Z)
  (pre post : list (list R)) (mean : list R) (rows : list (list R)) (n k : nat) :
  length pre = (n * (D + 1))%nat -> (length post < D + 1)%nat ->
  length mean = D -> length rows = D ->
  Forall (fun r => length r = D) rows ->
  py_index (length means) table_num = Some k ->
  length chols = length means ->
  load_table_file D (-1) (means, chols) (table_num, pre ++ mean :: rows ++ post)
  = Ok (update_nth k (fun _ => mean) means, update_nth k (fun _ => rows) chols).
Proof.
  intros Hpre Hpost Hmean Hrows Hall Hk Hlen.
  apply load_table_file_block; try assumption.
  change (-1 =? -1)%Z with true. cbv iota.
  assert (Hq : (Z.of_nat (length (pre ++ mean :: rows ++ post)) / Z.of_nat (D + 1)
                = Z.of_nat n + 1)%Z).
  { symmetry. apply (Z.div_unique_pos _ _ _ (Z.of_nat (length post))).
    - lia.
    - rewrite length_app. simpl. rewrite length_app. lia. }
  rewrite Hq. lia.
Qed.

Lemma load_table_file_last_complete_block_witness :
  load_table_file 1 (-1) ([[0]; [0]], [[[0]]; [[0]]])
                  (1%Z, [[5]; [6]] ++ [7] :: [[8]] ++ [[9]])
  = Ok ([[0]; [7]], [[[0]]; [[8]]]).
Proof.
  apply (load_table_file_last_complete_block 1 [[0]; [0]] [[[0]]; [[0]]] 1
           [[5]; [6]] [[9]] [7] [[8]] 1 1).
  - reflexivity.
  - simpl. lia.
  - reflexivity.
  - reflexivity.
  - repeat first [apply Forall_nil | apply Forall_cons]; reflexivity.
  - reflexivity.
  - reflexivity.
Defined.

(** X15.  With an explicit [iteration = i >= 0] a table file yields the
    block that starts at line [i (D + 1)], whatever follows it. *)
Theorem load_table_file_explicit_block (D : nat) (iteration : Z)
  (means : list (list R)) (chols : list (list (list R))) (table_num : Z)
  (pre post : list (list R)) (mean : list R) (rows : list (list R)) (k : nat) :
  (0 <= iteration)%Z ->
  Z.of_nat (length pre) = (iteration * Z.of_nat (D + 1))%Z ->
  length mean = D -> length rows = D ->
  Forall (fun r => length r = D) rows ->
  py_index (length means) table_num = Some k ->
  length chols = length means ->
  load_table_file D iteration (means, chols) (table_num, pre ++ mean :: rows ++ post)
  = Ok (update_nth k (fun _ => mean) means, update_nth k (fun _ => rows) chols).
Proof.
  intros Hi Hpre Hmean Hrows Hall Hk Hlen.
  apply load_table_file_block; try assumption.
  destruct (Z.eqb_spec iteration (-1)); [lia|]. now symmetry.
Qed.

Lemma load_table_file_explicit_block_witness :
  load_table_file 1 1 ([[0]; [0]], [[[0]]; [[0]]])
                  (0%Z, [[5]; [6]] ++ [7] :: [[8]] ++ [[9]; [10]; [11]])
  = Ok ([[7]; [0]], [[[8]]; [[0]]]).
Proof.
  apply (load_table_file_explicit_block 1 1 [[0]; [0]] [[[0]]; [[0]]] 0
           [[5]; [6]] [[9]; [10]; [11]] [7] [[8]] 0).
  - lia.
  - reflexivity.
  - reflexivity.
  - reflexivity.
  - repeat first [apply Forall_nil | apply Forall_cons]; reflexivity.
  - reflexivity.
  - reflexivity.
Defined.

(** X16.  With [iteration = -1] a table file of fewer than [D + 1] lines
    holds no complete block: the start line is [-(D + 1)], before the first
    line of the file, and reading it raises [IndexError]. *)
Theorem load_table_file_without_a_block (D : nat)
  (arrays : list (list R) * list (list (list R))) (table_num : Z)
  (lines : list (list R)) :
  (length lines < D + 1)%nat ->
  load_table_file D (-1) arrays (table_num, lines) = Raise IndexError.
Proof.
  intros H. unfold load_table_file. destruct arrays as [means chols].
  change (-1 =? -1)%Z with true. cbv iota.
  rewrite Z.div_small by lia.
  rewrite getitem_raises by lia. reflexivity.
Qed.

Lemma load_table_file_without_a_block_witness :
  load_table_file 2 (-1) ([[0; 0]], [[[0; 0]; [0; 0]]]) (0%Z, [[1; 2]; [3; 4]])
  = Raise IndexError.
Proof.
  apply (load_table_file_without_a_block 2). simpl. lia.
Defined.

(** ** The loop over the table files *)

Lemma py_index_nonneg (n : nat) (i : Z) (k : nat) :
  (0 <= i)%Z -> py_index n i = Some k -> k = Z.to_nat i /\ (k < n)%nat.
Proof.
  intros Hi E. pose proof (py_index_lt _ _ _ E) as Hk. split; [|exact Hk].
  unfold py_index in E.
  destruct ((0 <=? i) && (i <? Z.of_nat n))%Z eqn:E1.
  - now injection E as <-.
  - replace (i <? 0)%Z with false in E by (symmetry; apply Z.ltb_ge; lia).
    rewrite andb_false_r in E. discriminate.
Qed.

Lemma assign_matrix_shape (D : nat) (v block : list (list R)) :
  assign_matrix D v = Ok block ->
  length block = D /\ Forall (fun r => length r = D) block.
Proof.
  unfold assign_matrix. destruct v as [|r v].
  - destruct (Nat.eqb_spec D 0); [|discriminate].
    intros [= <-]. subst D. split; [reflexivity|constructor].
  - remember (r :: v) as v0 eqn:Hv0.
    destruct (_ && _) eqn:E; [|discriminate]. intros [= <-]. split.
    + rewrite length_map. destruct (Nat.eqb_spec (length v0) D) as [H|H];
        [exact H|apply repeat_length].
    + apply Forall_forall. intros row Hrow. apply in_map_iff in Hrow.
      destruct Hrow as (row0 & <- & _).
      destruct (Nat.eqb_spec (length row0) D) as [H|H];
        [exact H|apply repeat_length].
Qed.

(** What one table file does to the arrays, when it is read without error:
    it overwrites the row and the block of its table number with values that
    depend on the file alone. *)
Lemma load_table_file_inv (D : nat) (iteration : Z)
  (means : list (list R)) (chols : list (list (list R))) (table_num : Z)
  (lines : list (list R)) (r : list (list R) * list (list (list R))) :
  length chols = length means ->
  load_table_file D iteration (means, chols) (table_num, lines) = Ok r ->
  exists (k : nat) (mean : list R) (block : list (list R)),
    py_index (length means) table_num = Some k
    /\ r = (update_nth k (fun _ => mean) means, update_nth k (fun _ => block) chols)
    /\ length mean = D
    /\ length block = D /\ Forall (fun row => length row = D) block
    /\ forall (means2 : list (list R)) (chols2 : list (list (list R))),
         length means2 = length means -> length chols2 = length means ->
         load_table_file D iteration (means2, chols2) (table_num, lines)
         = Ok (update_nth k (fun _ => mean) means2,
               update_nth k (fun _ => block) chols2).
Proof.
  intros Hlen. unfold load_table_file.
  destruct (getitem lines _) as [mean|e] eqn:Eg; [|discriminate]. simpl bind.
  destruct (Nat.eqb_spec (length mean) D) as [Hm|Hm]; [|discriminate].
  simpl negb. cbv iota. unfold np_setitem.
  destruct (py_index (length means) table_num) as [k|] eqn:Ek; [|discriminate].
  simpl bind.
  destruct (np_array_rows _) as [rows|e] eqn:Er; [|discriminate]. simpl bind.
  rewrite Hlen, Ek.
  destruct (assign_matrix D rows) as [block|e] eqn:Ea; [|discriminate].
  simpl bind. intros [= <-].
  destruct (assign_matrix_shape _ _ _ Ea) as [Hb1 Hb2].
  exists k, mean, block. repeat split; try assumption.
  intros means2 chols2 H1 H2. simpl bind.
  destruct (Nat.eqb_spec (length mean) D) as [_|Hm']; [|contradiction].
  simpl negb. cbv iota. rewrite H1, Ek. simpl bind.
  rewrite H2, Ek. reflexivity.
Qed.

Lemma load_table_files_cons (D : nat) (iteration : Z)
  (arrays : list (list R) * list (list (list R)))
  (file : Z * list (list R)) (files : list (Z * list (list R))) :
  load_table_files D iteration arrays (file :: files)
  = (arrays' <- load_table_file D iteration arrays file ;;
     load_table_files D iteration arrays' files).
Proof. reflexivity. Qed.

Lemma load_table_files_length (D : nat) (iteration : Z)
  (files : list (Z * list (list R)))
  (means : list (list R)) (chols : list (list (list R)))
  (r : list (list R) * list (list (list R))) :
  length chols = length means ->
  load_table_files D iteration (means, chols) files = Ok r ->
  length (fst r) = length means /\ length (snd r) = length means.
Proof.
  revert means chols. induction files as [|[t lines] files IH];
    intros means chols Hlen.
  - intros [= <-]. simpl. now split.
  - rewrite load_table_files_cons.
    destruct (load_table_file D iteration (means, chols) (t, lines))
      as [r1|e] eqn:E1; [|simpl; discriminate]. simpl bind.
    destruct (load_table_file_inv _ _ _ _ _ _ _ Hlen E1)
      as (k & mean & block & _ & -> & _).
    intros H. apply IH in H; [|now rewrite !update_nth_length].
    now rewrite update_nth_length in H.
Qed.

(** The files that follow leave alone the tables they do not name. *)
Lemma load_table_files_frame (D : nat) (iteration : Z)
  (files : list (Z * list (list R)))
  (means : list (list R)) (chols : list (list (list R)))
  (r : list (list R) * list (list (list R))) (t : Z) :
  length chols = length means ->
  Forall (fun f => (0 <= fst f)%Z) files ->
  (0 <= t)%Z -> ~ In t (map fst files) ->
  load_table_files D iteration (means, chols) files = Ok r ->
  nth (Z.to_nat t) (fst r) [] = nth (Z.to_nat t) means []
  /\ nth (Z.to_nat t) (snd r) [] = nth (Z.to_nat t) chols [].
Proof.
  revert means chols. induction files as [|[t0 lines] files IH];
    intros means chols Hlen Hpos Ht Hnot.
  - intros [= <-]. now split.
  - rewrite load_table_files_cons.
    destruct (load_table_file D iteration (means, chols) (t0, lines))
      as [r1|e] eqn:E1; [|simpl; discriminate]. simpl bind.
    destruct (load_table_file_inv _ _ _ _ _ _ _ Hlen E1)
      as (k & mean & block & Hk & -> & _).
    pose proof (Forall_inv Hpos) as Ht0. simpl in Ht0.
    destruct (py_index_nonneg _ _ _ Ht0 Hk) as [-> Hlt].
    intros H. apply IH in H.
    + destruct H as [H1 H2]. rewrite H1, H2.
      assert (Hne : Z.to_nat t <> Z.to_nat t0).
      { intros E. apply Hnot. left. simpl. lia. }
      destruct (Nat.ltb_spec (Z.to_nat t) (length means)) as [Hin|Hout].
      * rewrite !update_nth_nth by lia.
        destruct (Nat.eqb_spec (Z.to_nat t) (Z.to_nat t0)); [contradiction|].
        now split.
      * rewrite !nth_overflow by (rewrite ?update_nth_length; lia). now split.
    + now rewrite !update_nth_length.
    + exact (Forall_inv_tail Hpos).
    + exact Ht.
    + intros Hin. apply Hnot. now right.
Qed.

(** X17.  Each table gets the parameters of its own file.  When the table
    numbers of the listing are distinct, the loop over the files leaves in
    row [t] of the means and in block [t] of the factors what the file
    numbered [t] stores there when it is loaded alone: no file overwrites
    another one's table, in whatever order the directory lists them. *)
Theorem load_table_files_each_from_its_file (D : nat) (iteration : Z)
  (files : list (Z * list (list R)))
  (means : list (list R)) (chols : list (list (list R)))
  (r : list (list R) * list (list (list R))) :
  length chols = length means ->
  NoDup (map fst files) ->
  Forall (fun f => (0 <= fst f)%Z) files ->
  load_table_files D iteration (means, chols) files = Ok r ->
  forall (t : Z) (lines : list (list R)),
    In (t, lines) files ->
    exists r1 : list (list R) * list (list (list R)),
      load_table_file D iteration (means, chols) (t, lines) = Ok r1
      /\ nth (Z.to_nat t) (fst r) [] = nth (Z.to_nat t) (fst r1) []
      /\ nth (Z.to_nat t) (snd r) [] = nth (Z.to_nat t) (snd r1) [].
Proof.
  revert means chols. induction files as [|[t0 lines0] files IH];
    intros means chols Hlen Hnd Hpos Hrun t lines Hin; [contradiction|].
  rewrite load_table_files_cons in Hrun.
  destruct (load_table_file D iteration (means, chols) (t0, lines0))
    as [r0|e] eqn:E0; [|simpl in Hrun; discriminate]. simpl bind in Hrun.
  destruct (load_table_file_inv _ _ _ _ _ _ _ Hlen E0)
    as (k0 & mean0 & block0 & Hk0 & -> & _).
  simpl in Hnd. inversion Hnd as [|? ? Hnot Hnd']; subst.
  pose proof (Forall_inv Hpos) as Ht0. simpl in Ht0.
  pose proof (Forall_inv_tail Hpos) as Hpos'.
  assert (Hlen' : length (update_nth k0 (fun _ => block0) chols)
                  = length (update_nth k0 (fun _ => mean0) means))
    by (now rewrite !update_nth_length).
  destruct Hin as [[= -> ->]|Hin].
  - eexists. split; [exact E0|]. simpl fst. simpl snd.
    exact (load_table_files_frame _ _ _ _ _ _ _ Hlen' Hpos' Ht0 Hnot Hrun).
  - destruct (IH _ _ Hlen' Hnd' Hpos' Hrun t lines Hin) as (r1 & E1 & H1 & H2).
    destruct (load_table_file_inv _ _ _ _ _ _ _ Hlen' E1)
      as (k & mean & block & Hk & -> & _ & _ & _ & Hany).
    rewrite update_nth_length in Hk.
    assert (Ht : (0 <= t)%Z).
    { rewrite Forall_forall in Hpos'. exact (Hpos' _ Hin). }
    destruct (py_index_nonneg _ _ _ Ht Hk) as [-> Hlt].
    eexists. split.
    + apply Hany; rewrite ?update_nth_length; [reflexivity|exact Hlen].
    + rewrite H1, H2. simpl fst. simpl snd.
      rewrite !update_nth_nth by (rewrite ?update_nth_length; lia).
      rewrite Nat.eqb_refl. now split.
Qed.

Lemma load_table_files_each_from_its_file_witness :
  exists r1 : list (list R) * list (list (list R)),
    load_table_file 1 (-1) ([[0]; [0]], [[[0]]; [[0]]]) (0%Z, [[3]; [4]]) = Ok r1
    /\ nth (Z.to_nat 0) (fst ([[3]; [1]], [[[4]]; [[2]]])) []
       = nth (Z.to_nat 0) (fst r1) []
    /\ nth (Z.to_nat 0) (snd ([[3]; [1]], [[[4]]; [[2]]])) []
       = nth (Z.to_nat 0) (snd r1) [].
Proof.
  apply (load_table_files_each_from_its_file 1 (-1)
           [(1%Z, [[1]; [2]]); (0%Z, [[3]; [4]])]
           [[0]; [0]] [[[0]]; [[0]]] ([[3]; [1]], [[[4]]; [[2]]])).
  - reflexivity.
  - simpl. repeat constructor; simpl; intuition discriminate.
  - repeat first [apply Forall_nil | apply Forall_cons]; simpl; lia.
  - vm_compute. reflexivity.
  - right. left. reflexivity.
Defined.

(** A file whose number is not below the number of tables stops the loop. *)
Lemma load_table_files_out_of_range (D : nat) (iteration : Z)
  (files : list (Z * list (list R)))
  (means : list (list R)) (chols : list (list (list R)))
  (t : Z) (lines : list (list R)) :
  length chols = length means ->
  In (t, lines) files -> (Z.of_nat (length means) <= t)%Z ->
  exists e : exn, load_table_files D iteration (means, chols) files = Raise e.
Proof.
  revert means chols. induction files as [|[t0 lines0] files IH];
    intros means chols Hlen Hin Ht; [contradiction|].
  rewrite load_table_files_cons.
  destruct (load_table_file D iteration (means, chols) (t0, lines0))
    as [r0|e] eqn:E0; [|exists e; reflexivity]. simpl bind.
  destruct (load_table_file_inv _ _ _ _ _ _ _ Hlen E0)
    as (k0 & mean0 & block0 & Hk0 & -> & _).
  destruct Hin as [[= -> ->]|Hin].
  - rewrite py_index_none in Hk0 by lia. discriminate.
  - apply IH; rewrite ?update_nth_length; assumption.
Qed.

(** ** The embedding file *)

Lemma update_nth_split {A : Type} (k : nat) (f : A -> A) (l : list A) (d : A) :
  (k < length l)%nat ->
  update_nth k f l = firstn k l ++ f (nth k l d) :: skipn (S k) l.
Proof.
  revert k. induction l as [|a l IH]; intros k Hk; simpl in Hk; [lia|].
  destruct k as [|k]; [reflexivity|].
  simpl. f_equal. apply IH. lia.
Qed.

Lemma skipn_repeat_sub {A : Type} (x : A) (n m : nat) :
  skipn n (repeat x m) = repeat x (m - n).
Proof.
  revert m. induction n as [|n IH]; intros m.
  - now rewrite Nat.sub_0_r.
  - destruct m as [|m]; [reflexivity|]. simpl. apply IH.
Qed.

Lemma fill_embeddings_ok (D : nat) (lines : list (list R))
  (vocab_embeddings : list (list R)) (i : nat) :
  Forall (fun l => length l = D) lines ->
  (i + length lines <= length vocab_embeddings)%nat ->
  fill_embeddings D vocab_embeddings i lines
  = Ok (firstn i vocab_embeddings ++ lines
        ++ skipn (i + length lines) vocab_embeddings).
Proof.
  revert vocab_embeddings i.
  induction lines as [|line lines IH]; intros emb i Hall Hlen.
  - simpl. rewrite Nat.add_0_r. now rewrite firstn_skipn.
  - simpl in Hlen. simpl fill_embeddings.
    rewrite py_index_of_nat by lia.
    rewrite assign_row_full by exact (Forall_inv Hall). simpl bind.
    rewrite IH; [|exact (Forall_inv_tail Hall)|rewrite update_nth_length; lia].
    f_equal.
    rewrite (update_nth_split i _ emb []) by lia.
    assert (Hf : length (firstn i emb) = i) by (rewrite length_firstn; lia).
    rewrite firstn_app, Hf.
    replace (S i - i)%nat with 1%nat by lia.
    rewrite firstn_all2 by lia. simpl firstn.
    rewrite skipn_app, Hf.
    rewrite (skipn_all2 (firstn i emb)) by lia.
    replace (S i + length lines - i)%nat with (S (length lines)) by lia.
    rewrite skipn_cons, skipn_skipn.
    replace (length lines + S i)%nat with (i + S (length lines))%nat by lia.
    simpl length. rewrite <- !app_assoc. reflexivity.
Qed.

Lemma fill_embeddings_too_many (D : nat) (lines : list (list R))
  (vocab_embeddings : list (list R)) (i : nat) :
  Forall (fun l => length l = D) lines ->
  (i <= length vocab_embeddings)%nat ->
  (length vocab_embeddings < i + length lines)%nat ->
  fill_embeddings D vocab_embeddings i lines = Raise IndexError.
Proof.
  revert vocab_embeddings i.
  induction lines as [|line lines IH]; intros emb i Hall Hi0 Hlen.
  - simpl in Hlen. lia.
  - simpl in Hlen. simpl fill_embeddings.
    destruct (Nat.ltb_spec i (length emb)) as [Hi|Hi].
    + rewrite py_index_of_nat by lia.
      rewrite assign_row_full by exact (Forall_inv Hall). simpl bind.
      apply IH; [exact (Forall_inv_tail Hall)|rewrite update_nth_length; lia..].
    + now rewrite py_index_none by lia.
Qed.

(** X18.  The first line of the embedding file fixes [D] and is not stored:
    when every later line holds [D] numbers and the loader returns, the
    vector of word [i] is line [i + 1] of the file, there are no more such
    lines than words, and the words that are left keep the zero vector. *)
Theorem load_from_java_arrays_embeddings (vocab0 : list String.string)
  (first_line : list R) (later_lines : list (list R))
  (table_files : list (Z * list (list R))) (topic_counts_lines : list R)
  (iteration : Z) (a : java_arrays) :
  Forall (fun l => length l = length first_line) later_lines ->
  load_from_java_arrays vocab0 (first_line :: later_lines) table_files
                        topic_counts_lines iteration = Ok a ->
  (length later_lines <= length vocab0)%nat
  /\ java_embedding_size a = length first_line
  /\ java_vocab_embeddings a
     = later_lines ++ repeat (repeat 0 (length first_line))
                             (length vocab0 - length later_lines).
Proof.
  intros Hall. unfold load_from_java_arrays. simpl hd. simpl tl.
  destruct (Nat.leb_spec (length later_lines) (length vocab0)) as [Hle|Hgt].
  - rewrite fill_embeddings_ok by (rewrite ?repeat_length; simpl; lia || assumption).
    simpl bind.
    destruct (load_table_files _ _ _ _) as [arrays|e]; [|discriminate].
    simpl bind.
    destruct (load_from_java_log_determinants _) as [ld|e]; [|discriminate].
    simpl bind. intros [= <-]. simpl.
    split; [exact Hle|]. split; [reflexivity|].
    f_equal. apply skipn_repeat_sub.
  - rewrite fill_embeddings_too_many
      by (rewrite ?repeat_length; simpl; lia || assumption).
    simpl. discriminate.
Qed.

Lemma load_from_java_arrays_embeddings_witness :
  (length [[1; 2]] <= length ["a"%string; "b"%string])%nat
  /\ java_embedding_size
       (mkJavaArrays [[1; 2]; [0; 0]] 2 0 [] [] [] [])
     = length [9; 9]
  /\ java_vocab_embeddings
       (mkJavaArrays [[1; 2]; [0; 0]] 2 0 [] [] [] [])
     = [[1; 2]] ++ repeat (repeat 0 (length [9; 9]))
                          (length ["a"%string; "b"%string] - length [[1; 2]]).
Proof.
  apply (load_from_java_arrays_embeddings ["a"%string; "b"%string] [9; 9]
           [[1; 2]] [] [] (-1)).
  - repeat first [apply Forall_nil | apply Forall_cons]; reflexivity.
  - reflexivity.
Defined.

(** X19.  An embedding file with more lines after the first than the
    vocabulary has words is refused with [IndexError], when each of these
    lines holds [D] numbers. *)
Theorem load_from_java_arrays_too_many_embeddings (vocab0 : list String.string)
  (first_line : list R) (later_lines : list (list R))
  (table_files : list (Z * list (list R))) (topic_counts_lines : list R)
  (iteration : Z) :
  Forall (fun l => length l = length first_line) later_lines ->
  (length vocab0 < length later_lines)%nat ->
  load_from_java_arrays vocab0 (first_line :: later_lines) table_files
                        topic_counts_lines iteration
  = Raise IndexError.
Proof.
  intros Hall Hgt. unfold load_from_java_arrays. simpl hd. simpl tl.
  rewrite fill_embeddings_too_many; [reflexivity|assumption|lia|].
  rewrite repeat_length. simpl. exact Hgt.
Qed.

Lemma load_from_java_arrays_too_many_embeddings_witness :
  load_from_java_arrays ["a"%string] ([9; 9] :: [[1; 2]; [3; 4]]) [] [] (-1)
  = Raise IndexError.
Proof.
  apply (load_from_java_arrays_too_many_embeddings ["a"%string] [9; 9]
           [[1; 2]; [3; 4]] [] [] (-1)).
  - repeat first [apply Forall_nil | apply Forall_cons]; reflexivity.
  - simpl. lia.
Defined.

(** X20.  The tables are counted by the files, and a file is stored under
    its own number: when some table file carries a number that is not below
    the number of table files, the loader raises and returns no arrays. *)
Theorem load_from_java_arrays_table_numbering (vocab0 : list String.string)
  (embedding_lines : list (list R)) (table_files : list (Z * list (list R)))
  (topic_counts_lines : list R) (iteration : Z)
  (t : Z) (lines : list (list R)) :
  In (t, lines) table_files -> (Z.of_nat (length table_files) <= t)%Z ->
  exists e : exn,
    load_from_java_arrays vocab0 embedding_lines table_files
                          topic_counts_lines iteration = Raise e.
Proof.
  intros Hin Ht. unfold load_from_java_arrays.
  destruct (fill_embeddings _ _ _ _) as [emb|e]; [|exists e; reflexivity].
  simpl bind.
  destruct (load_table_files_out_of_range (length (hd [] embedding_lines))
              iteration table_files
              (repeat (repeat 0 (length (hd [] embedding_lines)))
                      (length table_files))
              (repeat (repeat (repeat 0 (length (hd [] embedding_lines)))
                              (length (hd [] embedding_lines)))
                      (length table_files))
              t lines) as [e He].
  - now rewrite !repeat_length.
  - exact Hin.
  - now rewrite repeat_length.
  - exists e. rewrite He. reflexivity.
Qed.

Lemma load_from_java_arrays_table_numbering_witness :
  exists e : exn,
    load_from_java_arrays ["a"%string] [[9]; [1]]
                          [(0%Z, [[1]; [2]]); (2%Z, [[3]; [4]])] [5; 6] (-1)
    = Raise e.
Proof.
  apply (load_from_java_arrays_table_numbering ["a"%string] [[9]; [1]]
           [(0%Z, [[1]; [2]]); (2%Z, [[3]; [4]])] [5; 6] (-1) 2 [[3]; [4]]).
  - right. left. reflexivity.
  - simpl. lia.
Defined.

(** ** The whole loader *)

Lemma Forall_update_nth {A : Type} (P : A -> Prop) (k : nat) (x : A) (l : list A) :
  Forall P l -> P x -> Forall P (update_nth k (fun _ => x) l).
Proof.
  intros Hl Hx. revert k. induction Hl as [|a l Ha Hl IH]; intros k.
  - destruct k; constructor.
  - destruct k as [|k]; simpl; constructor; auto.
Qed.

(** A table file of at least [D + 1] lines of [D] numbers each is read
    without error when [iteration = -1]. *)
Lemma load_table_file_all_lines (D : nat)
  (means : list (list R)) (chols : list (list (list R))) (table_num : Z)
  (lines : list (list R)) (k : nat) :
  (D + 1 <= length lines)%nat ->
  Forall (fun l => length l = D) lines ->
  py_index (length means) table_num = Some k ->
  length chols = length means ->
  exists (mean : list R) (rows : list (list R)),
    load_table_file D (-1) (means, chols) (table_num, lines)
    = Ok (update_nth k (fun _ => mean) means, update_nth k (fun _ => rows) chols)
    /\ length mean = D /\ length rows = D
    /\ Forall (fun r => length r = D) rows.
Proof.
  intros Hlong Hall Hk Hlen.
  set (q := (length lines / (D + 1))%nat).
  set (s := ((q - 1) * (D + 1))%nat).
  assert (Hq1 : (1 <= q)%nat).
  { unfold q. apply Nat.div_le_lower_bound; lia. }
  assert (Hq2 : (q * (D + 1) <= length lines)%nat).
  { unfold q. rewrite Nat.mul_comm. apply Nat.Div0.mul_div_le. }
  assert (Hs : (s + (D + 1) <= length lines)%nat) by (unfold s; nia).
  assert (Hl : lines = firstn s lines ++ skipn s lines)
    by (now rewrite firstn_skipn).
  assert (Hsk : length (skipn s lines) = (length lines - s)%nat)
    by apply length_skipn.
  assert (Hall2 : Forall (fun l => length l = D) (skipn s lines)).
  { rewrite Hl in Hall. exact (proj2 (proj1 (Forall_app _ _ _) Hall)). }
  destruct (skipn s lines) as [|mean rest] eqn:Erest; [simpl in Hsk; lia|].
  simpl in Hsk.
  assert (Hr : exists rows post : list (list R),
            rest = rows ++ post /\ length rows = D
            /\ Forall (fun l => length l = D) rows).
  { exists (firstn D rest), (skipn D rest). split; [now rewrite firstn_skipn|].
    split; [rewrite length_firstn; lia|].
    pose proof (Forall_inv_tail Hall2) as H.
    rewrite <- (firstn_skipn D rest) in H.
    exact (proj1 (proj1 (Forall_app _ _ _) H)). }
  destruct Hr as (rows & post & -> & Hrows & Hall3).
  exists mean, rows. repeat split.
  - rewrite Hl at 1.
    apply load_table_file_block; try assumption.
    + change (-1 =? -1)%Z with true. cbv iota.
      rewrite <- Hl.
      rewrite <- (Nat2Z.inj_div (length lines) (D + 1)). fold q.
      rewrite length_firstn, Nat.min_l by lia. unfold s.
      rewrite Nat2Z.inj_mul, Nat2Z.inj_sub by exact Hq1. reflexivity.
    + exact (Forall_inv Hall2).
  - exact (Forall_inv Hall2).
  - exact Hrows.
  - exact Hall3.
Qed.

Lemma load_table_files_ok (D K : nat) (files : list (Z * list (list R)))
  (means : list (list R)) (chols : list (list (list R))) :
  Forall (fun f => (0 <= fst f < Z.of_nat K)%Z
                   /\ (D + 1 <= length (snd f))%nat
                   /\ Forall (fun l => length l = D) (snd f)) files ->
  length means = K -> length chols = K ->
  Forall (fun m => length m = D) means ->
  Forall (fun L => length L = D /\ Forall (fun r => length r = D) L) chols ->
  exists r : list (list R) * list (list (list R)),
    load_table_files D (-1) (means, chols) files = Ok r
    /\ length (fst r) = K /\ length (snd r) = K
    /\ Forall (fun m => length m = D) (fst r)
    /\ Forall (fun L => length L = D /\ Forall (fun r => length r = D) L) (snd r).
Proof.
  revert means chols. induction files as [|[t lines] files IH];
    intros means chols Hfiles Hm Hc Hms Hcs.
  - exists (means, chols). simpl. repeat split; assumption.
  - rewrite load_table_files_cons.
    destruct (Forall_inv Hfiles) as (Ht & Hlong & Hall). simpl in Ht, Hlong, Hall.
    destruct (py_index_some (length means) t) as [k Hk]; [lia|].
    destruct (load_table_file_all_lines D means chols t lines k)
      as (mean & rows & E & Hmean & Hrows & Hrs); try assumption; [congruence|].
    rewrite E. simpl bind.
    apply IH.
    + exact (Forall_inv_tail Hfiles).
    + now rewrite update_nth_length.
    + now rewrite update_nth_length.
    + now apply Forall_update_nth.
    + apply Forall_update_nth; [assumption|now split].
Qed.

Lemma load_topic_counts_last (K : nat) (lines : list R) :
  (1 <= K)%nat ->
  load_topic_counts K (-1) lines = skipn (length lines - K) lines.
Proof.
  intros HK. unfold load_topic_counts. change (-1 =? -1)%Z with true. cbv iota.
  unfold py_slice.
  rewrite (py_slice_index_of_nat (length lines) (length lines)) by lia.
  unfold py_slice_index.
  destruct (Z.ltb_spec (- Z.of_nat K) 0); [|lia].
  replace (Z.to_nat (Z.max 0 (- Z.of_nat K + Z.of_nat (length lines))))
    with (length lines - K)%nat by lia.
  apply firstn_all2. rewrite length_skipn. lia.
Qed.

(** X21.  A Java output in which every line after the first of the
    embedding file and every line of every table file holds [D] numbers,
    with no more embedding lines than words, table files numbered below
    their count [K >= 1], each of at least [D + 1] lines, loads with
    [iteration = -1].  The embeddings, the means, the factors and the
    log-determinants then have the shapes of [K] tables in [D] dimensions,
    and the counts are the last [K] lines of the counts file: the arrays are
    consistent exactly when that file has at least [K] lines, and a shorter
    one is accepted and leaves fewer than [K] counts. *)
Theorem load_from_java_arrays_shapes (vocab0 : list String.string)
  (first_line : list R) (later_lines : list (list R))
  (table_files : list (Z * list (list R))) (topic_counts_lines : list R) :
  Forall (fun l => length l = length first_line) later_lines ->
  (length later_lines <= length vocab0)%nat ->
  table_files <> [] ->
  Forall (fun f => (0 <= fst f < Z.of_nat (length table_files))%Z
                   /\ (length first_line + 1 <= length (snd f))%nat
                   /\ Forall (fun l => length l = length first_line) (snd f))
         table_files ->
  exists a : java_arrays,
    load_from_java_arrays vocab0 (first_line :: later_lines) table_files
                          topic_counts_lines (-1) = Ok a
    /\ length (java_vocab_embeddings a) = length vocab0
    /\ Forall (fun e => length e = length first_line) (java_vocab_embeddings a)
    /\ java_table_counts a
       = skipn (length topic_counts_lines - length table_files) topic_counts_lines
    /\ shapes_consistent (java_num_tables a) (java_embedding_size a)
         (java_table_counts a) (java_table_means a) (java_log_determinants a)
         (java_table_cholesky_ltriangular_mat a)
       = (length table_files <=? length topic_counts_lines)%nat.
Proof.
  intros Hemb Hle Hne Hfiles.
  set (D := length first_line) in *. set (K := length table_files) in *.
  assert (HK : (1 <= K)%nat).
  { unfold K. destruct table_files; [contradiction|simpl; lia]. }
  unfold load_from_java_arrays. simpl hd. simpl tl. fold D K.
  rewrite fill_embeddings_ok by (rewrite ?repeat_length; simpl; lia || assumption).
  simpl bind.
  destruct (load_table_files_ok D K table_files
              (repeat (repeat 0 D) K) (repeat (repeat (repeat 0 D) D) K))
    as ([means chols] & E & Hm & Hc & Hms & Hcs).
  - exact Hfiles.
  - apply repeat_length.
  - apply repeat_length.
  - apply Forall_forall. intros m Hin. apply repeat_spec in Hin. subst m.
    apply repeat_length.
  - apply Forall_forall. intros L Hin. apply repeat_spec in Hin. subst L.
    split; [apply repeat_length|].
    apply Forall_forall. intros r Hin. apply repeat_spec in Hin. subst r.
    apply repeat_length.
  - rewrite E. simpl bind. simpl fst in *. simpl snd in *.
    rewrite load_from_java_log_determinants_ok.
    2:{ apply Forall_forall. intros L HL. rewrite Forall_forall in Hcs.
        destruct (Hcs L HL) as [HL1 HL2]. apply (is_square_intro D); [exact HL1|].
        apply forallb_forall. intros r Hr. rewrite Forall_forall in HL2.
        apply Nat.eqb_eq. now apply HL2. }
    simpl bind. eexists. split; [reflexivity|]. simpl.
    rewrite load_topic_counts_last by exact HK.
    split; [|split; [|split; [reflexivity|]]].
    + rewrite length_app, skipn_repeat_sub, repeat_length. lia.
    + apply Forall_app. split; [exact Hemb|].
      apply Forall_forall. intros e Hin. rewrite skipn_repeat_sub in Hin.
      apply repeat_spec in Hin. subst e. apply repeat_length.
    + unfold shapes_consistent. rewrite length_map, Hm, Hc, Z.eqb_refl.
      replace (forallb (fun m => (length m =? D)%nat) means) with true.
      2:{ symmetry. apply forallb_forall. intros m Hin.
          rewrite Forall_forall in Hms. apply Nat.eqb_eq. now apply Hms. }
      replace (forallb _ chols) with true.
      2:{ symmetry. apply forallb_forall. intros L Hin.
          rewrite Forall_forall in Hcs. destruct (Hcs L Hin) as [HL1 HL2].
          rewrite HL1, Nat.eqb_refl. simpl. apply forallb_forall. intros r Hr.
          rewrite Forall_forall in HL2. apply Nat.eqb_eq. now apply HL2. }
      rewrite !andb_true_r. rewrite length_skipn.
      destruct (Nat.leb_spec K (length topic_counts_lines)) as [H|H].
      * apply Z.eqb_eq. lia.
      * apply Z.eqb_neq. lia.
Qed.

Lemma load_from_java_arrays_shapes_witness :
  exists a : java_arrays,
    load_from_java_arrays ["a"%string; "b"%string] ([9] :: [[1]])
                          [(0%Z, [[5]; [6]; [7]; [8]; [3]])] [] (-1) = Ok a
    /\ length (java_vocab_embeddings a) = length ["a"%string; "b"%string]
    /\ Forall (fun e => length e = length [9]) (java_vocab_embeddings a)
    /\ java_table_counts a
       = skipn (length (@nil R) - length [(0%Z, [[5]; [6]; [7]; [8]; [3]])]) []
    /\ shapes_consistent (java_num_tables a) (java_embedding_size a)
         (java_table_counts a) (java_table_means a) (java_log_determinants a)
         (java_table_cholesky_ltriangular_mat a)
       = (length [(0%Z, [[5]; [6]; [7]; [8]; [3]])] <=? length (@nil R))%nat.
Proof.
  apply (load_from_java_arrays_shapes ["a"%string; "b"%string] [9] [[1]]
           [(0%Z, [[5]; [6]; [7]; [8]; [3]])] []).
  - repeat first [apply Forall_nil | apply Forall_cons]; reflexivity.
  - simpl. lia.
  - discriminate.
  - repeat first [apply Forall_nil | apply Forall_cons]. simpl.
    split; [lia|]. split; [lia|].
    repeat first [apply Forall_nil | apply Forall_cons]; reflexivity.
Defined.

(** ** The log-determinants of triangular factors *)

Lemma np_sum_zeros (l : list R) :
  Forall (fun x => x = 0) l -> np_sum l = 0.
Proof.
  induction 1 as [|x l Hx Hl IH]; [apply np_sum_nil|].
  rewrite np_sum_cons, IH, Hx. lra.
Qed.

Lemma remove_nth_0 {A : Type} (l : list A) : remove_nth 0 l = tl l.
Proof. now destruct l. Qed.

(** The determinant of a matrix without entries above the diagonal is the
    product of the diagonal: the expansion along the first row keeps its
    first term only. *)
Lemma det_lower_triangular (n : nat) :
  forall a : list (list R),
    length a = n -> lower_triangular a ->
    Forall (fun d => d <> 0) (diagonal a) ->
    det n a <> 0
    /\ ln (Rabs (det n a)) = np_sum (map (fun d => ln (Rabs d)) (diagonal a)).
Proof.
  induction n as [|n IH]; intros a Hlen Hlow Hdiag.
  - destruct a; [|discriminate]. simpl. split; [lra|].
    rewrite Rabs_R1, ln_1. symmetry. apply np_sum_nil.
  - destruct a as [|row a]; [discriminate|].
    injection Hlen as Hlen.
    rewrite diagonal_cons in Hdiag |- *.
    pose proof (Forall_inv Hdiag) as Hd0.
    pose proof (Forall_inv_tail Hdiag) as Hd1.
    destruct (IH (map (@tl R) a)) as [Hne Hln].
    { now rewrite length_map. }
    { eapply lower_triangular_tl; exact Hlow. }
    { exact Hd1. }
    assert (Hdet : det (S n) (row :: a) = hd 0 row * det n (map (@tl R) a)).
    { change (det (S n) (row :: a))
        with (np_sum (map (fun j => (-1) ^ j * nth j row 0
                                    * det n (map (remove_nth j) a))
                          (0%nat :: seq 1 n))).
      rewrite map_cons, np_sum_cons, np_sum_zeros.
      - rewrite (map_ext (remove_nth 0) (@tl R)) by apply remove_nth_0.
        replace (nth 0 row 0) with (hd 0 row) by (now destruct row).
        simpl. lra.
      - apply Forall_forall. intros x Hx. apply in_map_iff in Hx.
        destruct Hx as (j & <- & Hj). apply in_seq in Hj.
        pose proof (Hlow 0%nat j) as H0. simpl in H0.
        rewrite H0 by lia. lra. }
    rewrite Hdet. split.
    + apply Rmult_integral_contrapositive_currified; assumption.
    + rewrite Rabs_mult, ln_mult by (apply Rabs_pos_lt; assumption).
      rewrite map_cons, np_sum_cons, Hln. reflexivity.
Qed.

Lemma loaded_factor_lower_triangular : lower_triangular [[2; 0]; [3; 4]].
Proof.
  intros i j Hij.
  destruct i as [|[|i]]; simpl.
  - destruct j as [|[|j]]; [lia | reflexivity | destruct j; reflexivity].
  - destruct j as [|[|j]]; [lia | lia | destruct j; reflexivity].
  - destruct i; simpl; destruct j; reflexivity.
Qed.

(** X22.  For square factors without entries above the diagonal and without
    a zero on it, the log-determinant that [load_from_java] stores for a
    table is twice the sum of the logarithms of the absolute values of the
    diagonal of its factor [L], the log-determinant of [L L^T]. *)
Theorem load_from_java_log_determinants_of_factors
  (chols : list (list (list R))) :
  Forall (fun L => is_square L = true /\ lower_triangular L
                   /\ Forall (fun d => d <> 0) (diagonal L)) chols ->
  load_from_java_log_determinants chols
  = Ok (map (fun L => 2 * np_sum (map (fun d => ln (Rabs d)) (diagonal L))) chols).
Proof.
  intros H. rewrite load_from_java_log_determinants_ok.
  - f_equal. apply map_ext_in. intros L HL. rewrite Forall_forall in H.
    destruct (H L HL) as (_ & Hlow & Hdiag).
    destruct (det_lower_triangular (length L) L eq_refl Hlow Hdiag) as [_ ->].
    reflexivity.
  - apply Forall_forall. intros L HL. rewrite Forall_forall in H.
    exact (proj1 (H L HL)).
Qed.

Lemma load_from_java_log_determinants_of_factors_witness :
  load_from_java_log_determinants [[[2; 0]; [3; 4]]]
  = Ok (map (fun L => 2 * np_sum (map (fun d => ln (Rabs d)) (diagonal L)))
            [[[2; 0]; [3; 4]]]).
Proof.
  apply (load_from_java_log_determinants_of_factors [[[2; 0]; [3; 4]]]).
  repeat first [apply Forall_nil | apply Forall_cons].
  split; [reflexivity|]. split; [exact loaded_factor_lower_triangular|].
  unfold diagonal. simpl.
  repeat first [apply Forall_nil | apply Forall_cons]; lra.
Defined.
